(** * pushgo: the memcached channel store (package [storage])

    A shallow embedding of the storage adapter of the Simple Push server:
    the key encodings, the channel-record operations of [EmceeStore] over a
    model of the memcached client, and the connection-pool run loop,
    followed by the properties established about them. *)

From Stdlib Require Import ZArith List String Ascii Lia Bool.
From Stdlib.Strings Require Import Byte.
From stdpp Require Import base option list strings gmap sorting.

Local Open Scope Z_scope.

(** ** Go library functions used by the adapter *)

(** Package [strings]: substring search and splitting. *)
Module gostrings.

(** [strings.HasPrefix(s, prefix)]. *)
Fixpoint HasPrefix (s prefix : string) {struct prefix} : bool :=
  match prefix, s with
  | EmptyString, _ => true
  | String c p, String d s' => Ascii.eqb c d && HasPrefix s' p
  | String _ _, EmptyString => false
  end.

(** [strings.Contains(s, substr)]: [substr] occurs somewhere within [s]. *)
Fixpoint Contains (s substr : string) : bool :=
  HasPrefix s substr ||
  match s with
  | EmptyString => false
  | String _ s' => Contains s' substr
  end.

(** The slice expression [s[n:]]. *)
Fixpoint from (n : nat) (s : string) : string :=
  match n, s with
  | O, _ => s
  | S n', String _ s' => from n' s'
  | S _, EmptyString => EmptyString
  end.

(** Cuts [s] around the first occurrence of [sep]. *)
Fixpoint cut (s sep : string) : option (string * string) :=
  if HasPrefix s sep
  then Some (EmptyString, from (String.length sep) s)
  else match s with
       | EmptyString => None
       | String c s' =>
           match cut s' sep with
           | Some (before, after) => Some (String c before, after)
           | None => None
           end
       end.

(** [strings.SplitN(s, sep, n)] for a non-empty separator and [n >= 0]:
    at most [n] pieces, the last one being the unsplit remainder. *)
Fixpoint SplitN (s sep : string) (n : nat) : list string :=
  match n with
  | O => []
  | S O => [s]
  | S n' =>
      match cut s sep with
      | None => [s]
      | Some (before, after) => before :: SplitN after sep n'
      end
  end.

End gostrings.

(** Package [encoding/hex]. *)
Module gohex.

Definition digit (n : N) : ascii :=
  if (n <? 10)%N then ascii_of_N (48 + n) else ascii_of_N (87 + n).

Fixpoint EncodeToString (src : list byte) : string :=
  match src with
  | [] => EmptyString
  | b :: rest =>
      let n := Byte.to_N b in
      String (digit (n / 16)) (String (digit (n mod 16)) (EncodeToString rest))
  end.

End gohex.

(** Package [encoding/base64], the padded standard encoding. *)
Module gobase64.

Definition encodeStd : string :=
  "ABCDEFGHIJKLMNOPQRSTUVWXYZabcdefghijklmnopqrstuvwxyz0123456789+/".

Definition sextet (n : N) : ascii :=
  match String.get (N.to_nat n) encodeStd with
  | Some c => c
  | None => "="%char
  end.

Fixpoint EncodeToString (src : list byte) : string :=
  match src with
  | [] => EmptyString
  | [a] =>
      let x := Byte.to_N a in
      String (sextet (x / 4)) (String (sextet ((x mod 4) * 16)) "==")
  | [a; b] =>
      let x := Byte.to_N a in
      let y := Byte.to_N b in
      String (sextet (x / 4))
        (String (sextet ((x mod 4) * 16 + y / 16))
           (String (sextet ((y mod 16) * 4)) "="))
  | a :: b :: c :: rest =>
      let x := Byte.to_N a in
      let y := Byte.to_N b in
      let z := Byte.to_N c in
      String (sextet (x / 4))
        (String (sextet ((x mod 4) * 16 + y / 16))
           (String (sextet ((y mod 16) * 4 + z / 64))
              (String (sextet (z mod 64)) (EncodeToString rest))))
  end.

End gobase64.

(** ** Errors *)

(** The error values of package [sperrors] that the adapter returns. *)
Inductive sperror : Type :=
| NoChannelError
| InvalidPrimaryKeyError
| InvalidChannelError
| MissingDataError
| NoDataToStoreError.

(** A Go [error] as the adapter sees it: a value of package [sperrors], a
    [StorageError] string, [io.EOF], or an error reported by the memcached
    client, carried with its message. *)
Inductive error : Type :=
| Sperror (e : sperror)
| StorageError (msg : string)
| io_EOF
| McError (msg : string).

Definition ErrPoolSaturated : error := StorageError "Connection pool saturated".

#[global] Instance sperror_eq_dec : EqDecision sperror.
Proof. solve_decision. Defined.

#[global] Instance error_eq_dec : EqDecision error.
Proof. solve_decision. Defined.

#[global] Instance byte_eq_dec' : EqDecision byte := byte_eq_dec.

Section Messages.

(** The message texts of the [sperrors] values are declared outside the
    adapter; they are a parameter of [Error]. *)
Variable sperrors_text : sperror -> string.

(** [err.Error()]. *)
Definition Error (err : error) : string :=
  match err with
  | Sperror e => sperrors_text e
  | StorageError msg => msg
  | io_EOF => "EOF"
  | McError msg => msg
  end.

(** Determines whether the given error is a memcached "missing key"
    error. The haystack is the literal and the needle is the message. *)
Definition isMissing (err : error) : bool :=
  gostrings.Contains "NOT FOUND" (Error err).

End Messages.

(** ** Keys *)

(** The builtin [copy(dst[off:], src)] on a destination of fixed length:
    [min (len dst - off) (len src)] bytes are overwritten. *)
Definition copy (dst : list byte) (off : nat) (src : list byte) : list byte :=
  let n := Nat.min (length dst - off) (length src) in
  take off dst ++ take n src ++ drop (off + n) dst.

(** Converts a [(uaid, chid)] tuple to a binary primary key. *)
Definition toBinaryKey (uaid chid : list byte) : list byte * option error :=
  let key := replicate 32 x00 in
  let aoff := 16 - Z.of_nat (length uaid) in
  let aoff := if aoff <? 0 then 0 else aoff in
  let boff := 32 - Z.of_nat (length chid) in
  let boff := if boff <? 16 then 16 else boff in
  let key := copy key (Z.to_nat aoff) uaid in
  let key := copy key (Z.to_nat boff) chid in
  (key, None).

(** Converts a binary primary key into a Base64-encoded string suitable for
    storage in memcached. *)
Definition encodeKey (key : list byte) : string :=
  gobase64.EncodeToString key.

(** [KeyToIDs] extracts the hex-encoded device and channel IDs from a
    user-readable primary key. *)
Definition KeyToIDs (key : string) : string * string * bool :=
  let items := gostrings.SplitN key "." 2 in
  if (length items =? 2)%nat
  then (nth 0 items EmptyString, nth 1 items EmptyString, true)
  else (EmptyString, EmptyString, false).

(** [IDsToKey] generates a user-readable primary key from a (device ID,
    channel ID) tuple: [fmt.Sprintf("%s.%s", suaid, schid)]. *)
Definition IDsToKey (suaid schid : string) : string * bool :=
  if (0 <? String.length suaid)%nat && (0 <? String.length schid)%nat
  then (suaid +:+ "." +:+ schid, true)
  else (EmptyString, false).

(** ** Channel records and channel ID lists *)

(** Channel record status constants. *)
Definition DELETED : Z := 0.
Definition LIVE : Z := 1.
Definition REGISTERED : Z := 2.

(** The conversion [uint64(x)] of a signed 64-bit integer. *)
Definition uint64 (x : Z) : Z := x mod 2 ^ 64.

(** [cr] is a channel record: state ([int8]), version ([uint64]) and last
    touched ([int64]), with the short field names of the source. *)
Module cr.
Record t : Type := mk { S : Z; V : Z; L : Z }.
(** [new(cr)]. *)
Definition zero : t := mk 0 0 0.
End cr.

(** [ia] is a list of decoded channel IDs. *)
Abbreviation ia := (list (list byte)).

(** [bytes.Compare]: lexicographic order on byte strings. *)
Fixpoint bytes_Compare (a b : list byte) : Z :=
  match a, b with
  | [], [] => 0
  | [], _ :: _ => -1
  | _ :: _, [] => 1
  | x :: a', y :: b' =>
      if (Byte.to_N x <? Byte.to_N y)%N then -1
      else if (Byte.to_N y <? Byte.to_N x)%N then 1
      else bytes_Compare a' b'
  end.

(** [Less] on two channel IDs. *)
Definition Less (a b : list byte) : bool := bytes_Compare a b <? 0.

(** [bytes.Equal]. *)
Definition bytes_Equal (a b : list byte) : bool := bool_decide (a = b).

Fixpoint IndexOf_from (index : Z) (channelIDs : ia) (val : list byte) : Z :=
  match channelIDs with
  | [] => -1
  | v :: rest =>
      if bytes_Equal v val then index else IndexOf_from (index + 1) rest val
  end.

(** [IndexOf] returns the location of a channel ID in the list, or -1 if
    the ID isn't present. *)
Definition IndexOf (channelIDs : ia) (val : list byte) : Z :=
  IndexOf_from 0 channelIDs val.

(** A slice of channel IDs: the array it points into, from the slice's
    first element on, and its length. The capacity is the length of the
    array; slices made from one another share the array. *)
Record slice : Type := Slice { array : ia; len : nat }.

Definition elems (s : slice) : ia := take (len s) (array s).
Definition slice_of (l : ia) : slice := Slice l (length l).

(** What a call comes to: a normal return or a run-time panic. *)
Inductive outcome (A : Type) : Type :=
| Normal (a : A)
| Panic.
Arguments Normal {A} a.
Arguments Panic {A}.

(** [remove] returns the slice with the element at position [pos] removed,
    or the same slice when [pos] is negative or equal to its length:
    [append(list[:pos], list[pos+1:]...)] shifts the tail one place down
    inside the shared array and leaves the old last cell as it was.
    [list[pos+1:]] panics when [pos+1] exceeds the length. *)
Definition remove (list : slice) (pos : Z) : outcome slice :=
  if (pos <? 0) || (pos =? Z.of_nat (len list)) then Normal list
  else if Z.of_nat (len list) <? pos + 1 then Panic
  else
    let p := Z.to_nat pos in
    Normal (Slice (take p (array list)
                     ++ drop (Datatypes.S p) (take (len list) (array list))
                     ++ drop (len list - 1) (array list))
                  (len list - 1)).

(** The loop of [fetchAppIDArray] that pares out duplicates,
    [for i, chid := range result], with [n] iterations left. The range
    expression is evaluated once: the loop runs over the first length and
    reads [chid] from the shared array, while the body reslices and
    reassigns the current [result]. The array is never shorter than the
    first length, so the read of [chid] finds an element. *)
Fixpoint pare (n i : nat) (result : slice) : outcome slice :=
  match n with
  | O => Normal result
  | Datatypes.S n' =>
      match array result !! i with
      | None => Panic
      | Some chid =>
          if (len result <? i + 1)%nat then Panic
          else
            let dup := IndexOf (drop (i + 1) (elems result)) chid in
            if dup >? -1 then
              match remove result (Z.of_nat i + dup) with
              | Normal result' => pare n' (i + 1) result'
              | Panic => Panic
              end
            else pare n' (i + 1) result
      end
  end.

(** ** The memcached client and the world the adapter runs in *)

(** A value held by memcached, by the Go type it was encoded from. *)
Inductive value : Type :=
| Vcr (rec : cr.t)
| Via (arr : ia)
| Vstring (str : string).

(** What an acquisition from the connection pool comes to in [getClient]:
    a client, [io.EOF] once the pool is closing, or [ErrPoolSaturated]. *)
Inductive acquired : Type :=
| Client
| PoolClosed
| PoolSaturated.

(** The interactions with the pool and the client, as they are made. *)
Inductive call : Type :=
| CallAcquire
| CallGetCr (key : string)
| CallGetIa (key : string)
| CallSet (key : string) (val : value) (ttl : Z).

(** The world: the items memcached holds, the clock in unix seconds, the
    outcomes of the coming pool acquisitions and the failures of the coming
    client calls ([None], or a script that ran out: the call goes through),
    and the calls made so far, most recent first.

    The memcached client is the library [gomc]; it is taken to return an
    error or a value and never to panic, so the [recover] of [fetchRec] and
    [Status] has nothing to trap. A call that fails leaves the items as
    they were. The clock stands still during one operation, and the expiry
    of items after their [ttl] is left out: the [ttl] of a [Set] is kept in
    the call. The logging methods of the store have empty bodies and are
    left out. *)
Record world : Type := World {
  items : gmap string value;
  now : Z;
  acquisitions : list acquired;
  failures : list (option string);
  calls : list call
}.

(** Store operations thread the world and may panic. *)
Definition M (A : Type) : Type := world -> outcome A * world.

Definition ret {A : Type} (a : A) : M A := fun w => (Normal a, w).

Definition bind {A B : Type} (m : M A) (k : A -> M B) : M B :=
  fun w =>
    match m w with
    | (Normal a, w') => k a w'
    | (Panic, w') => (Panic, w')
    end.

Definition panic {A : Type} : M A := fun w => (Panic, w).

Notation "'do' x <- m ; k" := (bind m (fun x => k))
  (at level 10, x name, m at level 100, k at level 200).
Notation "'do' ' pat <- m ; k" := (bind m (fun x => match x with pat => k end))
  (at level 10, pat pattern, m at level 100, k at level 200).

(** [time.Now().UTC().Unix()]. *)
Definition time_Now_Unix : M Z := fun w => (Normal (now w), w).

Definition record (c : call) (w : world) : world :=
  World (items w) (now w) (acquisitions w) (failures w) (c :: calls w).

(** The failure scripted for the next client call, if any. *)
Definition next_failure (w : world) : option string * world :=
  match failures w with
  | [] => (None, w)
  | f :: rest => (f, World (items w) (now w) (acquisitions w) rest (calls w))
  end.

(** The error text of a value that does not decode into the destination. *)
Definition gob_mismatch : string := "gob: type mismatch".

(** [client.Get(key, &result)] into a channel record: on an error the
    destination keeps its zero value. *)
Definition client_Get_cr (key : string) : M (cr.t * option error) :=
  fun w =>
    let '(f, w) := next_failure (record (CallGetCr key) w) in
    match f with
    | Some msg => (Normal (cr.zero, Some (McError msg)), w)
    | None =>
        match items w !! key with
        | Some (Vcr rec) => (Normal (rec, None), w)
        | Some _ => (Normal (cr.zero, Some (McError gob_mismatch)), w)
        | None => (Normal (cr.zero, Some (McError "NOT FOUND")), w)
        end
    end.

(** [client.Get(key, &result)] into a list of channel IDs. *)
Definition client_Get_ia (key : string) : M (ia * option error) :=
  fun w =>
    let '(f, w) := next_failure (record (CallGetIa key) w) in
    match f with
    | Some msg => (Normal ([], Some (McError msg)), w)
    | None =>
        match items w !! key with
        | Some (Via arr) => (Normal (arr, None), w)
        | Some _ => (Normal ([], Some (McError gob_mismatch)), w)
        | None => (Normal ([], Some (McError "NOT FOUND")), w)
        end
    end.

(** [client.Set(key, val, ttl)]: a failed call leaves the items alone. *)
Definition client_Set (key : string) (val : value) (ttl : Z) : M (option error) :=
  fun w =>
    let '(f, w) := next_failure (record (CallSet key val ttl) w) in
    match f with
    | Some msg => (Normal (Some (McError msg)), w)
    | None =>
        (Normal None,
         World (<[key := val]> (items w)) (now w) (acquisitions w)
               (failures w) (calls w))
    end.

(** ** The memcached adapter *)

(** The fields of [EmceeConfig] the operations read; durations in
    nanoseconds. *)
Record EmceeConfig : Type := {
  MinConns : Z;
  MaxConns : Z;
  ChannelTimeout : Z;
  RegisterTimeout : Z;
  UnregisterTimeout : Z
}.

(** [EmceeStore] is the memcached adapter. Its channels to the run loop
    are the acquisitions of the world. *)
Record EmceeStore : Type := { config : EmceeConfig }.

(** An update of a channel, as [FetchAll] reports it. *)
Record storage_Update : Type := { ChannelID : string; Version : Z }.

(** The order [sort.Sort] leaves a list of channel IDs in: no channel ID
    is [Less] than one before it. *)
Definition bytes_le (a b : list byte) : Prop := Less b a = false.

#[global] Instance bytes_le_dec (a b : list byte) : Decision (bytes_le a b).
Proof. unfold bytes_le. apply _. Defined.

(** [sort.Sort(arr)]. *)
Definition sort_Sort (arr : ia) : ia := merge_sort bytes_le arr.

Section Store.

Variable sperrors_text : sperror -> string.
Variable s : EmceeStore.

(** Acquires a memcached connection from the connection pool. Only the
    error is kept: every client reaches the same memcached, and
    [releaseClient] hands it back when the caller returns. *)
Definition getClient : M (option error) :=
  fun w =>
    let w := record CallAcquire w in
    match acquisitions w with
    | [] => (Normal None, w)
    | a :: rest =>
        (Normal match a with
                | Client => None
                | PoolClosed => Some io_EOF
                | PoolSaturated => Some ErrPoolSaturated
                end,
         World (items w) (now w) rest (failures w) (calls w))
    end.

(** Queries memcached for a list of current subscriptions associated
    with the given device ID. *)
Definition fetchAppIDArray (uaid : list byte) : M (ia * option error) :=
  if (length uaid =? 0)%nat then ret ([], None)
  else
    do err <- getClient;
    match err with
    | Some err => ret ([], Some err)
    | None =>
        do '(result, err) <- client_Get_ia (encodeKey uaid);
        match err with
        | Some err =>
            if isMissing sperrors_text err then ret ([], None)
            else ret ([], Some err)
        | None =>
            (* pare out duplicates. *)
            match pare (length result) 0 (slice_of result) with
            | Normal result => ret (elems result, None)
            | Panic => panic
            end
        end
    end.

(** Writes an updated subscription list for the given device ID to
    memcached. *)
Definition storeAppIDArray (uaid : list byte) (arr : ia) : M (option error) :=
  if (length uaid =? 0)%nat then ret (Some (Sperror MissingDataError))
  else
    do err <- getClient;
    match err with
    | Some err => ret (Some err)
    | None =>
        do err <- client_Set (encodeKey uaid) (Via (sort_Sort arr)) 0;
        match err with
        | Some err => ret (Some err)
        | None => ret None
        end
    end.

(** Retrieves a channel record from memcached. A missing key leaves the
    zero record in [result], which is returned without an error. *)
Definition fetchRec (pk : list byte) : M (option cr.t * option error) :=
  if (length pk =? 0)%nat then ret (None, Some (Sperror InvalidPrimaryKeyError))
  else
    let keyString := encodeKey pk in
    do err <- getClient;
    match err with
    | Some err => ret (None, Some err)
    | None =>
        do '(result, err) <- client_Get_cr keyString;
        match err with
        | Some err =>
            if negb (isMissing sperrors_text err) then ret (None, Some err)
            else ret (Some result, None)
        | None => ret (Some result, None)
        end
    end.

(** Stores an updated channel record in memcached. A failure of
    [client.Set] is logged and not returned. *)
Definition storeRec (pk : list byte) (rec : option cr.t) : M (option error) :=
  if (length pk =? 0)%nat then ret (Some (Sperror InvalidPrimaryKeyError))
  else
    match rec with
    | None => ret (Some (Sperror NoDataToStoreError))
    | Some rec =>
        let ttl :=
          if cr.S rec =? DELETED then UnregisterTimeout (config s)
          else if cr.S rec =? REGISTERED then RegisterTimeout (config s)
          else ChannelTimeout (config s) in
        do t <- time_Now_Unix;
        let rec := cr.mk (cr.S rec) (cr.V rec) t in
        do err <- getClient;
        match err with
        | Some err => ret (Some err)
        | None =>
            let keyString := encodeKey pk in
            do _ <- client_Set keyString (Vcr rec) ttl;
            ret None
        end
    end.

(** [Exists] returns a Boolean indicating whether a device has
    previously registered with the Simple Push server. *)
Definition Exists (uaid : list byte) : M bool :=
  do '(_, err) <- fetchAppIDArray uaid;
  ret (bool_decide (err = None)).

(** [Register] creates and stores a channel record for the given device
    ID and channel ID. If the channel [version] is > 0, the record will
    be marked as active. *)
Definition Register (uaid chid : list byte) (version : Z) : M (option error) :=
  if (length uaid =? 0)%nat then ret (Some (Sperror NoChannelError))
  else
    do '(chids, err) <- fetchAppIDArray uaid;
    match err with
    | Some err => ret (Some err)
    | None =>
        do err <- (if IndexOf chids chid <? 0
                   then storeAppIDArray uaid (chids ++ [chid])
                   else ret None);
        match err with
        | Some err => ret (Some err)
        | None =>
            do t <- time_Now_Unix;
            let rec := cr.mk REGISTERED 0 t in
            let rec := if negb (version =? 0)
                       then cr.mk LIVE (uint64 version) (cr.L rec)
                       else rec in
            let '(key, err) := toBinaryKey uaid chid in
            match err with
            | Some _ => ret (Some (Sperror InvalidPrimaryKeyError))
            | None =>
                do err <- storeRec key (Some rec);
                match err with
                | Some err => ret (Some err)
                | None => ret None
                end
            end
        end
    end.

(** [Update] updates the version for the given device ID and channel
    ID. *)
Definition Update (uaid chid : list byte) (version : Z) : M (option error) :=
  if (length uaid =? 0)%nat || (length chid =? 0)%nat
  then ret (Some (Sperror InvalidPrimaryKeyError))
  else
    let '(key, err) := toBinaryKey uaid chid in
    match err with
    | Some _ => ret (Some (Sperror InvalidPrimaryKeyError))
    | None =>
        do '(cRec, err) <- fetchRec key;
        let failed :=
          match err with
          | Some err => negb (isMissing sperrors_text err)
          | None => false
          end in
        if failed then ret err
        else
          let replacing :=
            match cRec with
            | Some cRec => negb (cr.S cRec =? DELETED)
            | None => false
            end in
          if replacing then
            do t <- time_Now_Unix;
            let newRecord := cr.mk LIVE (uint64 version) t in
            do err <- storeRec key (Some newRecord);
            match err with
            | Some err => ret (Some err)
            | None => ret None
            end
          else
            (* No record found or the record setting was DELETED *)
            do err <- Register uaid chid version;
            match err with
            | Some err => ret (Some err)
            | None => ret None
            end
    end.

(** The retry loop of [Unregister], [for x := 0; x < 3; x++], with
    [attempts] iterations left: a failed fetch goes on to the next
    iteration, a fetched record is marked and stored and ends the loop;
    the error of [storeRec] is dropped. *)
Fixpoint Unregister_retry (attempts : nat) (key : list byte) : M unit :=
  match attempts with
  | O => ret tt
  | Datatypes.S attempts' =>
      do '(channel, err) <- fetchRec key;
      match err with
      | Some _ => Unregister_retry attempts' key
      | None =>
          match channel with
          | None => panic
          | Some channel =>
              let channel := cr.mk DELETED (cr.V channel) (cr.L channel) in
              do _ <- storeRec key (Some channel);
              ret tt
          end
      end
  end.

(** [Unregister] marks the channel ID associated with the given device
    ID as inactive. *)
Definition Unregister (uaid chid : list byte) : M (option error) :=
  do '(chids, err) <- fetchAppIDArray uaid;
  match err with
  | Some err => ret (Some err)
  | None =>
      let pos := IndexOf chids chid in
      if pos <? 0 then ret (Some (Sperror InvalidChannelError))
      else
        let '(key, err) := toBinaryKey uaid chid in
        match err with
        | Some err => ret (Some err)
        | None =>
            match remove (slice_of chids) pos with
            | Panic => panic
            | Normal removed =>
                do err <- storeAppIDArray uaid (elems removed);
                match err with
                | Some err => ret (Some err)
                | None =>
                    do _ <- Unregister_retry 3 key;
                    ret None
                end
            end
        end
  end.

(** The second loop of [FetchAll], [for index, key := range keys]. *)
Fixpoint FetchAll_records (chids : ia) (sinceUnix : Z) (index : nat)
    (keys : list string) (updates : list storage_Update) (expired : ia)
  : M (list storage_Update * ia) :=
  match keys with
  | [] => ret (updates, expired)
  | key :: keys' =>
      do '(channel, err) <- client_Get_cr key;
      match err with
      | Some _ =>
          FetchAll_records chids sinceUnix (index + 1) keys' updates expired
      | None =>
          match chids !! index with
          | None => panic
          | Some chid =>
              let channelString := gohex.EncodeToString chid in
              if cr.L channel <? sinceUnix then
                FetchAll_records chids sinceUnix (index + 1) keys'
                  updates expired
              else if cr.S channel =? LIVE then
                do version <-
                  (if cr.V channel =? 0
                   then do t <- time_Now_Unix; ret (uint64 t)
                   else ret (cr.V channel));
                let update := Build_storage_Update channelString version in
                FetchAll_records chids sinceUnix (index + 1) keys'
                  (updates ++ [update]) expired
              else if cr.S channel =? DELETED then
                FetchAll_records chids sinceUnix (index + 1) keys'
                  updates (expired ++ [chid])
              else
                (* REGISTERED: not yet active; any other state: unknown *)
                FetchAll_records chids sinceUnix (index + 1) keys'
                  updates expired
          end
      end
  end.

(** [FetchAll] returns all channel updates and expired channels for a
    device ID since the specified cutoff time, given in unix seconds. *)
Definition FetchAll (uaid : list byte) (since : Z)
  : M (list storage_Update * ia * option error) :=
  do '(chids, err) <- fetchAppIDArray uaid;
  match err with
  | Some err => ret ([], [], Some err)
  | None =>
      let keys := map (fun chid => encodeKey (toBinaryKey uaid chid).1) chids in
      do err <- getClient;
      match err with
      | Some err => ret ([], [], Some err)
      | None =>
          let sinceUnix := since in
          do '(updates, expired) <-
            FetchAll_records chids sinceUnix 0 keys [] [];
          ret (updates, expired, None)
      end
  end.

End Store.

(** ** The store run loop *)

Module Pool.

(** A memcached connection, by the order in which it was opened. *)
Definition conn : Type := nat.

(** The variables of [run]: the list of idle clients, the capacity
    counter and the loop condition. *)
Record state : Type := State {
  clients : list conn;
  capacity : Z;
  ok : bool
}.

(** What a [select] of the run loop receives. An acquisition carries what
    [s.newClient()] returns if the loop comes to call it: a connection or,
    for [None], an error. *)
Inductive event : Type :=
| CloseSignal (ok : bool)
| NewClient (client : conn)
| Release (freeClient : conn)
| Acquisition (fresh : option conn).

(** What the loop does to the outside: close a connection, send one to
    the acquiring caller, close the reply channel of an acquisition, or
    call [s.fatal]. *)
Inductive effect : Type :=
| Close (client : conn)
| Send (client : conn)
| CloseReply
| Fatal.

Definition initial : state := State [] 0 true.

(** One iteration of the [select]. *)
Definition step (cfg : EmceeConfig) (st : state) (ev : event)
  : state * list effect :=
  match ev with
  | CloseSignal ok' => (State (clients st) (capacity st) ok', [])
  | NewClient client =>
      if capacity st >=? MaxConns cfg then (st, [Close client])
      else (State (clients st ++ [client]) (capacity st + 1) (ok st), [])
  | Release freeClient =>
      if capacity st >=? MaxConns cfg then
        (* Maximum pool size exceeded; close the connection. *)
        (st, [Close freeClient])
      else (State (clients st ++ [freeClient]) (capacity st) (ok st), [])
  | Acquisition fresh =>
      match clients st with
      | client :: rest =>
          (* Return the first available connection from the pool. *)
          (State rest (capacity st) (ok st), [Send client; CloseReply])
      | [] =>
          if capacity st <? MaxConns cfg then
            match fresh with
            | None => (st, [Fatal; CloseReply])
            | Some client =>
                (State (clients st) (capacity st + 1) (ok st),
                 [Send client; CloseReply])
            end
          else
            (* Pool saturated. *)
            (st, [CloseReply])
      end
  end.

(** [for ok := true; ok; { select ... }] over the events received, and
    the shutdown of the idle connections once the loop has ended. With
    the events used up and [ok] still true the loop is waiting. *)
Fixpoint loop (cfg : EmceeConfig) (st : state) (evs : list event)
  : state * list effect :=
  if ok st then
    match evs with
    | [] => (st, [])
    | ev :: evs' =>
        let '(st', out) := step cfg st ev in
        let '(st'', out') := loop cfg st' evs' in
        (st'', out ++ out')
    end
  else (st, map Close (clients st)).

Definition run (cfg : EmceeConfig) (evs : list event) : state * list effect :=
  loop cfg initial evs.

End Pool.

(** ** Reading the world *)

(** A world in which no acquisition and no client call is scripted to
    fail. *)
Definition untroubled (w : world) : Prop :=
  acquisitions w = [] /\ failures w = [].

(** The channel record memcached holds for [(uaid, chid)], if any. *)
Definition stored_record (w : world) (uaid chid : list byte) : option cr.t :=
  match items w !! encodeKey (toBinaryKey uaid chid).1 with
  | Some (Vcr rec) => Some rec
  | _ => None
  end.

(** The list of channel IDs memcached holds for [uaid]: the empty list
    when the key is absent, none when the item is of another type. *)
Definition stored_chids (w : world) (uaid : list byte) : option ia :=
  match items w !! encodeKey uaid with
  | Some (Via arr) => Some arr
  | None => Some []
  | Some _ => None
  end.

Definition is_Acquire (c : call) : bool :=
  match c with CallAcquire => true | _ => false end.

Definition is_GetCr (c : call) : bool :=
  match c with CallGetCr _ => true | _ => false end.

Definition is_Set (c : call) : bool :=
  match c with CallSet _ _ _ => true | _ => false end.

(** How many of the calls satisfy [p]. *)
Definition count (p : call -> bool) (l : list call) : nat :=
  length (List.filter p l).

(** ** What [FetchAll] reports, as a reading of the stored records *)

(** The update reported for a channel: its record is read, was touched at
    or after the cutoff and is LIVE; a version of 0 is replaced by the
    current time. *)
Definition reported_update (w : world) (uaid : list byte) (since : Z)
    (chid : list byte) : option storage_Update :=
  match stored_record w uaid chid with
  | Some rec =>
      if (since <=? cr.L rec) && (cr.S rec =? LIVE)
      then Some (Build_storage_Update
                   (gohex.EncodeToString chid)
                   (if cr.V rec =? 0 then uint64 (now w) else cr.V rec))
      else None
  | None => None
  end.

(** A channel is reported as expired: its record is read, was touched at
    or after the cutoff and is DELETED. *)
Definition reported_expired (w : world) (uaid : list byte) (since : Z)
    (chid : list byte) : option (list byte) :=
  match stored_record w uaid chid with
  | Some rec =>
      if (since <=? cr.L rec) && (cr.S rec =? DELETED) then Some chid else None
  | None => None
  end.

(** ** Sample inputs *)

(** The defaults of [ConfigStruct]. *)
Definition ConfigStruct : EmceeConfig := {|
  MinConns := 100;
  MaxConns := 400;
  ChannelTimeout := 3 * 24 * 3600 * 10 ^ 9;
  RegisterTimeout := 3 * 3600 * 10 ^ 9;
  UnregisterTimeout := 1 * 24 * 3600 * 10 ^ 9
|}.

Definition sample_store : EmceeStore := {| config := ConfigStruct |}.

(** Some message texts for the [sperrors] values. *)
Definition sample_text (e : sperror) : string :=
  match e with
  | NoChannelError => "No Channel ID Specified"
  | InvalidPrimaryKeyError => "Invalid Primary Key Value"
  | InvalidChannelError => "Invalid Channel ID Specified"
  | MissingDataError => "Missing required fields for command"
  | NoDataToStoreError => "No Data to Store"
  end.

(** A world with the given items at the given time in which nothing is
    scripted and no call has been made. *)
Definition quiet (its : gmap string value) (t : Z) : world :=
  World its t [] [] [].

Definition sample_uaid : list byte := [x0a; x01].
Definition sample_chid : list byte := [x0c; x02].

(** The device with one channel, registered without a version. *)
Definition registered_world : world :=
  (Register sample_text sample_store sample_uaid sample_chid 0 (quiet ∅ 1000)).2.

(** The device with one channel whose record was deleted at time 5. *)
Definition deleted_world : world :=
  quiet (<[encodeKey sample_uaid := Via [sample_chid]]>
           (<[encodeKey (toBinaryKey sample_uaid sample_chid).1 :=
                Vcr (cr.mk DELETED 7 5)]> ∅))
        1000.

(** The registered device at time 2000, with the pool handing out clients
    and the first two fetches of the record failing. *)
Definition retrying_world : world :=
  World (items registered_world) 2000 []
        [None; None; Some "SERVER ERROR"; Some "A TIMEOUT OCCURRED"]%string
        [].

(** The device after its channel was registered, updated to version 7 and
    unregistered, nothing having failed. *)
Definition unregistered_world : world :=
  (Unregister sample_text sample_store sample_uaid sample_chid
     (Update sample_text sample_store sample_uaid sample_chid 7
        registered_world).2).2.

(** The device after its channel was registered, updated to version 7 and
    unregistered with the three fetches of the record failing. *)
Definition unmarked_world : world :=
  (Unregister sample_text sample_store sample_uaid sample_chid
     (World
        (items (Update sample_text sample_store sample_uaid sample_chid 7
                  registered_world).2)
        1000 []
        [None; None; Some "SERVER ERROR"; Some "SERVER ERROR";
         Some "SERVER ERROR"]%string
        [])).2.

(** The device whose stored list names the same channel twice. *)
Definition repeated_world : world :=
  quiet (<[encodeKey sample_uaid := Via [sample_chid; sample_chid]]> ∅) 1000.

(** The registered device, with the pool saturated at the third
    acquisition and the third and fourth client calls failing. *)
Definition failing_world : world :=
  World (items registered_world) 2000
        [Client; Client; PoolSaturated; Client; Client]
        [None; None; Some "SERVER ERROR"; Some "A TIMEOUT OCCURRED"]%string
        [].

(** ** The rest of the adapter: dropping, hosts, pings and status *)

Definition ErrStatusFailed : error := StorageError "Invalid value returned".
Definition ErrUnknownUAID : error := StorageError "Unknown UAID for host".

(** The string fields of [EmceeConfig]: the default host name and the key
    prefixes of host names and of proprietary pings. *)
Record EmceeNames : Type := {
  Host : string;
  HostPrefix : string;
  PingPrefix : string
}.

(** The defaults of [ConfigStruct] for those fields. *)
Definition ConfigStruct_names : EmceeNames := {|
  Host := "localhost";
  HostPrefix := "_h-";
  PingPrefix := "_pc-"
|}.

(** [client.Delete(key, 0)]: a key that is not there is an error, a failed
    call leaves the items alone. The list of calls keeps the acquisitions,
    the reads of records and lists and the writes; deletions and the reads
    of strings below are not entered in it. *)
Definition client_Delete (key : string) : M (option error) :=
  fun w =>
    let '(f, w) := next_failure w in
    match f with
    | Some msg => (Normal (Some (McError msg)), w)
    | None =>
        match items w !! key with
        | Some _ =>
            (Normal None,
             World (delete key (items w)) (now w) (acquisitions w)
                   (failures w) (calls w))
        | None => (Normal (Some (McError "NOT FOUND")), w)
        end
    end.

(** [client.Get(key, &result)] into a string. *)
Definition client_Get_string (key : string) : M (string * option error) :=
  fun w =>
    let '(f, w) := next_failure w in
    match f with
    | Some msg => (Normal (EmptyString, Some (McError msg)), w)
    | None =>
        match items w !! key with
        | Some (Vstring str) => (Normal (str, None), w)
        | Some _ => (Normal (EmptyString, Some (McError gob_mismatch)), w)
        | None => (Normal (EmptyString, Some (McError "NOT FOUND")), w)
        end
    end.

Section Rest.

Variable sperrors_text : sperror -> string.
Variable s : EmceeStore.
Variable names : EmceeNames.

(** [Drop] removes a channel ID associated with the given device ID from
    memcached. *)
Definition Drop (uaid chid : list byte) : M (option error) :=
  do err <- getClient;
  match err with
  | Some err => ret (Some err)
  | None =>
      let '(key, err) := toBinaryKey uaid chid in
      match err with
      | Some err => ret (Some err)
      | None =>
          do err <- client_Delete (encodeKey key);
          match err with
          | None => ret None
          | Some err' =>
              if isMissing sperrors_text err' then ret None else ret (Some err')
          end
      end
  end.

(** The loop of [DropAll] over the channel IDs: the result of each
    [client.Delete] is dropped. *)
Fixpoint DropAll_records (uaid : list byte) (chids : ia) : M (option error) :=
  match chids with
  | [] => ret None
  | chid :: chids' =>
      let '(key, err) := toBinaryKey uaid chid in
      match err with
      | Some err => ret (Some err)
      | None =>
          do _ <- client_Delete (encodeKey key);
          DropAll_records uaid chids'
      end
  end.

(** [DropAll] removes all channel records for the given device ID. *)
Definition DropAll (uaid : list byte) : M (option error) :=
  do '(chids, err) <- fetchAppIDArray sperrors_text uaid;
  match err with
  | Some err => ret (Some err)
  | None =>
      do err <- getClient;
      match err with
      | Some err => ret (Some err)
      | None =>
          do err <- DropAll_records uaid chids;
          match err with
          | Some err => ret (Some err)
          | None =>
              do err <- client_Delete (encodeKey uaid);
              let failed :=
                match err with
                | Some err => negb (isMissing sperrors_text err)
                | None => false
                end in
              if failed then ret err
              else
                do err <- client_Delete
                            (HostPrefix names +:+ gohex.EncodeToString uaid);
                let failed :=
                  match err with
                  | Some err => negb (isMissing sperrors_text err)
                  | None => false
                  end in
                if failed then ret err else ret None
          end
      end
  end.

(** Stores host information in memcached. *)
Definition storeHost (uaid host : string) : M (option error) :=
  do err <- client_Set (HostPrefix names +:+ uaid) (Vstring host)
              (ChannelTimeout (config s));
  match err with
  | None => ret None
  | Some err' =>
      if isMissing sperrors_text err' then ret None else ret (Some err')
  end.

(** [FetchHost] returns the host name of the Simple Push server that
    currently maintains a connection to the device. *)
Definition FetchHost (uaid : list byte) : M (string * option error) :=
  let deviceString := gohex.EncodeToString uaid in
  do err <- getClient;
  match err with
  | Some err => ret (Host names, Some err)
  | None =>
      do '(host, err) <- client_Get_string (HostPrefix names +:+ deviceString);
      match err with
      | Some err =>
          if isMissing sperrors_text err
          then ret (Host names, Some ErrUnknownUAID)
          else ret (Host names, Some err)
      | None =>
          let host := if (String.length host =? 0)%nat then Host names else host in
          do _ <- storeHost deviceString host;
          ret (host, None)
      end
  end.

(** [PutHost] updates the host name associated with the device ID. *)
Definition PutHost (uaid : list byte) (host : string) : M (option error) :=
  let host := if (String.length host =? 0)%nat then Host names else host in
  do err <- getClient;
  match err with
  | Some err => ret (Some err)
  | None => storeHost (gohex.EncodeToString uaid) host
  end.

(** [DropHost] removes the host mapping for the given device ID from
    memcached. *)
Definition DropHost (uaid : list byte) : M (option error) :=
  do err <- getClient;
  match err with
  | Some err => ret (Some err)
  | None =>
      do err <- client_Delete (HostPrefix names +:+ gohex.EncodeToString uaid);
      match err with
      | None => ret None
      | Some err' =>
          if isMissing sperrors_text err' then ret None else ret (Some err')
      end
  end.

(** [FetchPing] retrieves proprietary ping information for the given
    device ID from memcached. *)
Definition FetchPing (uaid : list byte) : M (string * option error) :=
  do err <- getClient;
  match err with
  | Some err => ret (EmptyString, Some err)
  | None => client_Get_string (PingPrefix names +:+ gohex.EncodeToString uaid)
  end.

(** [PutPing] stores the proprietary ping info blob for the given device
    ID in memcached. *)
Definition PutPing (uaid : list byte) (connect : string) : M (option error) :=
  do err <- getClient;
  match err with
  | Some err => ret (Some err)
  | None =>
      client_Set (PingPrefix names +:+ gohex.EncodeToString uaid)
        (Vstring connect) 0
  end.

(** [DropPing] removes all proprietary ping info for the given device
    ID. *)
Definition DropPing (uaid : list byte) : M (option error) :=
  do err <- getClient;
  match err with
  | Some err => ret (Some err)
  | None => client_Delete (PingPrefix names +:+ gohex.EncodeToString uaid)
  end.

(** [Status] queries whether memcached is available for reading and
    writing. [fakeID] is the identifier [util.GenUUID4] draws. *)
Definition Status (fakeID : string) : M (bool * option error) :=
  let key := "status_" +:+ fakeID in
  do err <- getClient;
  match err with
  | Some err => ret (false, Some err)
  | None =>
      do err <- client_Set key (Vstring "test") (6 * 10 ^ 9);
      match err with
      | Some err => ret (false, Some err)
      | None =>
          do '(val, err) <- client_Get_string key;
          if bool_decide (err <> None) || negb (String.eqb val "test")
          then ret (false, Some ErrStatusFailed)
          else
            do _ <- client_Delete key;
            ret (true, None)
      end
  end.

End Rest.

(** ** Seeding and closing the pool *)

Module Lifecycle.

(** The fields of the store behind [s.closeLock]: the closing flag, the
    last error, and whether [s.closeSignal] has been closed. *)
Record closing : Type := Closing {
  isClosing : bool;
  lastErr : option error;
  closeSignal_closed : bool
}.

(** The store [NewEmcee] returns. *)
Definition fresh : closing := Closing false None false.

(** [signalClose] closes the pool and exits the run loop. Closing a
    channel that is closed already panics. *)
Definition signalClose (c : closing) : outcome (closing * option error) :=
  if isClosing c then Normal (c, None)
  else if closeSignal_closed c then Panic
  else Normal (Closing true (lastErr c) true, None).

(** [stop] closes the pool, reporting any errors to the caller; [ok]
    indicates whether the caller should wait for the pool to close. *)
Definition stop (c : closing) : outcome (closing * (option error * bool)) :=
  if isClosing c then Normal (c, (lastErr c, false))
  else
    match signalClose c with
    | Normal (c', err) => Normal (c', (err, true))
    | Panic => Panic
    end.

(** [fatal] closes the connection pool, storing the given error in the
    [lastErr] field. *)
Definition fatal (c : closing) (err : error) : outcome closing :=
  match signalClose c with
  | Normal (c', _) =>
      Normal (match lastErr c' with
              | None => Closing (isClosing c') (Some err) (closeSignal_closed c')
              | Some _ => c'
              end)
  | Panic => Panic
  end.

(** [Close] closes the connection pool: the error it returns and whether
    it waited on [s.closeWait] for the run loop to end. *)
Definition Close (c : closing) : outcome (closing * (option error * bool)) :=
  match stop c with
  | Normal (c', (err, ok)) =>
      if negb ok then Normal (c', (err, false))
      else Normal (c', (err, true))
  | Panic => Panic
  end.

(** [Init] seeds the pool with [MinConns] connections: the clients it
    sends on [s.clients], and the error it returns, after [s.fatal], when
    [s.newClient()] fails. [newClient] gives what the call with number
    [index] returns. *)
Fixpoint Init_from (count index : nat) (newClient : nat -> error + Pool.conn)
    (c : closing) : outcome (closing * list Pool.event * option error) :=
  match count with
  | O => Normal (c, [], None)
  | Datatypes.S count' =>
      match newClient index with
      | inl err =>
          match fatal c err with
          | Normal c' => Normal (c', [], Some err)
          | Panic => Panic
          end
      | inr client =>
          match Init_from count' (Datatypes.S index) newClient c with
          | Normal (c', evs, err) => Normal (c', Pool.NewClient client :: evs, err)
          | Panic => Panic
          end
      end
  end.

Definition Init (cfg : EmceeConfig) (newClient : nat -> error + Pool.conn)
    (c : closing) : outcome (closing * list Pool.event * option error) :=
  Init_from (Z.to_nat (MinConns cfg)) 0 newClient c.

(** A call of [Close] or of [fatal]. *)
Inductive op : Type :=
| OpClose
| OpFatal (err : error).

(** The calls one after another, as [s.closeLock] orders them, with what
    each [Close] returned. *)
Fixpoint calls_of (c : closing) (ops : list op)
  : outcome (closing * list (option error * bool)) :=
  match ops with
  | [] => Normal (c, [])
  | OpClose :: ops' =>
      match Close c with
      | Normal (c', r) =>
          match calls_of c' ops' with
          | Normal (c'', rs) => Normal (c'', r :: rs)
          | Panic => Panic
          end
      | Panic => Panic
      end
  | OpFatal err :: ops' =>
      match fatal c err with
      | Normal c' => calls_of c' ops'
      | Panic => Panic
      end
  end.

(** The error of the first [fatal] among the calls. *)
Fixpoint first_fatal (ops : list op) : option error :=
  match ops with
  | [] => None
  | OpClose :: ops' => first_fatal ops'
  | OpFatal err :: _ => Some err
  end.

End Lifecycle.

(** The [Send] effects of the run loop. *)
Definition is_Send (e : Pool.effect) : bool :=
  match e with Pool.Send _ => true | _ => false end.

(** ** The alphabet of the keys *)

(** The values of six bits. *)
Definition sextets : list N := N.of_nat <$> seq 0 64.

(** The characters [base64.StdEncoding] writes: its alphabet and the
    padding. *)
Definition base64_char (c : ascii) : Prop :=
  In c (list_ascii_of_string gobase64.encodeStd) \/ c = "="%char.

(* ===================================================================== *)
(** * Properties *)
(* ===================================================================== *)

(** ** Substring search *)

Lemma HasPrefix_spec (s p : string) :
  gostrings.HasPrefix s p = true <-> exists post, s = p +:+ post.
Proof.
  revert s; induction p as [|c p IH]; intros s; simpl.
  - split; [intros _; exists s; reflexivity | by destruct s].
  - destruct s as [|d s]; simpl.
    + split; [discriminate | intros [post H]; discriminate].
    + rewrite andb_true_iff, IH, Ascii.eqb_eq. split.
      * intros [-> [post ->]]. exists post; reflexivity.
      * intros [post H]. injection H as -> ->. split; eauto.
Qed.

Lemma Contains_unfold (s sub : string) :
  gostrings.Contains s sub =
  gostrings.HasPrefix s sub ||
  match s with
  | EmptyString => false
  | String _ s' => gostrings.Contains s' sub
  end.
Proof. destruct s; reflexivity. Qed.

Lemma Contains_spec (s sub : string) :
  gostrings.Contains s sub = true <-> exists pre post, s = pre +:+ sub +:+ post.
Proof.
  induction s as [|d s IH]; rewrite Contains_unfold.
  - rewrite orb_false_r, HasPrefix_spec. split.
    + intros [post H]. exists EmptyString, post. exact H.
    + intros [pre [post H]]. destruct pre; [eauto | discriminate].
  - rewrite orb_true_iff, IH, HasPrefix_spec. split.
    + intros [[post H] | [pre [post H]]].
      * exists EmptyString, post. exact H.
      * exists (String d pre), post. simpl. by rewrite H.
    + intros [pre [post H]]. destruct pre as [|e pre]; simpl in H.
      * left. eauto.
      * right. injection H as -> ->. eauto.
Qed.

Lemma string_length_app (a b : string) :
  String.length (a +:+ b) = (String.length a + String.length b)%nat.
Proof. induction a as [|c a IH]; simpl; [reflexivity | by rewrite IH]. Qed.

(** C10: [isMissing] holds exactly of the errors whose message occurs
    inside the literal "NOT FOUND"; so it holds of every error with an
    empty message, and of no error whose message is longer than the
    literal, whatever that message contains. *)
Theorem isMissing_needle_in_literal (txt : sperror -> string) (err : error) :
  (isMissing txt err = true <->
     exists pre post, "NOT FOUND"%string = pre +:+ Error txt err +:+ post)
  /\ (Error txt err = EmptyString -> isMissing txt err = true)
  /\ ((String.length "NOT FOUND" < String.length (Error txt err))%nat ->
      isMissing txt err = false).
Proof.
  unfold isMissing. split; [apply Contains_spec | split].
  - intros ->. reflexivity.
  - intros Hlen. apply not_true_is_false. intros H.
    apply Contains_spec in H as [pre [post H]].
    apply (f_equal String.length) in H.
    rewrite !string_length_app in H. lia.
Qed.

Lemma isMissing_needle_in_literal_witness :
  isMissing (fun _ => "sperror"%string) (McError "") = true
  /\ isMissing (fun _ => "sperror"%string) (McError "key NOT FOUND on server") = false.
Proof.
  split.
  - apply (isMissing_needle_in_literal _ (McError "")). reflexivity.
  - apply (isMissing_needle_in_literal _ (McError "key NOT FOUND on server")).
    simpl. lia.
Defined.

Lemma cut_first_dot (u c : string) :
  ~ In "."%char (list_ascii_of_string u) ->
  gostrings.cut (u +:+ "." +:+ c) "." = Some (u, c).
Proof.
  induction u as [|a u IH]; intros Hdot.
  - reflexivity.
  - simpl in Hdot.
    assert (Ha : Ascii.eqb "."%char a = false).
    { apply Ascii.eqb_neq. intros E. apply Hdot. by left. }
    change (String a u +:+ "." +:+ c) with (String a (u +:+ "." +:+ c)).
    cbn [gostrings.cut gostrings.HasPrefix].
    rewrite Ha, IH; [reflexivity | tauto].
Qed.

Lemma copy_length (dst : list byte) (off : nat) (src : list byte) :
  (off <= length dst)%nat -> length (copy dst off src) = length dst.
Proof.
  intros H. unfold copy. rewrite !length_app, !length_take, length_drop. lia.
Qed.

Lemma toBinaryKey_layout (u c : list byte) :
  (length u <= 16)%nat -> (length c <= 16)%nat ->
  toBinaryKey u c =
    (replicate (16 - length u) x00 ++ u ++ replicate (16 - length c) x00 ++ c, None).
Proof.
  intros Hu Hc. unfold toBinaryKey.
  replace (16 - Z.of_nat (length u) <? 0) with false by lia.
  replace (32 - Z.of_nat (length c) <? 16) with false by lia.
  replace (Z.to_nat (16 - Z.of_nat (length u))) with (16 - length u)%nat by lia.
  replace (Z.to_nat (32 - Z.of_nat (length c))) with (32 - length c)%nat by lia.
  f_equal.
  assert (H1 : copy (replicate 32 x00) (16 - length u) u
               = replicate (16 - length u) x00 ++ u ++ replicate 16 x00).
  { unfold copy. rewrite length_replicate, take_replicate, drop_replicate.
    replace (Nat.min (32 - (16 - length u)) (length u)) with (length u) by lia.
    rewrite firstn_all.
    replace ((16 - length u) `min` 32)%nat with (16 - length u)%nat by lia.
    replace (32 - (16 - length u + length u))%nat with 16%nat by lia.
    reflexivity. }
  rewrite H1. unfold copy.
  rewrite !length_app, !length_replicate.
  replace (Nat.min (16 - length u + (length u + 16) - (32 - length c)) (length c))
    with (length c) by lia.
  rewrite firstn_all.
  rewrite (drop_ge _ (32 - length c + length c)) by (rewrite !length_app, !length_replicate; lia).
  rewrite app_nil_r.
  rewrite !app_assoc. f_equal. rewrite <- !app_assoc.
  rewrite take_app_ge by (rewrite length_replicate; lia).
  rewrite length_replicate. f_equal.
  rewrite take_app_ge by lia. f_equal.
  rewrite take_replicate. f_equal. lia.
Qed.

(** C8 (as stated): a device ID that contains the separator does not
    survive the round trip. *)
Lemma KeyToIDs_IDsToKey_dotted_uaid :
  "a.b"%string <> EmptyString /\ "c"%string <> EmptyString
  /\ IDsToKey "a.b" "c" = ("a.b.c"%string, true)
  /\ KeyToIDs "a.b.c" = ("a"%string, "b.c"%string, true)
  /\ KeyToIDs (IDsToKey "a.b" "c").1 <> ("a.b"%string, "c"%string, true).
Proof. repeat apply conj; try discriminate; try reflexivity. Qed.

(** C8 (amended): for non-empty [u] and [c] where [u] contains no ".",
    [IDsToKey] succeeds and [KeyToIDs] of its key succeeds with [(u, c)]. *)
Theorem KeyToIDs_IDsToKey_roundtrip (u c : string) :
  u <> EmptyString -> c <> EmptyString ->
  ~ In "."%char (list_ascii_of_string u) ->
  exists key, IDsToKey u c = (key, true) /\ KeyToIDs key = (u, c, true).
Proof.
  intros Hu Hc Hdot. exists (u +:+ "." +:+ c). split.
  - unfold IDsToKey. destruct u; [done|]. destruct c; [done|]. reflexivity.
  - unfold KeyToIDs. cbn [gostrings.SplitN].
    rewrite cut_first_dot by assumption. reflexivity.
Qed.

Lemma KeyToIDs_IDsToKey_roundtrip_witness :
  exists key, IDsToKey "0a1b" "c.d" = (key, true)
              /\ KeyToIDs key = ("0a1b"%string, "c.d"%string, true).
Proof.
  apply (KeyToIDs_IDsToKey_roundtrip "0a1b" "c.d"); try discriminate.
  simpl. intros H. repeat (destruct H as [H|H]; [discriminate H|]). exact H.
Defined.

(** C7 (as stated): a device ID and the same ID with a zero byte in front
    are different inputs of at most 16 bytes with the same key. *)
Lemma toBinaryKey_leading_zero_collision :
  (length [x01] <= 16)%nat /\ (length [x00; x01] <= 16)%nat
  /\ (length [x02] <= 16)%nat
  /\ ([x01], [x02]) <> ([x00; x01], [x02])
  /\ toBinaryKey [x01] [x02] = toBinaryKey [x00; x01] [x02].
Proof. repeat apply conj; try (simpl; lia); [discriminate | reflexivity]. Qed.

(** C7 (amended): on pairs whose components are at most 16 bytes long and
    have the same lengths on both sides, [toBinaryKey] is injective. *)
Theorem toBinaryKey_injective_same_lengths (u1 c1 u2 c2 : list byte) :
  (length u1 <= 16)%nat -> (length c1 <= 16)%nat ->
  length u1 = length u2 -> length c1 = length c2 ->
  (u1, c1) <> (u2, c2) ->
  toBinaryKey u1 c1 <> toBinaryKey u2 c2.
Proof.
  intros Hu Hc Hlu Hlc Hne Heq. apply Hne.
  rewrite !toBinaryKey_layout in Heq by lia.
  injection Heq as Heq. rewrite <- Hlu, <- Hlc in Heq.
  apply app_inv_head in Heq.
  apply app_inj_1 in Heq as [-> Heq]; [|assumption].
  apply app_inv_head in Heq. by subst.
Qed.

Lemma toBinaryKey_injective_same_lengths_witness :
  toBinaryKey [x01] [x02] <> toBinaryKey [x03] [x02].
Proof.
  apply toBinaryKey_injective_same_lengths;
    [simpl; lia | simpl; lia | reflexivity | reflexivity | discriminate].
Defined.

(** ** Channel ID lists *)

Lemma IndexOf_from_absent (k : Z) (l : ia) (v : list byte) :
  v ∉ l -> IndexOf_from k l v = -1.
Proof.
  revert k; induction l as [|x l IH]; intros k Hv; simpl; [reflexivity|].
  apply not_elem_of_cons in Hv as [Hne Hv].
  unfold bytes_Equal. rewrite bool_decide_eq_false_2 by congruence.
  by apply IH.
Qed.

Lemma IndexOf_from_present (k : Z) (l : ia) (v : list byte) :
  v ∈ l ->
  exists j : nat, IndexOf_from k l v = k + Z.of_nat j
                  /\ l !! j = Some v /\ v ∉ take j l.
Proof.
  revert k; induction l as [|x l IH]; intros k Hv; [by apply elem_of_nil in Hv|].
  simpl. unfold bytes_Equal. destruct (decide (x = v)) as [->|Hne].
  - rewrite bool_decide_eq_true_2 by reflexivity.
    exists 0%nat. split; [lia|]. split; [reflexivity|]. simpl. apply not_elem_of_nil.
  - rewrite bool_decide_eq_false_2 by assumption.
    apply elem_of_cons in Hv as [Hv|Hv]; [congruence|].
    destruct (IH (k + 1) Hv) as [j [Hj [Hl Ht]]].
    exists (Datatypes.S j). split; [lia|]. split; [assumption|].
    simpl. apply not_elem_of_cons. split; [congruence | assumption].
Qed.

Lemma IndexOf_absent (l : ia) (v : list byte) : IndexOf l v < 0 <-> v ∉ l.
Proof.
  unfold IndexOf. split.
  - intros H Hin. destruct (IndexOf_from_present 0 l v Hin) as [j [Hj _]]. lia.
  - intros H. rewrite IndexOf_from_absent by assumption. lia.
Qed.

Lemma remove_in_range (r : slice) (pos : Z) :
  0 <= pos < Z.of_nat (len r) ->
  remove r pos =
    Normal (Slice (take (Z.to_nat pos) (array r)
                     ++ drop (Datatypes.S (Z.to_nat pos)) (take (len r) (array r))
                     ++ drop (len r - 1) (array r))
                  (len r - 1)).
Proof.
  intros H. unfold remove.
  replace (pos <? 0) with false by lia.
  replace (pos =? Z.of_nat (len r)) with false by lia.
  replace (Z.of_nat (len r) <? pos + 1) with false by lia.
  reflexivity.
Qed.

(** Once the slice has lost an element the range loop runs past its end. *)
Lemma pare_shrunk (n i : nat) (r : slice) :
  (0 < n)%nat -> (len r < i + n)%nat -> pare n i r = Panic.
Proof.
  revert i r; induction n as [|n IH]; intros i r Hn Hlen; [lia|].
  simpl. destruct (array r !! i) as [chid|]; [|reflexivity].
  destruct (Nat.ltb_spec (len r) (i + 1)) as [|Hi]; [reflexivity|].
  assert (Hn' : (0 < n)%nat) by lia.
  destruct (IndexOf _ chid >? -1).
  - destruct (remove r _) as [r'|] eqn:Hrm; [|reflexivity].
    apply IH; [assumption|].
    unfold remove in Hrm. repeat case_match; simplify_eq; simpl; lia.
  - apply IH; [assumption | lia].
Qed.

(** The loop over a freshly decoded list: it returns the list as it is
    when no channel ID repeats from [i] on, and panics otherwise. *)
Lemma pare_from (l : ia) (n i : nat) :
  (i + n)%nat = length l ->
  pare n i (slice_of l) =
    if bool_decide (NoDup (drop i l)) then Normal (slice_of l) else Panic.
Proof.
  unfold slice_of. revert i; induction n as [|n IH]; intros i Hlen.
  - simpl. rewrite drop_ge by lia. rewrite bool_decide_eq_true_2; [done | constructor].
  - simpl. destruct (lookup_lt_is_Some_2 l i) as [chid Hchid]; [lia|].
    rewrite Hchid.
    destruct (Nat.ltb_spec (length l) (i + 1)) as [|_]; [lia|].
    unfold elems; simpl. rewrite firstn_all.
    rewrite (drop_S l chid i Hchid).
    replace (Datatypes.S i) with (i + 1)%nat by lia.
    destruct (decide (chid ∈ drop (i + 1) l)) as [Hin|Hnin].
    + rewrite bool_decide_eq_false_2
        by (rewrite NoDup_cons; tauto).
      destruct (IndexOf_from_present 0 _ _ Hin) as [j [Hj [Hlk _]]].
      unfold IndexOf. rewrite Hj.
      replace (0 + Z.of_nat j >? -1) with true by lia.
      apply lookup_lt_Some in Hlk. rewrite length_drop in Hlk.
      rewrite remove_in_range by (simpl; lia).
      apply pare_shrunk; simpl; lia.
    + unfold IndexOf. rewrite IndexOf_from_absent by assumption.
      replace (-1 >? -1) with false by lia.
      rewrite IH by lia.
      destruct (decide (NoDup (drop (i + 1) l))).
      * rewrite !bool_decide_eq_true_2; [done | by constructor | done].
      * rewrite !bool_decide_eq_false_2; [done | | done].
        rewrite NoDup_cons. tauto.
Qed.

Lemma pare_result (l : ia) :
  pare (length l) 0 (slice_of l) =
    if bool_decide (NoDup l) then Normal (slice_of l) else Panic.
Proof. by rewrite pare_from. Qed.

(** ** The adapter in an untroubled world *)

Lemma toBinaryKey_length (uaid chid : list byte) :
  length (toBinaryKey uaid chid).1 = 32%nat.
Proof.
  unfold toBinaryKey. cbn [fst].
  rewrite !copy_length; rewrite ?copy_length; rewrite ?length_replicate; try lia;
    repeat case_match; lia.
Qed.

Lemma toBinaryKey_pair (uaid chid : list byte) :
  toBinaryKey uaid chid = ((toBinaryKey uaid chid).1, None).
Proof. reflexivity. Qed.

Lemma length_zero_iff {A} (l : list A) : (length l =? 0)%nat = bool_decide (l = []).
Proof. destruct l; reflexivity. Qed.

(** Returning the error of a call as it is, the way the operations end. *)
Lemma bind_return_error (m : M (option error)) (w : world) :
  (do err <- m;
   match err with
   | Some err => ret (Some err)
   | None => ret None
   end) w = m w.
Proof.
  unfold bind. destruct (m w) as [[[e|]|] w']; reflexivity.
Qed.

Section UntroubledStore.

Variable txt : sperror -> string.
Variable s : EmceeStore.

Lemma getClient_untroubled (w : world) :
  untroubled w -> getClient w = (Normal None, record CallAcquire w).
Proof. intros [Ha Hf]. unfold getClient. simpl. by rewrite Ha. Qed.

Lemma fetchRec_untroubled (pk : list byte) (w : world) :
  pk <> [] -> untroubled w ->
  fetchRec txt pk w =
    (Normal match items w !! encodeKey pk with
            | Some (Vcr rec) => (Some rec, None)
            | None => (Some cr.zero, None)
            | Some _ => (None, Some (McError gob_mismatch))
            end,
     record (CallGetCr (encodeKey pk)) (record CallAcquire w)).
Proof.
  intros Hpk Hw. unfold fetchRec.
  rewrite length_zero_iff, bool_decide_eq_false_2 by assumption.
  unfold bind. rewrite getClient_untroubled by assumption.
  destruct w as [it t acq fl cs]. destruct Hw as [Ha Hf]. simpl in *. subst.
  unfold client_Get_cr, next_failure. simpl.
  destruct (it !! encodeKey pk) as [[rec|arr|str]|]; reflexivity.
Qed.

Lemma fetchAppIDArray_untroubled (uaid : list byte) (w : world) :
  uaid <> [] -> untroubled w ->
  let read := record (CallGetIa (encodeKey uaid)) (record CallAcquire w) in
  fetchAppIDArray txt uaid w =
    match items w !! encodeKey uaid with
    | Some (Via arr) =>
        if bool_decide (NoDup arr) then (Normal (arr, None), read)
        else (Panic, read)
    | None => (Normal ([], None), read)
    | Some _ => (Normal ([], Some (McError gob_mismatch)), read)
    end.
Proof.
  intros Hu Hw read. unfold fetchAppIDArray.
  rewrite length_zero_iff, bool_decide_eq_false_2 by assumption.
  unfold bind. rewrite getClient_untroubled by assumption.
  destruct w as [it t acq fl cs]. destruct Hw as [Ha Hf]. simpl in *. subst.
  unfold client_Get_ia, next_failure. simpl.
  destruct (it !! encodeKey uaid) as [[rec|arr|str]|]; try reflexivity.
  rewrite pare_result. destruct (bool_decide (NoDup arr)); [|reflexivity].
  unfold elems, slice_of; simpl. by rewrite firstn_all.
Qed.

Lemma storeRec_untroubled (pk : list byte) (rec : cr.t) (w : world) :
  pk <> [] -> untroubled w ->
  exists w',
    storeRec s pk (Some rec) w = (Normal None, w')
    /\ items w' =
         <[encodeKey pk := Vcr (cr.mk (cr.S rec) (cr.V rec) (now w))]> (items w)
    /\ now w' = now w /\ untroubled w'.
Proof.
  intros Hpk Hw. unfold storeRec.
  rewrite length_zero_iff, bool_decide_eq_false_2 by assumption.
  destruct w as [it t acq fl cs]. destruct Hw as [Ha Hf]. simpl in *. subst.
  eexists. split; [reflexivity|]. simpl. repeat split.
Qed.

Lemma Update_untroubled (uaid chid : list byte) (version : Z) (w : world) :
  uaid <> [] -> chid <> [] -> untroubled w ->
  let pk := (toBinaryKey uaid chid).1 in
  let loaded := record (CallGetCr (encodeKey pk)) (record CallAcquire w) in
  Update txt s uaid chid version w =
    match items w !! encodeKey pk with
    | Some (Vcr rec) =>
        if cr.S rec =? DELETED
        then Register txt s uaid chid version loaded
        else storeRec s pk (Some (cr.mk LIVE (uint64 version) (now w))) loaded
    | None => Register txt s uaid chid version loaded
    | Some _ => (Normal (Some (McError gob_mismatch)), loaded)
    end.
Proof.
  intros Hu Hc Hw pk loaded.
  assert (Hpk : pk <> []).
  { intros E. pose proof (toBinaryKey_length uaid chid) as H.
    fold pk in H. by rewrite E in H. }
  unfold Update.
  rewrite !length_zero_iff, !bool_decide_eq_false_2 by assumption.
  rewrite toBinaryKey_pair. fold pk. cbn [orb].
  unfold bind at 1. rewrite fetchRec_untroubled by assumption. fold loaded.
  destruct (items w !! encodeKey pk) as [[rec|arr|str]|]; try reflexivity.
  - cbn beta iota. destruct (cr.S rec =? DELETED); cbn [negb].
    + apply bind_return_error.
    + unfold bind at 1. unfold time_Now_Unix.
      change (now loaded) with (now w).
      apply (bind_return_error (storeRec s pk _)).
  - cbn beta iota. apply bind_return_error.
Qed.

(** C1: for non-empty IDs, in a world where no call is scripted to fail,
    [Update] loads the record stored under the key of [(uaid, chid)];
    when there is none, or it is DELETED, it goes on exactly as
    [Register] does from there; otherwise it returns nil having replaced
    the record by LIVE, [uint64(version)] and the current time. *)
Theorem Update_registers_or_overwrites
    (uaid chid : list byte) (version : Z) (w : world) :
  uaid <> [] -> chid <> [] -> untroubled w ->
  let pk := (toBinaryKey uaid chid).1 in
  let loaded := record (CallGetCr (encodeKey pk)) (record CallAcquire w) in
  (fetchRec txt pk w).2 = loaded /\
  match stored_record w uaid chid with
  | Some rec =>
      if cr.S rec =? DELETED then
        Update txt s uaid chid version w
        = Register txt s uaid chid version loaded
      else
        exists w',
          Update txt s uaid chid version w = (Normal None, w')
          /\ stored_record w' uaid chid
               = Some (cr.mk LIVE (uint64 version) (now w))
  | None =>
      items w !! encodeKey pk = None ->
      Update txt s uaid chid version w = Register txt s uaid chid version loaded
  end.
Proof.
  intros Hu Hc Hw pk loaded.
  assert (Hpk : pk <> []).
  { intros E. pose proof (toBinaryKey_length uaid chid) as H.
    fold pk in H. by rewrite E in H. }
  split; [by rewrite fetchRec_untroubled|].
  rewrite Update_untroubled by assumption. fold pk loaded.
  unfold stored_record. fold pk.
  destruct (items w !! encodeKey pk) as [[rec|arr|str]|]; try discriminate.
  - destruct (cr.S rec =? DELETED); [reflexivity|].
    destruct (storeRec_untroubled pk (cr.mk LIVE (uint64 version) (now w)) loaded)
      as [w' [Hst [Hit _]]]; [assumption | exact Hw |].
    exists w'. split; [exact Hst|].
    rewrite Hit. by rewrite lookup_insert_eq.
  - reflexivity.
Qed.

(** C2 (the code at the failing input): with no list of channel IDs
    stored for the device, the missing-key error of the lookup is turned
    into a nil error and [Exists] answers true. *)
Theorem Exists_true_without_device_set (uaid : list byte) (w : world) :
  untroubled w -> items w !! encodeKey uaid = None ->
  (client_Get_ia (encodeKey uaid) (record CallAcquire w)).1
    = Normal ([], Some (McError "NOT FOUND"))
  /\ (Exists txt uaid w).1 = Normal true.
Proof.
  intros Hw Hnone. split.
  - destruct w as [it t acq fl cs]. destruct Hw as [Ha Hf]. simpl in *. subst.
    unfold client_Get_ia, next_failure. simpl. by rewrite Hnone.
  - unfold Exists, bind. destruct (decide (uaid = [])) as [->|Hu].
    + reflexivity.
    + rewrite fetchAppIDArray_untroubled by assumption. by rewrite Hnone.
Qed.

Lemma client_Get_cr_untroubled (key : string) (w : world) :
  untroubled w ->
  client_Get_cr key w =
    (Normal match items w !! key with
            | Some (Vcr rec) => (rec, None)
            | None => (cr.zero, Some (McError "NOT FOUND"))
            | Some _ => (cr.zero, Some (McError gob_mismatch))
            end,
     record (CallGetCr key) w).
Proof.
  intros Hw. destruct w as [it t acq fl cs]. destruct Hw as [Ha Hf].
  simpl in *. subst. unfold client_Get_cr, next_failure. simpl.
  destruct (it !! key) as [[rec|arr|str]|]; reflexivity.
Qed.

Lemma FetchAll_records_untroubled
    (uaid : list byte) (since : Z) (chids rest : ia) (index : nat)
    (updates : list storage_Update) (expired : ia) (w : world) :
  untroubled w -> drop index chids = rest ->
  exists w',
    FetchAll_records chids since index
      (map (fun chid => encodeKey (toBinaryKey uaid chid).1) rest)
      updates expired w
    = (Normal (updates ++ omap (reported_update w uaid since) rest,
               expired ++ omap (reported_expired w uaid since) rest), w')
    /\ items w' = items w /\ now w' = now w.
Proof.
  revert index updates expired w.
  induction rest as [|chid rest IH]; intros index updates expired w Hw Hdrop.
  - exists w. simpl. by rewrite !app_nil_r.
  - assert (Hchid : chids !! index = Some chid).
    { pose proof (lookup_drop chids index 0) as H.
      rewrite Hdrop, Nat.add_0_r in H. by rewrite <- H. }
    assert (Hrest : drop (index + 1) chids = rest).
    { rewrite <- drop_drop, Hdrop. reflexivity. }
    cbn [map FetchAll_records]. unfold bind at 1.
    rewrite client_Get_cr_untroubled by assumption.
    set (w1 := record _ w).
    assert (Hw1 : untroubled w1) by exact Hw.
    cbn [omap list_omap].
    remember (reported_update w uaid since chid) as up eqn:Hup.
    remember (reported_expired w uaid since chid) as ex eqn:Hex.
    unfold reported_update, reported_expired, stored_record in Hup, Hex.
    destruct (items w !! encodeKey (toBinaryKey uaid chid).1)
      as [[rec|arr|str]|]; cbn beta iota; subst up ex;
      try (destruct (IH (index + 1)%nat updates expired w1 Hw1 Hrest)
             as [w' [Hrun [Hi Hn]]]; exists w'; split; [exact Hrun | done]).
    rewrite Hchid.
    destruct (Z.ltb_spec (cr.L rec) since) as [Hold|Hnew].
    + replace (since <=? cr.L rec) with false by lia. cbn [andb].
      destruct (IH (index + 1)%nat updates expired w1 Hw1 Hrest)
        as [w' [Hrun [Hi Hn]]]; exists w'; split; [exact Hrun | done].
    + replace (since <=? cr.L rec) with true by lia. cbn [andb].
      destruct (cr.S rec =? LIVE) eqn:Hlive.
      * replace (cr.S rec =? DELETED) with false
          by (apply Z.eqb_eq in Hlive; rewrite Hlive; reflexivity).
        set (u := Build_storage_Update _ _).
        destruct (IH (index + 1)%nat (updates ++ [u]) expired w1 Hw1 Hrest)
          as [w' [Hrun [Hi Hn]]]. exists w'. split; [|done].
        rewrite <- app_assoc in Hrun. cbn [app] in Hrun.
        etransitivity; [|exact Hrun]. subst u.
        destruct (cr.V rec =? 0); reflexivity.
      * destruct (cr.S rec =? DELETED).
        -- destruct (IH (index + 1)%nat updates (expired ++ [chid]) w1 Hw1 Hrest)
             as [w' [Hrun [Hi Hn]]]. exists w'. split; [|done].
           rewrite <- app_assoc in Hrun. exact Hrun.
        -- destruct (IH (index + 1)%nat updates expired w1 Hw1 Hrest)
             as [w' [Hrun [Hi Hn]]]; exists w'; split; [exact Hrun | done].
Qed.

(** C4 (amended): with no call scripted to fail, [FetchAll] reports
    records of the channel IDs on the stored list of the device and of no
    others. For the empty device ID, which has no list, it returns nothing.
    For a list [chids] without repetition it returns as updates the
    channels of [chids] whose record is LIVE and was touched at or after
    [since], a version of 0 being replaced by the current time, and as
    expired the channels of [chids] whose record is DELETED and was touched
    at or after [since]. A list with a repeated channel ID makes it panic,
    and an item under the key of the list that is no list makes it return
    an error. *)
Theorem FetchAll_reports_listed_records_since
    (uaid : list byte) (since : Z) (w : world) :
  untroubled w ->
  (uaid = [] -> (FetchAll txt uaid since w).1 = Normal ([], [], None))
  /\ (uaid <> [] ->
      (stored_chids w uaid = None ->
       exists e, (FetchAll txt uaid since w).1 = Normal ([], [], Some e))
      /\ forall chids,
          stored_chids w uaid = Some chids ->
          (~ NoDup chids -> (FetchAll txt uaid since w).1 = Panic)
          /\ (NoDup chids ->
              let updates := omap (reported_update w uaid since) chids in
              let expired := omap (reported_expired w uaid since) chids in
              (FetchAll txt uaid since w).1 = Normal (updates, expired, None)
              /\ (forall u, u ∈ updates <->
                    exists chid rec,
                      chid ∈ chids /\ stored_record w uaid chid = Some rec
                      /\ cr.S rec = LIVE /\ since <= cr.L rec
                      /\ u = Build_storage_Update (gohex.EncodeToString chid)
                               (if cr.V rec =? 0 then uint64 (now w)
                                else cr.V rec))
              /\ (forall c, c ∈ expired <->
                    c ∈ chids /\
                    exists rec, stored_record w uaid c = Some rec
                                /\ cr.S rec = DELETED /\ since <= cr.L rec))).
Proof.
  intros Hw. split.
  { intros ->. unfold FetchAll. unfold bind at 1.
    change (fetchAppIDArray txt [] w) with (Normal (@nil (list byte), @None error), w).
    cbn beta iota. unfold bind at 1. rewrite getClient_untroubled by exact Hw.
    reflexivity. }
  intros Hu. split.
  { intros Hnone. exists (McError gob_mismatch).
    unfold FetchAll. unfold bind at 1.
    rewrite fetchAppIDArray_untroubled by assumption.
    unfold stored_chids in Hnone.
    destruct (items w !! encodeKey uaid) as [[rec|arr|str]|]; simplify_eq;
      reflexivity. }
  intros chids Hchids. split.
  { intros Hnd. unfold FetchAll. unfold bind at 1.
    rewrite fetchAppIDArray_untroubled by assumption.
    unfold stored_chids in Hchids.
    destruct (items w !! encodeKey uaid) as [[rec|arr|str]|]; simplify_eq.
    - by rewrite bool_decide_eq_false_2.
    - destruct Hnd. apply NoDup_nil_2. }
  intros Hnd updates expired. split; [|split].
  - unfold FetchAll. unfold bind at 1.
    rewrite fetchAppIDArray_untroubled by assumption.
    set (w1 := record _ (record _ w)).
    assert (Hfetch :
      match items w !! encodeKey uaid with
      | Some (Via arr) =>
          if bool_decide (NoDup arr) then (Normal (arr, @None error), w1)
          else (Panic, w1)
      | None => (Normal ([], None), w1)
      | Some _ => (Normal ([], Some (McError gob_mismatch)), w1)
      end = (Normal (chids, None), w1)).
    { unfold stored_chids in Hchids.
      destruct (items w !! encodeKey uaid) as [[rec|arr|str]|]; simplify_eq.
      - by rewrite bool_decide_eq_true_2.
      - reflexivity. }
    rewrite Hfetch. cbn beta iota.
    unfold bind at 1. rewrite getClient_untroubled by exact Hw.
    set (w2 := record CallAcquire w1).
    destruct (FetchAll_records_untroubled uaid since chids chids 0 [] [] w2)
      as [w' [Hrun _]]; [exact Hw | reflexivity |].
    unfold bind. rewrite Hrun. reflexivity.
  - intros u. unfold updates. rewrite list_elem_of_omap. split.
    + intros [chid [Hin Hup]]. unfold reported_update in Hup.
      destruct (stored_record w uaid chid) as [rec|] eqn:Hrec; [|discriminate].
      destruct (Z.leb_spec since (cr.L rec)); [|discriminate].
      destruct (Z.eqb_spec (cr.S rec) LIVE); [|discriminate].
      simplify_eq/=. eauto 10.
    + intros (chid & rec & Hin & Hrec & Hlive & Hsince & ->).
      exists chid. split; [assumption|]. unfold reported_update.
      rewrite Hrec, Hlive.
      replace (since <=? cr.L rec) with true by lia. reflexivity.
  - intros c. unfold expired. rewrite list_elem_of_omap. split.
    + intros [chid [Hin Hex]]. unfold reported_expired in Hex.
      destruct (stored_record w uaid chid) as [rec|] eqn:Hrec; [|discriminate].
      destruct (Z.leb_spec since (cr.L rec)); [|discriminate].
      destruct (Z.eqb_spec (cr.S rec) DELETED); [|discriminate].
      simplify_eq/=. eauto 10.
    + intros (Hin & rec & Hrec & Hdel & Hsince).
      exists c. split; [assumption|]. unfold reported_expired.
      rewrite Hrec, Hdel.
      replace (since <=? cr.L rec) with true by lia. reflexivity.
Qed.

(** C3 (the code at the failing input): on a record that is stored and
    not DELETED, [Update] with version 0 returns nil and leaves the record
    LIVE with version 0. *)
Theorem Update_zero_version_goes_live
    (uaid chid : list byte) (rec : cr.t) (w : world) :
  uaid <> [] -> chid <> [] -> untroubled w ->
  stored_record w uaid chid = Some rec -> cr.S rec <> DELETED ->
  exists w',
    Update txt s uaid chid 0 w = (Normal None, w')
    /\ stored_record w' uaid chid = Some (cr.mk LIVE 0 (now w)).
Proof.
  intros Hu Hc Hw Hrec Hlive.
  assert (Hpk : (toBinaryKey uaid chid).1 <> []).
  { intros E. pose proof (toBinaryKey_length uaid chid) as H. by rewrite E in H. }
  rewrite Update_untroubled by assumption.
  unfold stored_record in Hrec.
  destruct (items w !! encodeKey (toBinaryKey uaid chid).1)
    as [[rec'|arr|str]|]; simplify_eq.
  destruct (Z.eqb_spec (cr.S rec) DELETED) as [|_]; [contradiction|].
  set (loaded := record _ (record _ w)).
  destruct (storeRec_untroubled (toBinaryKey uaid chid).1
              (cr.mk LIVE (uint64 0) (now w)) loaded)
    as (w' & Hst & Hit & _); [assumption | exact Hw |].
  exists w'. split; [exact Hst|].
  unfold stored_record. rewrite Hit. by rewrite lookup_insert_eq.
Qed.

(** C5 (the code at the failing input): when the list stored for the
    device names a channel ID more than once, the loop that pares out
    duplicates panics and [fetchAppIDArray] returns nothing. *)
Theorem fetchAppIDArray_panics_on_repeated_chid
    (uaid : list byte) (arr : ia) (w : world) :
  uaid <> [] -> untroubled w ->
  items w !! encodeKey uaid = Some (Via arr) -> ~ NoDup arr ->
  (fetchAppIDArray txt uaid w).1 = Panic.
Proof.
  intros Hu Hw Harr Hdup.
  rewrite fetchAppIDArray_untroubled by assumption.
  rewrite Harr. by rewrite bool_decide_eq_false_2.
Qed.

(** A stored list without repetition is returned as it is. *)
Lemma fetchAppIDArray_returns_distinct_chids
    (uaid : list byte) (arr : ia) (w : world) :
  uaid <> [] -> untroubled w ->
  items w !! encodeKey uaid = Some (Via arr) -> NoDup arr ->
  (fetchAppIDArray txt uaid w).1 = Normal (arr, None).
Proof.
  intros Hu Hw Harr Hnd.
  rewrite fetchAppIDArray_untroubled by assumption.
  rewrite Harr. by rewrite bool_decide_eq_true_2.
Qed.

Lemma storeAppIDArray_untroubled (uaid : list byte) (arr : ia) (w : world) :
  uaid <> [] -> untroubled w ->
  exists w',
    storeAppIDArray uaid arr w = (Normal None, w')
    /\ items w' = <[encodeKey uaid := Via (sort_Sort arr)]> (items w)
    /\ now w' = now w /\ untroubled w'.
Proof.
  intros Hu Hw. unfold storeAppIDArray.
  rewrite length_zero_iff, bool_decide_eq_false_2 by assumption.
  destruct w as [it t acq fl cs]. destruct Hw as [Ha Hf]. simpl in *. subst.
  eexists. split; [reflexivity|]. simpl. repeat split.
Qed.

(** What [Register] leaves under the key of [(uaid, chid)] when it returns
    nil: a REGISTERED record for version 0, a LIVE record with the version
    otherwise. *)
Lemma Register_untroubled_record
    (uaid chid : list byte) (version : Z) (w w' : world) :
  uaid <> [] -> untroubled w ->
  Register txt s uaid chid version w = (Normal None, w') ->
  stored_record w' uaid chid
  = Some (if version =? 0 then cr.mk REGISTERED 0 (now w)
          else cr.mk LIVE (uint64 version) (now w)).
Proof.
  intros Hu Hw. unfold Register.
  rewrite length_zero_iff, bool_decide_eq_false_2 by assumption.
  unfold bind at 1. rewrite fetchAppIDArray_untroubled by assumption.
  set (w1 := record _ (record _ w)).
  assert (Hw1 : untroubled w1) by exact Hw.
  assert (Hpk : (toBinaryKey uaid chid).1 <> []).
  { intros E. pose proof (toBinaryKey_length uaid chid) as H. by rewrite E in H. }
  assert (Hrest : forall chids w2,
    untroubled w2 -> now w2 = now w ->
    (do err <- (if IndexOf chids chid <? 0
                then storeAppIDArray uaid (chids ++ [chid])
                else ret None);
     match err with
     | Some err => ret (Some err)
     | None =>
         do t <- time_Now_Unix;
         let rec := cr.mk REGISTERED 0 t in
         let rec := if negb (version =? 0)
                    then cr.mk LIVE (uint64 version) (cr.L rec)
                    else rec in
         let '(key, err) := toBinaryKey uaid chid in
         match err with
         | Some _ => ret (Some (Sperror InvalidPrimaryKeyError))
         | None =>
             do err <- storeRec s key (Some rec);
             match err with
             | Some err => ret (Some err)
             | None => ret None
             end
         end
     end) w2 = (Normal None, w') ->
    stored_record w' uaid chid
    = Some (if version =? 0 then cr.mk REGISTERED 0 (now w)
            else cr.mk LIVE (uint64 version) (now w))).
  { intros chids w2 Hw2 Hn2. unfold bind at 1.
    assert (Hstep : exists w3,
      (if IndexOf chids chid <? 0
       then storeAppIDArray uaid (chids ++ [chid])
       else ret None) w2 = (Normal None, w3)
      /\ now w3 = now w /\ untroubled w3).
    { destruct (IndexOf chids chid <? 0).
      - destruct (storeAppIDArray_untroubled uaid (chids ++ [chid]) w2)
          as (w3 & -> & _ & Hn3 & Hw3); [assumption | assumption |].
        exists w3. split_and!; [reflexivity | congruence | assumption].
      - by exists w2. }
    destruct Hstep as (w3 & -> & Hn3 & Hw3). cbn beta iota.
    unfold bind at 1, time_Now_Unix. rewrite toBinaryKey_pair.
    rewrite bind_return_error.
    set (rec := if negb (version =? 0) then _ else _).
    destruct (storeRec_untroubled (toBinaryKey uaid chid).1 rec w3)
      as (w4 & -> & Hit & _); [assumption | assumption |].
    intros [= <-]. unfold stored_record. rewrite Hit, lookup_insert_eq.
    subst rec. rewrite Hn3. by destruct (version =? 0). }
  destruct (items w !! encodeKey uaid) as [[rec|arr|str]|]; try discriminate.
  - destruct (bool_decide (NoDup arr)); [|discriminate].
    by apply Hrest.
  - by apply Hrest.
Qed.

(** The half of C3 that holds: a record that [Register] leaves LIVE has a
    version above 0, for every version of the signed 64-bit range. *)
Lemma Register_live_version_positive
    (uaid chid : list byte) (version : Z) (w w' : world) (rec : cr.t) :
  uaid <> [] -> untroubled w -> - 2 ^ 63 <= version < 2 ^ 63 ->
  Register txt s uaid chid version w = (Normal None, w') ->
  stored_record w' uaid chid = Some rec ->
  cr.S rec = LIVE -> 0 < cr.V rec.
Proof.
  intros Hu Hw Hrange Hreg Hrec Hlive.
  rewrite (Register_untroubled_record uaid chid version w w') in Hrec
    by assumption.
  destruct (Z.eqb_spec version 0) as [->|Hne]; injection Hrec as <-;
    simpl in *; [discriminate|].
  unfold uint64.
  destruct (Z.lt_ge_cases version 0).
  - rewrite <- (Z.mod_add version 1 (2 ^ 64)) by lia.
    rewrite Z.mod_small by lia. lia.
  - rewrite Z.mod_small by lia. lia.
Qed.

End UntroubledStore.

(** ** Keys of lists and keys of records *)

Lemma base64_length (l : list byte) :
  String.length (gobase64.EncodeToString l) = (4 * ((length l + 2) / 3))%nat.
Proof.
  remember (length l) as n eqn:Hn. revert l Hn.
  induction n as [n IH] using lt_wf_ind. intros l ->.
  destruct l as [|a [|b [|c rest]]]; try reflexivity.
  cbn [gobase64.EncodeToString String.length length].
  rewrite (IH (length rest)) by (simpl; lia || reflexivity).
  replace (Datatypes.S (Datatypes.S (Datatypes.S (length rest))) + 2)%nat
    with (length rest + 2 + 1 * 3)%nat by lia.
  rewrite Nat.div_add by lia. lia.
Qed.

(** For device IDs of at most 16 bytes the key of the list of channel IDs
    is never the key of a channel record. *)
Lemma record_key_is_not_list_key (uaid chid : list byte) :
  (length uaid <= 16)%nat ->
  encodeKey (toBinaryKey uaid chid).1 <> encodeKey uaid.
Proof.
  intros Hlen E. apply (f_equal String.length) in E.
  unfold encodeKey in E. rewrite !base64_length, toBinaryKey_length in E.
  assert ((length uaid + 2) / 3 <= 6)%nat.
  { apply Nat.Div0.div_le_upper_bound. lia. }
  change ((32 + 2) / 3)%nat with 11%nat in E. lia.
Qed.

(** ** The adapter in any world *)

Lemma count_app (p : call -> bool) (l1 l2 : list call) :
  count p (l1 ++ l2) = (count p l1 + count p l2)%nat.
Proof. unfold count. by rewrite List.filter_app, length_app. Qed.

Section AnyWorld.

Variable txt : sperror -> string.
Variable s : EmceeStore.

Lemma getClient_effect (w : world) :
  exists e w',
    getClient w = (Normal e, w')
    /\ items w' = items w /\ now w' = now w
    /\ calls w' = CallAcquire :: calls w
    /\ (e = None \/ e = Some io_EOF \/ e = Some ErrPoolSaturated).
Proof.
  unfold getClient. destruct w as [it t acq fl cs]. simpl.
  destruct acq as [|[| |] acq]; eauto 10.
Qed.

Lemma client_Get_cr_effect (key : string) (w : world) :
  exists r w',
    client_Get_cr key w = (Normal r, w')
    /\ items w' = items w /\ now w' = now w
    /\ calls w' = CallGetCr key :: calls w.
Proof.
  unfold client_Get_cr, next_failure. destruct w as [it t acq fl cs]. simpl.
  destruct fl as [|[msg|] fl]; simpl; eauto 10;
    destruct (it !! key) as [[rec|arr|str]|]; eauto 10.
Qed.

Lemma client_Get_ia_effect (key : string) (w : world) :
  exists r w',
    client_Get_ia key w = (Normal r, w')
    /\ items w' = items w /\ now w' = now w
    /\ calls w' = CallGetIa key :: calls w
    /\ (r.2 = None \/ exists msg, r.2 = Some (McError msg)).
Proof.
  unfold client_Get_ia, next_failure. destruct w as [it t acq fl cs]. simpl.
  destruct fl as [|[msg|] fl]; simpl; eauto 12;
    destruct (it !! key) as [[rec|arr|str]|]; simpl; eauto 12.
Qed.

Lemma client_Set_effect (key : string) (val : value) (ttl : Z) (w : world) :
  exists e w',
    client_Set key val ttl w = (Normal e, w')
    /\ now w' = now w
    /\ calls w' = CallSet key val ttl :: calls w
    /\ ((e = None /\ items w' = <[key := val]> (items w))
        \/ (items w' = items w /\ exists msg, e = Some (McError msg))).
Proof.
  unfold client_Set, next_failure. destruct w as [it t acq fl cs]. simpl.
  destruct fl as [|[msg|] fl]; simpl; eauto 12.
Qed.

Lemma fetchRec_effect (pk : list byte) (w : world) :
  pk <> [] ->
  exists r w' added,
    fetchRec txt pk w = (Normal r, w')
    /\ items w' = items w /\ now w' = now w
    /\ calls w' = added ++ calls w
    /\ count is_Acquire added = 1%nat
    /\ (count is_GetCr added <= 1)%nat
    /\ count is_Set added = 0%nat
    /\ ((exists rec, r = (Some rec, None))
        \/ (exists e, r = (None, Some e) /\ isMissing txt e = false)).
Proof.
  intros Hpk. unfold fetchRec.
  rewrite length_zero_iff, bool_decide_eq_false_2 by assumption.
  unfold bind.
  destruct (getClient_effect w) as (e & w1 & -> & Hi1 & Hn1 & Hc1 & He).
  destruct e as [e|].
  - exists (None, Some e), w1, [CallAcquire]. rewrite Hc1.
    split_and!; try done; try (unfold count; simpl; lia).
    right. exists e. split; [reflexivity|].
    destruct He as [He|[He|He]]; simplify_eq; reflexivity.
  - destruct (client_Get_cr_effect (encodeKey pk) w1)
      as ([rec e] & w2 & -> & Hi2 & Hn2 & Hc2).
    assert (Hcalls : calls w2 = [CallGetCr (encodeKey pk); CallAcquire] ++ calls w)
      by (rewrite Hc2, Hc1; reflexivity).
    assert (Hitems : items w2 = items w) by congruence.
    assert (Hnow : now w2 = now w) by congruence.
    destruct e as [e|]; [destruct (isMissing txt e) eqn:Hmiss; cbn [negb]|].
    + exists (Some rec, None), w2, [CallGetCr (encodeKey pk); CallAcquire].
      split_and!; eauto.
    + exists (None, Some e), w2, [CallGetCr (encodeKey pk); CallAcquire].
      split_and!; eauto.
    + exists (Some rec, None), w2, [CallGetCr (encodeKey pk); CallAcquire].
      split_and!; eauto.
Qed.

(** In any world [Update] follows what the load of the record comes to:
    the error of the load is returned, a record that is not DELETED is
    replaced, and a DELETED or zero record hands over to [Register]. *)
Lemma Update_follows_load (uaid chid : list byte) (version : Z) (w : world) :
  uaid <> [] -> chid <> [] ->
  let pk := (toBinaryKey uaid chid).1 in
  exists r w1,
    fetchRec txt pk w = (Normal r, w1)
    /\ match r with
       | (Some rec, None) =>
           if cr.S rec =? DELETED
           then Update txt s uaid chid version w
                = Register txt s uaid chid version w1
           else Update txt s uaid chid version w
                = storeRec s pk (Some (cr.mk LIVE (uint64 version) (now w))) w1
       | (_, Some e) =>
           Update txt s uaid chid version w = (Normal (Some e), w1)
       | (None, None) => False
       end.
Proof.
  intros Hu Hc pk.
  assert (Hpk : pk <> []).
  { intros E. pose proof (toBinaryKey_length uaid chid) as H.
    fold pk in H. by rewrite E in H. }
  destruct (fetchRec_effect pk w Hpk)
    as (r & w1 & added & Hf & _ & Hnow & _ & _ & _ & _ & Hr).
  exists r, w1. split; [exact Hf|].
  assert (Hupd : Update txt s uaid chid version w =
    (let '(cRec, err) := r in
     if match err with
        | Some err => negb (isMissing txt err)
        | None => false
        end
     then ret err
     else
       if match cRec with
          | Some cRec => negb (cr.S cRec =? DELETED)
          | None => false
          end
       then
         do t <- time_Now_Unix;
         do err <- storeRec s pk (Some (cr.mk LIVE (uint64 version) t));
         match err with
         | Some err => ret (Some err)
         | None => ret None
         end
       else
         do err <- Register txt s uaid chid version;
         match err with
         | Some err => ret (Some err)
         | None => ret None
         end) w1).
  { unfold Update.
    rewrite !length_zero_iff, !bool_decide_eq_false_2 by assumption.
    rewrite toBinaryKey_pair. fold pk. cbn [orb].
    unfold bind at 1. by rewrite Hf. }
  destruct Hr as [[rec ->]|(e & -> & Hmiss)]; rewrite Hupd; cbn beta iota.
  - destruct (cr.S rec =? DELETED); cbn [negb].
    + apply bind_return_error.
    + unfold bind at 1, time_Now_Unix. rewrite Hnow.
      apply (bind_return_error (storeRec s pk _)).
  - by rewrite Hmiss.
Qed.

Lemma storeRec_effect (pk : list byte) (rec : cr.t) (w : world) :
  pk <> [] ->
  exists e w' added,
    storeRec s pk (Some rec) w = (Normal e, w')
    /\ now w' = now w
    /\ calls w' = added ++ calls w
    /\ count is_Acquire added = 1%nat
    /\ count is_GetCr added = 0%nat
    /\ (count is_Set added <= 1)%nat
    /\ (forall k v t, CallSet k v t ∈ added ->
          k = encodeKey pk /\ v = Vcr (cr.mk (cr.S rec) (cr.V rec) (now w)))
    /\ (forall k, k <> encodeKey pk -> items w' !! k = items w !! k).
Proof.
  intros Hpk. unfold storeRec.
  rewrite length_zero_iff, bool_decide_eq_false_2 by assumption.
  unfold bind, time_Now_Unix.
  destruct (getClient_effect w) as (e & w1 & -> & Hi1 & Hn1 & Hc1 & _).
  destruct e as [e|].
  - exists (Some e), w1, [CallAcquire]. rewrite Hc1, Hi1.
    split_and!; try done; try (unfold count; simpl; lia).
    intros k v t Hin. apply list_elem_of_singleton in Hin. discriminate.
  - destruct (client_Set_effect (encodeKey pk)
                (Vcr (cr.mk (cr.S rec) (cr.V rec) (now w)))
                (if cr.S rec =? DELETED then UnregisterTimeout (config s)
                 else if cr.S rec =? REGISTERED then RegisterTimeout (config s)
                 else ChannelTimeout (config s)) w1)
      as (e & w2 & -> & Hn2 & Hc2 & Hit).
    eexists None, w2, [CallSet _ _ _; CallAcquire].
    split; [reflexivity|]. rewrite Hc2, Hc1.
    split_and!; try done; try congruence; try (unfold count; simpl; lia).
    + intros k v t Hin. rewrite !elem_of_cons in Hin.
      destruct Hin as [Hin|[Hin|Hin]]; [by simplify_eq | discriminate |].
      by apply elem_of_nil in Hin.
    + intros k Hk. destruct Hit as [[_ ->]|[-> _]].
      * rewrite lookup_insert_ne by done. by rewrite Hi1.
      * by rewrite Hi1.
Qed.

Lemma count_zero_not_in (p : call -> bool) (l : list call) (c : call) :
  count p l = 0%nat -> c ∈ l -> p c = false.
Proof.
  unfold count. intros Hz Hin. apply not_true_is_false. intros Hp.
  assert (Hf : In c (List.filter p l)).
  { apply List.filter_In. split; [by apply list_elem_of_In | assumption]. }
  destruct (List.filter p l); [contradiction | discriminate].
Qed.

Lemma Unregister_retry_effect (attempts : nat) (pk : list byte) (w : world) :
  pk <> [] ->
  exists w' added,
    Unregister_retry txt s attempts pk w = (Normal tt, w')
    /\ calls w' = added ++ calls w
    /\ (count is_Acquire added <= attempts + 1)%nat
    /\ (count is_GetCr added <= attempts)%nat
    /\ (count is_Set added <= 1)%nat
    /\ (forall k v t, CallSet k v t ∈ added ->
          k = encodeKey pk /\ exists rec, v = Vcr rec /\ cr.S rec = DELETED)
    /\ (forall k, k <> encodeKey pk -> items w' !! k = items w !! k).
Proof.
  intros Hpk. revert w. induction attempts as [|n IH]; intros w.
  - exists w, []. split_and!; try done; try (unfold count; simpl; lia).
    intros k v t Hin. by apply elem_of_nil in Hin.
  - cbn [Unregister_retry]. unfold bind at 1.
    destruct (fetchRec_effect pk w Hpk)
      as (r & w1 & added1 & -> & Hi1 & Hn1 & Hc1 & Ha1 & Hg1 & Hs1 & Hr).
    destruct Hr as [[rec ->]|(e & -> & _)]; cbn beta iota.
    + destruct (storeRec_effect pk (cr.mk DELETED (cr.V rec) (cr.L rec)) w1 Hpk)
        as (e & w2 & added2 & Hst & Hn2 & Hc2 & Ha2 & Hg2 & Hs2 & Hset & Hit).
      unfold bind. rewrite Hst.
      exists w2, (added2 ++ added1). split; [reflexivity|].
      rewrite !count_app, Hc2, Hc1, app_assoc.
      split_and!; try done; try lia.
      * intros k v t Hin. apply elem_of_app in Hin as [Hin|Hin].
        -- destruct (Hset k v t Hin) as [-> ->]. eauto.
        -- by pose proof (count_zero_not_in _ _ _ Hs1 Hin).
      * intros k Hk. rewrite Hit by assumption. by rewrite Hi1.
    + destruct (IH w1)
        as (w2 & added2 & Hrun & Hc2 & Ha2 & Hg2 & Hs2 & Hset & Hit).
      exists w2, (added2 ++ added1). split; [exact Hrun|].
      rewrite !count_app, Hc2, Hc1, app_assoc.
      split_and!; try done; try lia.
      * intros k v t Hin. apply elem_of_app in Hin as [Hin|Hin].
        -- eauto.
        -- by pose proof (count_zero_not_in _ _ _ Hs1 Hin).
      * intros k Hk. rewrite Hit by assumption. by rewrite Hi1.
Qed.

Lemma fetchAppIDArray_result (uaid : list byte) (w : world) :
  exists r w',
    fetchAppIDArray txt uaid w = (r, w')
    /\ items w' = items w
    /\ match r with
       | Normal (chids, None) => NoDup chids
       | Normal (_, Some e) => e <> Sperror InvalidChannelError
       | Panic => True
       end.
Proof.
  unfold fetchAppIDArray. destruct (length uaid =? 0)%nat.
  - exists (Normal ([], None)), w. split_and!; try done. constructor.
  - unfold bind.
    destruct (getClient_effect w) as (e & w1 & -> & Hi1 & Hn1 & Hc1 & He).
    destruct e as [e|].
    + exists (Normal ([], Some e)), w1. split_and!; try done.
      destruct He as [He|[He|He]]; simplify_eq; discriminate.
    + destruct (client_Get_ia_effect (encodeKey uaid) w1)
        as ([arr e] & w2 & -> & Hi2 & Hn2 & Hc2 & He2).
      assert (Hitems : items w2 = items w) by congruence.
      destruct e as [e|].
      * destruct (isMissing txt e); eexists _, w2;
          (split; [reflexivity|]); (split; [assumption|]); [constructor|].
        destruct He2 as [He2|[msg He2]]; simpl in He2; simplify_eq; discriminate.
      * rewrite pare_result. destruct (decide (NoDup arr)) as [Hnd|Hnd].
        -- rewrite bool_decide_eq_true_2 by assumption.
           eexists _, w2. split; [reflexivity|]. split; [assumption|].
           unfold elems, slice_of. simpl. by rewrite firstn_all.
        -- rewrite bool_decide_eq_false_2 by assumption.
           by exists Panic, w2.
Qed.

Lemma storeAppIDArray_result (uaid : list byte) (arr : ia) (w : world) :
  exists e w',
    storeAppIDArray uaid arr w = (Normal e, w')
    /\ e <> Some (Sperror InvalidChannelError)
    /\ (e = None ->
        items w' = <[encodeKey uaid := Via (sort_Sort arr)]> (items w)).
Proof.
  unfold storeAppIDArray. destruct (length uaid =? 0)%nat.
  - by exists (Some (Sperror MissingDataError)), w.
  - unfold bind.
    destruct (getClient_effect w) as (e & w1 & -> & Hi1 & Hn1 & Hc1 & He).
    destruct e as [e|].
    + exists (Some e), w1. split_and!; try done.
      destruct He as [He|[He|He]]; simplify_eq; discriminate.
    + destruct (client_Set_effect (encodeKey uaid) (Via (sort_Sort arr)) 0 w1)
        as (e & w2 & -> & Hn2 & Hc2 & Hit).
      destruct Hit as [[-> Hit]|[Hit [msg ->]]].
      * exists None, w2. split_and!; try done. intros _. by rewrite Hit, Hi1.
      * by exists (Some (McError msg)), w2.
Qed.

Lemma IndexOf_present (l : ia) (v : list byte) :
  v ∈ l ->
  exists j : nat, IndexOf l v = Z.of_nat j /\ l !! j = Some v.
Proof.
  intros Hin. destruct (IndexOf_from_present 0 l v Hin) as (j & Hj & Hl & _).
  exists j. split; [unfold IndexOf; lia | assumption].
Qed.

Lemma remove_elems (l : ia) (j : nat) :
  (j < length l)%nat ->
  exists removed,
    remove (slice_of l) (Z.of_nat j) = Normal removed
    /\ elems removed = take j l ++ drop (Datatypes.S j) l.
Proof.
  intros Hj. eexists. split.
  - apply remove_in_range. simpl. lia.
  - unfold elems. simpl. rewrite Nat2Z.id, firstn_all.
    rewrite !app_assoc, take_app_length'; [reflexivity|].
    rewrite length_app, length_take, length_drop. lia.
Qed.

Lemma elem_of_removed (l : ia) (j : nat) (v c : list byte) :
  NoDup l -> l !! j = Some v ->
  c ∈ take j l ++ drop (Datatypes.S j) l <-> c ∈ l /\ c <> v.
Proof.
  intros Hnd Hl. rewrite <- (take_drop_middle l j v Hl) in Hnd at 1.
  apply NoDup_app in Hnd as (_ & Hnot & Hnd').
  apply NoDup_cons in Hnd' as [Hv _].
  rewrite <- (take_drop_middle l j v Hl) at 3.
  rewrite !elem_of_app, elem_of_cons. split.
  - intros [Hc|Hc]; (split; [tauto|]); intros ->.
    + apply (Hnot v Hc). by left.
    + contradiction.
  - intros [[Hc|[Hc|Hc]] Hne]; tauto.
Qed.

End AnyWorld.

(** ** The adapter on the sample inputs *)

Lemma registered_world_untroubled : untroubled registered_world.
Proof. split; reflexivity. Qed.

Example registered_world_record :
  stored_record registered_world sample_uaid sample_chid
  = Some (cr.mk REGISTERED 0 1000).
Proof. vm_compute. reflexivity. Qed.

Lemma Update_registers_or_overwrites_witness :
  exists w',
    Update sample_text sample_store sample_uaid sample_chid 7 registered_world
    = (Normal None, w')
    /\ stored_record w' sample_uaid sample_chid = Some (cr.mk LIVE 7 1000).
Proof.
  destruct (Update_registers_or_overwrites sample_text sample_store
              sample_uaid sample_chid 7 registered_world) as [_ H];
    [discriminate | discriminate | exact registered_world_untroubled |].
  rewrite registered_world_record in H. exact H.
Defined.

Lemma Exists_true_without_device_set_witness :
  (Exists sample_text sample_uaid (quiet ∅ 1000)).1 = Normal true.
Proof.
  apply (Exists_true_without_device_set sample_text sample_uaid (quiet ∅ 1000));
    [split; reflexivity | reflexivity].
Defined.

Lemma Update_zero_version_goes_live_witness :
  exists w',
    Update sample_text sample_store sample_uaid sample_chid 0 registered_world
    = (Normal None, w')
    /\ stored_record w' sample_uaid sample_chid = Some (cr.mk LIVE 0 1000).
Proof.
  apply (Update_zero_version_goes_live sample_text sample_store
           sample_uaid sample_chid (cr.mk REGISTERED 0 1000) registered_world);
    [discriminate | discriminate | exact registered_world_untroubled
    | exact registered_world_record | discriminate].
Defined.

Lemma fetchAppIDArray_panics_on_repeated_chid_witness :
  (fetchAppIDArray sample_text sample_uaid repeated_world).1 = Panic.
Proof.
  apply (fetchAppIDArray_panics_on_repeated_chid sample_text sample_uaid
           [sample_chid; sample_chid] repeated_world);
    [discriminate | split; reflexivity | reflexivity |].
  intros H. apply NoDup_cons in H as [H _]. apply H. by left.
Defined.

(** C4 (as stated): stored records that [FetchAll] does not report. A
    channel on the list whose record is DELETED and was touched before the
    cutoff is not returned as expired. A channel that was registered,
    updated and unregistered, nothing having failed, is off the list: its
    record is DELETED and was touched at the cutoff, and it is not returned
    as expired. A channel that was unregistered while the fetches of its
    record failed is off the list as well: its record is LIVE and was
    touched after the cutoff, and it is not returned as an update. *)
Lemma FetchAll_leaves_out_old_and_unlisted_records :
  (stored_chids deleted_world sample_uaid = Some [sample_chid]
   /\ stored_record deleted_world sample_uaid sample_chid
      = Some (cr.mk DELETED 7 5)
   /\ (FetchAll sample_text sample_uaid 10 deleted_world).1
      = Normal ([], [], None))
  /\ (acquisitions unregistered_world = []
      /\ failures unregistered_world = []
      /\ stored_chids unregistered_world sample_uaid = Some []
      /\ stored_record unregistered_world sample_uaid sample_chid
         = Some (cr.mk DELETED 7 1000)
      /\ (FetchAll sample_text sample_uaid 1000 unregistered_world).1
         = Normal ([], [], None))
  /\ (acquisitions unmarked_world = []
      /\ failures unmarked_world = []
      /\ stored_chids unmarked_world sample_uaid = Some []
      /\ stored_record unmarked_world sample_uaid sample_chid
         = Some (cr.mk LIVE 7 1000)
      /\ (FetchAll sample_text sample_uaid 0 unmarked_world).1
         = Normal ([], [], None)).
Proof. repeat apply conj; vm_compute; reflexivity. Qed.

Lemma FetchAll_reports_listed_records_since_witness :
  (FetchAll sample_text sample_uaid 5 deleted_world).1
  = Normal ([], [sample_chid], None).
Proof.
  destruct (FetchAll_reports_listed_records_since sample_text sample_uaid 5
              deleted_world) as [_ H]; [split; reflexivity|].
  destruct H as [_ H]; [discriminate|].
  destruct (H [sample_chid]) as [_ H']; [reflexivity|].
  apply H'. apply NoDup_singleton.
Defined.

(** What becomes of the sample device when every attempt to fetch its
    record fails: three fetches, one stopped at the pool, no record stored,
    the record left as it was. *)
Example Unregister_all_attempts_fail :
  let w' := (Unregister sample_text sample_store sample_uaid sample_chid
               failing_world).2 in
  stored_chids w' sample_uaid = Some []
  /\ stored_record w' sample_uaid sample_chid = Some (cr.mk REGISTERED 0 1000)
  /\ count is_Acquire (calls w') = 5%nat
  /\ count is_GetCr (calls w') = 2%nat
  /\ count is_Set (calls w') = 1%nat.
Proof. repeat apply conj; vm_compute; reflexivity. Qed.

(** ** The run loop *)

(** C9 (the code at the failing input): with [MaxConns] 1, the one
    connection of the pool is closed when its caller releases it, although
    it is the only connection there is; the idle list stays empty and the
    next acquisition finds the pool saturated. *)
Theorem release_at_capacity_closes_connection :
  let cfg := Build_EmceeConfig 0 1 0 0 0 in
  Pool.run cfg [Pool.Acquisition (Some 0%nat)]
  = (Pool.State [] 1 true, [Pool.Send 0%nat; Pool.CloseReply])
  /\ Pool.step cfg (Pool.State [] 1 true) (Pool.Release 0%nat)
     = (Pool.State [] 1 true, [Pool.Close 0%nat])
  /\ Pool.run cfg [Pool.Acquisition (Some 0%nat); Pool.Release 0%nat;
                   Pool.Acquisition (Some 1%nat)]
     = (Pool.State [] 1 true,
        [Pool.Send 0%nat; Pool.CloseReply; Pool.Close 0%nat; Pool.CloseReply]).
Proof. repeat apply conj; reflexivity. Qed.

(** A released connection is closed exactly when the capacity counter has
    reached [MaxConns], and joins the idle list otherwise. *)
Lemma release_closes_iff_capacity_reached
    (cfg : EmceeConfig) (st : Pool.state) (c : Pool.conn) :
  (MaxConns cfg <= Pool.capacity st ->
   Pool.step cfg st (Pool.Release c) = (st, [Pool.Close c]))
  /\ (Pool.capacity st < MaxConns cfg ->
      Pool.step cfg st (Pool.Release c)
      = (Pool.State (Pool.clients st ++ [c]) (Pool.capacity st) (Pool.ok st), [])).
Proof.
  unfold Pool.step. split; intros H.
  - by replace (Pool.capacity st >=? MaxConns cfg) with true by lia.
  - by replace (Pool.capacity st >=? MaxConns cfg) with false by lia.
Qed.

(** With a non-negative [MaxConns] the capacity counter never passes it,
    so a release is closed exactly when the counter equals [MaxConns]. *)
Lemma capacity_within_MaxConns
    (cfg : EmceeConfig) (evs : list Pool.event) (st : Pool.state) :
  Pool.capacity st <= MaxConns cfg ->
  Pool.capacity (Pool.loop cfg st evs).1 <= MaxConns cfg.
Proof.
  revert st. induction evs as [|ev evs IH]; intros st Hcap.
  - simpl. by destruct (Pool.ok st).
  - simpl. destruct (Pool.ok st); [|assumption].
    destruct (Pool.step cfg st ev) as [st' out] eqn:Hstep.
    specialize (IH st').
    destruct (Pool.loop cfg st' evs) as [st'' out'] eqn:Hloop.
    simpl in *. apply IH.
    unfold Pool.step in Hstep.
    repeat case_match; simplify_eq; simpl; lia.
Qed.

(* ===================================================================== *)
(** * Further properties of the adapter *)
(* ===================================================================== *)

(** ** Binary keys *)

Lemma copy_uaid_half (u : list byte) :
  (length u <= 16)%nat ->
  copy (replicate 32 x00) (16 - length u) u
  = replicate (16 - length u) x00 ++ u ++ replicate 16 x00.
Proof.
  intros Hu. unfold copy.
  rewrite length_replicate, take_replicate, drop_replicate.
  replace (Nat.min (32 - (16 - length u)) (length u)) with (length u) by lia.
  rewrite firstn_all.
  replace ((16 - length u) `min` 32)%nat with (16 - length u)%nat by lia.
  replace (32 - (16 - length u + length u))%nat with 16%nat by lia.
  reflexivity.
Qed.

Lemma copy_long_uaid (u : list byte) :
  (16 <= length u)%nat ->
  copy (replicate 32 x00) 0 u = take 32 (u ++ replicate 32 x00).
Proof.
  intros Hu. unfold copy. rewrite length_replicate, drop_replicate.
  rewrite take_0, app_nil_l, Nat.sub_0_r, Nat.add_0_l.
  destruct (Nat.le_ge_cases 32 (length u)) as [Hl|Hl].
  - replace (Nat.min 32 (length u)) with 32%nat by lia.
    rewrite Nat.sub_diag. cbn [replicate].
    rewrite app_nil_r. by rewrite take_app_le by lia.
  - replace (Nat.min 32 (length u)) with (length u) by lia.
    rewrite firstn_all, take_app_ge by lia.
    rewrite take_replicate.
    by replace ((32 - length u) `min` 32)%nat with (32 - length u)%nat by lia.
Qed.

(** [toBinaryKey] returns no error, and a key of 32 bytes. *)
Lemma toBinaryKey_never_fails (uaid chid : list byte) :
  (toBinaryKey uaid chid).2 = None /\ length (toBinaryKey uaid chid).1 = 32%nat.
Proof. split; [reflexivity | apply toBinaryKey_length]. Qed.

Lemma pad_leading_zero (l : list byte) :
  (length l < 16)%nat ->
  replicate (16 - length (x00 :: l)) x00 ++ x00 :: l
  = replicate (16 - length l) x00 ++ l.
Proof.
  intros Hl. cbn [length].
  replace (16 - length l)%nat with (Datatypes.S (16 - Datatypes.S (length l)))
    by lia.
  rewrite replicate_S_end, <- app_assoc. reflexivity.
Qed.

(** X1: [toBinaryKey] pads each half on the left with zero bytes, so for IDs
    shorter than 16 bytes a zero byte in front of the device ID or of the
    channel ID does not change the key: IDs that differ in leading zeros
    share one key. *)
Theorem toBinaryKey_ignores_leading_zeros (uaid chid : list byte) :
  (length uaid < 16)%nat -> (length chid < 16)%nat ->
  toBinaryKey (x00 :: uaid) chid = toBinaryKey uaid chid
  /\ toBinaryKey uaid (x00 :: chid) = toBinaryKey uaid chid.
Proof.
  intros Hu Hc.
  rewrite !toBinaryKey_layout by (simpl; lia).
  split; f_equal.
  - rewrite (app_assoc _ (x00 :: uaid)), pad_leading_zero by assumption.
    by rewrite <- app_assoc.
  - f_equal. f_equal. by apply pad_leading_zero.
Qed.

Lemma toBinaryKey_ignores_leading_zeros_witness :
  toBinaryKey [x00; x0a; x01] [x0c] = toBinaryKey [x0a; x01] [x0c]
  /\ toBinaryKey [x0a; x01] [x00; x0c] = toBinaryKey [x0a; x01] [x0c].
Proof.
  apply (toBinaryKey_ignores_leading_zeros [x0a; x01] [x0c]); simpl; lia.
Defined.

(** X2: a device ID of 16 bytes or more is copied from the start of the key
    and runs on into the half of the channel ID; the channel ID, of at most
    16 bytes, then overwrites the end. The key is the first
    [32 - len(chid)] bytes of the device ID followed by zeros, and then the
    channel ID. *)
Theorem toBinaryKey_long_uaid_spills (uaid chid : list byte) :
  (16 <= length uaid)%nat -> (length chid <= 16)%nat ->
  toBinaryKey uaid chid
  = (take (32 - length chid) (uaid ++ replicate 32 x00) ++ chid, None).
Proof.
  intros Hu Hc. unfold toBinaryKey.
  replace (16 - Z.of_nat (length uaid) <? 0) with (negb (length uaid =? 16)%nat)
    by (destruct (Nat.eqb_spec (length uaid) 16); simpl; lia).
  replace (32 - Z.of_nat (length chid) <? 16) with false by lia.
  assert (Hfirst :
    copy (replicate 32 x00)
      (Z.to_nat (if negb (length uaid =? 16)%nat then 0
                 else 16 - Z.of_nat (length uaid))) uaid
    = take 32 (uaid ++ replicate 32 x00)).
  { replace (Z.to_nat (if negb (length uaid =? 16)%nat then 0
                       else 16 - Z.of_nat (length uaid))) with 0%nat
      by (destruct (Nat.eqb_spec (length uaid) 16); simpl; lia).
    by apply copy_long_uaid. }
  rewrite Hfirst. f_equal. unfold copy.
  rewrite length_take, length_app, length_replicate.
  replace (Z.to_nat (32 - Z.of_nat (length chid))) with (32 - length chid)%nat
    by lia.
  replace (Nat.min (32 `min` (length uaid + 32) - (32 - length chid)) (length chid))
    with (length chid) by lia.
  rewrite firstn_all, take_take.
  replace ((32 - length chid) `min` 32)%nat with (32 - length chid)%nat by lia.
  rewrite drop_ge by (rewrite length_take, length_app, length_replicate; lia).
  by rewrite app_nil_r.
Qed.

Lemma toBinaryKey_long_uaid_spills_witness :
  toBinaryKey (replicate 17 x0a) [x0c]
  = (replicate 17 x0a ++ replicate 14 x00 ++ [x0c], None).
Proof.
  rewrite (toBinaryKey_long_uaid_spills (replicate 17 x0a) [x0c]);
    [reflexivity | simpl; lia | simpl; lia].
Defined.

(** ** Memcached keys *)

Lemma elem_of_sextets (n : N) : (n < 64)%N -> n ∈ sextets.
Proof.
  intros Hn. unfold sextets. apply list_elem_of_fmap.
  exists (N.to_nat n). split; [by rewrite N2Nat.id|].
  apply elem_of_seq. lia.
Qed.

Lemma sextet_table :
  forallb (fun n =>
             negb (Ascii.eqb (gobase64.sextet n) "=")
             && forallb (fun m =>
                           implb (Ascii.eqb (gobase64.sextet n) (gobase64.sextet m))
                                 (N.eqb n m)) sextets) sextets = true.
Proof. vm_compute. reflexivity. Qed.

Lemma sextet_not_pad (n : N) : (n < 64)%N -> gobase64.sextet n <> "="%char.
Proof.
  intros Hn. pose proof sextet_table as H.
  rewrite forallb_forall in H.
  specialize (H n (proj1 (list_elem_of_In _ _) (elem_of_sextets n Hn))).
  apply andb_true_iff in H as [H _]. apply negb_true_iff in H.
  by apply Ascii.eqb_neq.
Qed.

Lemma sextet_inj (n m : N) :
  (n < 64)%N -> (m < 64)%N -> gobase64.sextet n = gobase64.sextet m -> n = m.
Proof.
  intros Hn Hm Heq. pose proof sextet_table as H.
  rewrite forallb_forall in H.
  specialize (H n (proj1 (list_elem_of_In _ _) (elem_of_sextets n Hn))).
  apply andb_true_iff in H as [_ H]. rewrite forallb_forall in H.
  specialize (H m (proj1 (list_elem_of_In _ _) (elem_of_sextets m Hm))).
  apply Ascii.eqb_eq in Heq. rewrite Heq in H. by apply N.eqb_eq.
Qed.

Lemma byte_to_N_inj (a b : byte) : Byte.to_N a = Byte.to_N b -> a = b.
Proof.
  intros H. apply (f_equal Byte.of_N) in H. rewrite !Byte.of_to_N in H.
  by injection H.
Qed.

Lemma byte_to_N_bound (a : byte) : (Byte.to_N a < 256)%N.
Proof. pose proof (Byte.to_N_bounded a). lia. Qed.

Lemma String_eq_inv (c c' : ascii) (s s' : string) :
  String c s = String c' s' -> c = c' /\ s = s'.
Proof. intros H. by injection H. Qed.

Lemma split_digit (a b k : N) :
  (b < k)%N -> ((a * k + b) / k = a /\ (a * k + b) mod k = b)%N.
Proof.
  intros Hb. assert (k <> 0)%N by lia. split.
  - rewrite N.div_add_l by assumption. rewrite N.div_small by assumption. lia.
  - rewrite N.add_comm, N.Div0.mod_add. by apply N.mod_small.
Qed.

Lemma digits_eq (a b a' b' k : N) :
  (b < k)%N -> (b' < k)%N -> (a * k + b = a' * k + b')%N -> a = a' /\ b = b'.
Proof.
  intros Hb Hb' H.
  destruct (split_digit a b k Hb) as [Hd Hm].
  destruct (split_digit a' b' k Hb') as [Hd' Hm'].
  rewrite H in Hd, Hm. split; congruence.
Qed.

Lemma byte_quot_bound (x k q : N) :
  (x < 256)%N -> (256 <= k * q)%N -> (k <> 0)%N -> (x / k < q)%N.
Proof. intros. apply N.Div0.div_lt_upper_bound. lia. Qed.

Lemma rebuild (x x' k : N) :
  (k <> 0)%N -> (x / k = x' / k)%N -> (x mod k = x' mod k)%N -> x = x'.
Proof.
  intros Hk Hd Hm. rewrite (N.div_mod x k), (N.div_mod x' k) by assumption.
  by rewrite Hd, Hm.
Qed.

Lemma sextets_of_three (x y z x' y' z' : N) :
  (x < 256)%N -> (y < 256)%N -> (z < 256)%N ->
  (x' < 256)%N -> (y' < 256)%N -> (z' < 256)%N ->
  (x / 4 = x' / 4)%N ->
  (x mod 4 * 16 + y / 16 = x' mod 4 * 16 + y' / 16)%N ->
  (y mod 16 * 4 + z / 64 = y' mod 16 * 4 + z' / 64)%N ->
  (z mod 64 = z' mod 64)%N ->
  x = x' /\ y = y' /\ z = z'.
Proof.
  intros Hx Hy Hz Hx' Hy' Hz' H1 H2 H3 H4.
  apply digits_eq in H2 as [H2a H2b];
    [|apply byte_quot_bound; lia..].
  apply digits_eq in H3 as [H3a H3b];
    [|apply byte_quot_bound; lia..].
  split; [by apply (rebuild x x' 4)|].
  split; [by apply (rebuild y y' 16) | by apply (rebuild z z' 64)].
Qed.

Lemma sextet_ranges (x y z : N) :
  (x < 256)%N -> (y < 256)%N -> (z < 256)%N ->
  (x / 4 < 64 /\ x mod 4 * 16 < 64 /\ x mod 4 * 16 + y / 16 < 64
   /\ y mod 16 * 4 < 64 /\ y mod 16 * 4 + z / 64 < 64 /\ z mod 64 < 64)%N.
Proof.
  intros Hx Hy Hz.
  pose proof (byte_quot_bound x 4 64 Hx).
  pose proof (byte_quot_bound y 16 16 Hy).
  pose proof (byte_quot_bound z 64 4 Hz).
  pose proof (N.mod_upper_bound x 4).
  pose proof (N.mod_upper_bound y 16).
  pose proof (N.mod_upper_bound z 64).
  lia.
Qed.

Lemma base64_injective (l1 l2 : list byte) :
  gobase64.EncodeToString l1 = gobase64.EncodeToString l2 -> l1 = l2.
Proof.
  remember (length l1) as n eqn:Hn. revert l1 l2 Hn.
  induction n as [n IH] using lt_wf_ind. intros l1 l2 -> Heq.
  assert (H0 : (0 < 256)%N) by lia.
  destruct l1 as [|a1 [|b1 [|c1 r1]]]; destruct l2 as [|a2 [|b2 [|c2 r2]]];
    cbn [gobase64.EncodeToString] in Heq; try discriminate Heq;
    try reflexivity;
    pose proof (byte_to_N_bound a1) as Ba1;
    pose proof (byte_to_N_bound a2) as Ba2;
    apply String_eq_inv in Heq as [H1 Heq];
    apply String_eq_inv in Heq as [H2 Heq];
    apply String_eq_inv in Heq as [H3 Heq];
    apply String_eq_inv in Heq as [H4 Heq].
  all: try pose proof (byte_to_N_bound b1) as Bb1.
  all: try pose proof (byte_to_N_bound b2) as Bb2.
  all: try pose proof (byte_to_N_bound c1) as Bc1.
  all: try pose proof (byte_to_N_bound c2) as Bc2.
  all: try (exfalso;
            first [ destruct (sextet_ranges (to_N a1) (to_N b1) (to_N c1))
                      as (? & ? & ? & ? & ? & ?); [assumption..|]
                  | destruct (sextet_ranges (to_N a1) (to_N b1) 0)
                      as (? & ? & ? & ? & ? & ?); [assumption..|]
                  | idtac ];
            first [ destruct (sextet_ranges (to_N a2) (to_N b2) (to_N c2))
                      as (? & ? & ? & ? & ? & ?); [assumption..|]
                  | destruct (sextet_ranges (to_N a2) (to_N b2) 0)
                      as (? & ? & ? & ? & ? & ?); [assumption..|]
                  | idtac ];
            first [ by eapply sextet_not_pad; [|exact H3]
                  | by eapply sextet_not_pad; [|symmetry; exact H3]
                  | by eapply sextet_not_pad; [|exact H4]
                  | by eapply sextet_not_pad; [|symmetry; exact H4] ]).
  - destruct (sextet_ranges (to_N a1) 0 0) as (? & ? & _); [assumption..|].
    destruct (sextet_ranges (to_N a2) 0 0) as (? & ? & _); [assumption..|].
    apply sextet_inj in H1; [|assumption..].
    apply sextet_inj in H2; [|assumption..].
    f_equal. apply byte_to_N_inj.
    apply (rebuild _ _ 4); [lia | assumption |].
    generalize dependent (to_N a1 mod 4)%N.
    generalize dependent (to_N a2 mod 4)%N. intros. lia.
  - destruct (sextet_ranges (to_N a1) (to_N b1) 0) as (? & ? & ? & ? & _);
      [assumption..|].
    destruct (sextet_ranges (to_N a2) (to_N b2) 0) as (? & ? & ? & ? & _);
      [assumption..|].
    apply sextet_inj in H1; [|assumption..].
    apply sextet_inj in H2; [|assumption..].
    apply sextet_inj in H3; [|assumption..].
    destruct (sextets_of_three (to_N a1) (to_N b1) 0 (to_N a2) (to_N b2) 0)
      as (Ea & Eb & _); try assumption.
    { change (0 / 64)%N with 0%N. rewrite !N.add_0_r. exact H3. }
    { reflexivity. }
    f_equal; [by apply byte_to_N_inj|]. f_equal. by apply byte_to_N_inj.
  - destruct (sextet_ranges (to_N a1) (to_N b1) (to_N c1))
      as (? & ? & ? & ? & ? & ?); [assumption..|].
    destruct (sextet_ranges (to_N a2) (to_N b2) (to_N c2))
      as (? & ? & ? & ? & ? & ?); [assumption..|].
    apply sextet_inj in H1; [|assumption..].
    apply sextet_inj in H2; [|assumption..].
    apply sextet_inj in H3; [|assumption..].
    apply sextet_inj in H4; [|assumption..].
    destruct (sextets_of_three (to_N a1) (to_N b1) (to_N c1)
                (to_N a2) (to_N b2) (to_N c2))
      as (Ea & Eb & Ec); try assumption.
    f_equal; [by apply byte_to_N_inj|].
    f_equal; [by apply byte_to_N_inj|].
    f_equal; [by apply byte_to_N_inj|].
    apply (IH (length r1)); [simpl; lia | reflexivity | exact Heq].
Qed.

(** X3: [encodeKey] keeps keys apart: different binary keys, of whatever
    lengths, have different memcached keys. *)
Theorem encodeKey_injective (k1 k2 : list byte) :
  k1 <> k2 -> encodeKey k1 <> encodeKey k2.
Proof. intros Hne Heq. by apply Hne, base64_injective. Qed.

Lemma encodeKey_injective_witness :
  encodeKey [x00] <> encodeKey [x00; x00].
Proof. apply (encodeKey_injective [x00] [x00; x00]). discriminate. Defined.

(** X4: among device IDs of one length and channel IDs of one length,
    neither over 16 bytes, the memcached key of a record identifies the
    device and the channel: different pairs have different keys. *)
Theorem record_key_identifies_channel (u1 c1 u2 c2 : list byte) :
  (length u1 <= 16)%nat -> (length c1 <= 16)%nat ->
  length u1 = length u2 -> length c1 = length c2 ->
  (u1, c1) <> (u2, c2) ->
  encodeKey (toBinaryKey u1 c1).1 <> encodeKey (toBinaryKey u2 c2).1.
Proof.
  intros Hu Hc Hlu Hlc Hne Heq. apply Hne. apply base64_injective in Heq.
  rewrite !toBinaryKey_layout in Heq by lia. cbn [fst] in Heq.
  rewrite <- Hlu, <- Hlc in Heq.
  apply app_inv_head in Heq.
  apply app_inj_1 in Heq as [-> Heq]; [|assumption].
  apply app_inv_head in Heq. by subst.
Qed.

Lemma record_key_identifies_channel_witness :
  encodeKey (toBinaryKey [x0a; x01] [x0c; x02]).1
  <> encodeKey (toBinaryKey [x0a; x01] [x0c; x03]).1.
Proof.
  apply (record_key_identifies_channel [x0a; x01] [x0c; x02]
           [x0a; x01] [x0c; x03]);
    [simpl; lia | simpl; lia | reflexivity | reflexivity | discriminate].
Defined.

(** X5: the list of a device is stored under the encoding of the device ID
    and a record under the encoding of a key of 32 bytes, so unless the
    device ID is 32 bytes long no record, of whatever device and channel,
    has the key of the list. *)
Theorem list_key_is_no_record_key (uaid uaid' chid' : list byte) :
  length uaid <> 32%nat ->
  encodeKey (toBinaryKey uaid' chid').1 <> encodeKey uaid.
Proof.
  intros Hlen Heq. apply base64_injective in Heq.
  apply Hlen. rewrite <- Heq. apply toBinaryKey_length.
Qed.

Lemma list_key_is_no_record_key_witness :
  encodeKey (toBinaryKey sample_uaid sample_chid).1 <> encodeKey sample_uaid.
Proof.
  apply (list_key_is_no_record_key sample_uaid sample_uaid sample_chid).
  simpl. lia.
Defined.

Lemma get_in_string (k : nat) (str : string) (c : ascii) :
  String.get k str = Some c -> In c (list_ascii_of_string str).
Proof.
  revert k; induction str as [|d str IH]; intros k H; [discriminate|].
  destruct k as [|k]; simpl in *.
  - left. congruence.
  - right. eauto.
Qed.

Lemma sextet_base64_char (n : N) : base64_char (gobase64.sextet n).
Proof.
  unfold gobase64.sextet, base64_char.
  destruct (String.get (N.to_nat n) gobase64.encodeStd) eqn:H; [|by right].
  left. eapply get_in_string, H.
Qed.

Lemma base64_chars (l : list byte) :
  Forall base64_char (list_ascii_of_string (gobase64.EncodeToString l)).
Proof.
  remember (length l) as n eqn:Hn. revert l Hn.
  induction n as [n IH] using lt_wf_ind. intros l ->.
  destruct l as [|a [|b [|c rest]]]; cbn [gobase64.EncodeToString list_ascii_of_string].
  - constructor.
  - repeat (constructor; [first [apply sextet_base64_char | by right]|]).
    constructor.
  - repeat (constructor; [first [apply sextet_base64_char | by right]|]).
    constructor.
  - repeat (constructor; [apply sextet_base64_char|]).
    apply (IH (length rest)); [simpl; lia | reflexivity].
Qed.

Lemma list_ascii_of_string_app (a b : string) :
  list_ascii_of_string (a +:+ b) = list_ascii_of_string a ++ list_ascii_of_string b.
Proof. induction a as [|c a IH]; [reflexivity|]. simpl. by rewrite <- IH. Qed.

(** X6: a key that starts with a prefix holding a character outside the
    base64 alphabet, as the default host prefix and ping prefix do with
    their underscore, is the key of no record and of no list. *)
Theorem prefixed_key_is_no_base64_key (prefix rest : string) (key : list byte) :
  (exists c, In c (list_ascii_of_string prefix) /\ ~ base64_char c) ->
  prefix +:+ rest <> encodeKey key.
Proof.
  intros (c & Hin & Hc) Heq. apply Hc.
  pose proof (base64_chars key) as H. rewrite Forall_forall in H.
  apply H. unfold encodeKey in Heq. rewrite <- Heq, list_ascii_of_string_app.
  apply list_elem_of_In, in_or_app. by left.
Qed.

Lemma prefixed_key_is_no_base64_key_witness :
  HostPrefix ConfigStruct_names +:+ gohex.EncodeToString sample_uaid
  <> encodeKey (toBinaryKey sample_uaid sample_chid).1
  /\ PingPrefix ConfigStruct_names +:+ gohex.EncodeToString sample_uaid
     <> encodeKey sample_uaid.
Proof.
  split; apply prefixed_key_is_no_base64_key; exists "_"%char;
    (split; [simpl; tauto|]);
    intros [H|H]; [|discriminate| |discriminate];
    simpl in H; repeat (destruct H as [H|H]; [discriminate|]); exact H.
Defined.

(** ** Endpoint keys *)

Lemma cut_dot_unfold (c : ascii) (s : string) :
  gostrings.cut (String c s) "." =
  if Ascii.eqb "." c then Some (EmptyString, s)
  else match gostrings.cut s "." with
       | Some (before, after) => Some (String c before, after)
       | None => None
       end.
Proof.
  cbn [gostrings.cut gostrings.HasPrefix]. rewrite andb_true_r.
  destruct (Ascii.eqb "." c); reflexivity.
Qed.

Lemma cut_dot_None (s : string) :
  gostrings.cut s "." = None <-> ~ In "."%char (list_ascii_of_string s).
Proof.
  induction s as [|c s IH]; [simpl; tauto|].
  rewrite cut_dot_unfold. cbn [list_ascii_of_string In].
  destruct (Ascii.eqb_spec "." c) as [<-|Hne].
  - split; [discriminate | tauto].
  - destruct (gostrings.cut s ".") as [[a b]|] eqn:Hcut.
    + split; [discriminate|]. intros H. exfalso.
      assert (Hnone : Some (a, b) = @None (string * string)); [|discriminate].
      apply IH. tauto.
    + split; [|reflexivity]. intros _ [H|H]; [congruence|].
      by apply (proj1 IH).
Qed.

Lemma cut_dot_Some (s a b : string) :
  gostrings.cut s "." = Some (a, b)
  <-> s = a +:+ "." +:+ b /\ ~ In "."%char (list_ascii_of_string a).
Proof.
  revert a; induction s as [|c s IH]; intros a.
  - split; [discriminate|]. intros [H _]. destruct a; discriminate.
  - rewrite cut_dot_unfold. destruct (Ascii.eqb_spec "." c) as [<-|Hne].
    + split.
      * intros [= <- <-]. split; [reflexivity | simpl; tauto].
      * intros [H Hn]. destruct a as [|d a].
        -- injection H as ->. reflexivity.
        -- injection H as <- _. exfalso. apply Hn. by left.
    + destruct (gostrings.cut s ".") as [[a' b']|] eqn:Hcut.
      * split.
        -- intros [= <- <-]. destruct (proj1 (IH a') eq_refl) as [-> Hn].
           split; [reflexivity|]. simpl. intros [H|H]; [congruence | tauto].
        -- intros [H Hn]. destruct a as [|d a]; [injection H as Hc _; congruence|].
           injection H as <- ->. f_equal.
           assert (Some (a', b') = Some (a, b)) as [= -> ->]; [|reflexivity].
           apply IH. split; [reflexivity|]. intros Hin. apply Hn. by right.
      * split; [discriminate|]. intros [H Hn].
        destruct a as [|d a]; [injection H as Hc _; congruence|].
        injection H as <- ->. exfalso.
        assert (None = Some (a, b)); [|discriminate].
        apply IH. split; [reflexivity|]. intros Hin. apply Hn. by right.
Qed.

Lemma KeyToIDs_cut (key : string) :
  KeyToIDs key =
  match gostrings.cut key "." with
  | Some (a, b) => (a, b, true)
  | None => (EmptyString, EmptyString, false)
  end.
Proof.
  unfold KeyToIDs. cbn [gostrings.SplitN].
  by destruct (gostrings.cut key ".") as [[a b]|].
Qed.

(** X7: [KeyToIDs] splits at the first dot. It returns [(u, c, true)]
    exactly for the keys [u.c] in which [u] holds no dot, empty halves
    included, and it returns false exactly for the keys without a dot. *)
Theorem KeyToIDs_splits_at_first_dot (key : string) :
  (forall u c,
     KeyToIDs key = (u, c, true)
     <-> key = u +:+ "." +:+ c /\ ~ In "."%char (list_ascii_of_string u))
  /\ ((KeyToIDs key).2 = false <-> ~ In "."%char (list_ascii_of_string key)).
Proof.
  rewrite KeyToIDs_cut. split.
  - intros u c. rewrite <- cut_dot_Some.
    destruct (gostrings.cut key ".") as [[a b]|]; split; congruence.
  - rewrite <- cut_dot_None.
    destruct (gostrings.cut key ".") as [[a b]|]; split; simpl; congruence.
Qed.

Lemma KeyToIDs_splits_at_first_dot_witness :
  KeyToIDs "." = (EmptyString, EmptyString, true)
  /\ (KeyToIDs "0a01").2 = false.
Proof.
  split.
  - apply (proj1 (KeyToIDs_splits_at_first_dot ".") EmptyString EmptyString).
    split; [reflexivity | simpl; tauto].
  - apply (proj2 (KeyToIDs_splits_at_first_dot "0a01")).
    simpl. intros H. repeat (destruct H as [H|H]; [discriminate|]). exact H.
Defined.

(** ** Lists of channel IDs *)

(** X8: [IndexOf] returns -1 exactly when the value is not in the list, and
    otherwise the first position at which it occurs. *)
Theorem IndexOf_first_position (channelIDs : ia) (val : list byte) :
  (IndexOf channelIDs val = -1 <-> val ∉ channelIDs)
  /\ (val ∈ channelIDs ->
      exists j : nat,
        IndexOf channelIDs val = Z.of_nat j
        /\ channelIDs !! j = Some val
        /\ val ∉ take j channelIDs).
Proof.
  split.
  - split.
    + intros H. apply IndexOf_absent. lia.
    + intros H. by apply IndexOf_from_absent.
  - intros Hin.
    destruct (IndexOf_from_present 0 channelIDs val Hin) as (j & Hj & Hl & Ht).
    exists j. split; [unfold IndexOf; lia | done].
Qed.

Lemma IndexOf_first_position_witness :
  exists j : nat,
    IndexOf [[x01]; [x02]; [x01]; [x02]] [x02] = Z.of_nat j
    /\ [[x01]; [x02]; [x01]; [x02]] !! j = Some [x02]
    /\ [x02] ∉ take j [[x01]; [x02]; [x01]; [x02]].
Proof.
  apply (IndexOf_first_position [[x01]; [x02]; [x01]; [x02]] [x02]).
  apply elem_of_cons. right. by left.
Defined.

(** X9: [remove] returns the list as it is for a negative position and for
    the position just past the last element, panics for a position beyond
    that, and otherwise returns the list without the element at the
    position. It shifts the elements inside the array of its argument: read
    at its old length, the array then holds the shortened list followed by
    the old last element once more. *)
Theorem remove_shifts_shared_array (l : ia) (pos : Z) :
  ((pos < 0 \/ pos = Z.of_nat (length l)) ->
   remove (slice_of l) pos = Normal (slice_of l))
  /\ (Z.of_nat (length l) < pos -> remove (slice_of l) pos = Panic)
  /\ (0 <= pos < Z.of_nat (length l) ->
      exists removed last,
        remove (slice_of l) pos = Normal removed
        /\ elems removed = take (Z.to_nat pos) l ++ drop (Datatypes.S (Z.to_nat pos)) l
        /\ List.last l [] = last
        /\ elems (Slice (array removed) (length l))
           = take (Z.to_nat pos) l ++ drop (Datatypes.S (Z.to_nat pos)) l ++ [last]).
Proof.
  split; [|split].
  - intros H. unfold remove, slice_of. cbn [len].
    destruct (Z.ltb_spec pos 0); [reflexivity|].
    by replace (pos =? Z.of_nat (length l)) with true by lia.
  - intros H. unfold remove, slice_of. cbn [len].
    replace (pos <? 0) with false by lia.
    replace (pos =? Z.of_nat (length l)) with false by lia.
    by replace (Z.of_nat (length l) <? pos + 1) with true by lia.
  - intros H.
    destruct (remove_elems l (Z.to_nat pos)) as (removed & Hrm & Hel); [lia|].
    rewrite Z2Nat.id in Hrm by lia.
    exists removed, (List.last l []). split; [exact Hrm|]. split; [exact Hel|].
    split; [reflexivity|].
    rewrite remove_in_range in Hrm by (simpl; lia). injection Hrm as <-.
    unfold elems, slice_of. cbn [array len].
    rewrite firstn_all, !app_assoc.
    rewrite take_ge by (rewrite !length_app, length_take, !length_drop; lia).
    f_equal.
    destruct (exists_last (l := l)) as (l' & x & ->);
      [intros ->; simpl in H; lia|].
    rewrite last_last, length_app. cbn [length].
    replace (length l' + 1 - 1)%nat with (length l') by lia.
    by rewrite drop_app_length.
Qed.

Lemma remove_shifts_shared_array_witness :
  exists removed last,
    remove (slice_of [[x01]; [x02]; [x03]]) 0 = Normal removed
    /\ elems removed = [[x02]; [x03]]
    /\ List.last [[x01]; [x02]; [x03]] [] = last
    /\ elems (Slice (array removed) 3) = [[x02]; [x03]; [x03]].
Proof.
  destruct (proj2 (proj2 (remove_shifts_shared_array [[x01]; [x02]; [x03]] 0)))
    as (removed & last & H1 & H2 & H3 & H4); [simpl; lia|].
  exists removed, last. simpl in H3. subst last.
  split_and!; [exact H1 | exact H2 | reflexivity | exact H4].
Defined.

Lemma bytes_Compare_refl (a : list byte) : bytes_Compare a a = 0.
Proof.
  induction a as [|x a IH]; [reflexivity|]. simpl.
  by rewrite N.ltb_irrefl.
Qed.

Lemma bytes_Compare_eq (a b : list byte) : bytes_Compare a b = 0 -> a = b.
Proof.
  revert b; induction a as [|x a IH]; intros [|y b] H; simpl in H;
    try discriminate; [reflexivity|].
  destruct (N.ltb_spec (to_N x) (to_N y)); [discriminate|].
  destruct (N.ltb_spec (to_N y) (to_N x)); [discriminate|].
  f_equal; [apply byte_to_N_inj; lia | by apply IH].
Qed.

Lemma bytes_Compare_swap (a b : list byte) :
  bytes_Compare b a = - bytes_Compare a b.
Proof.
  revert b; induction a as [|x a IH]; intros [|y b]; simpl; try reflexivity.
  destruct (N.ltb_spec (to_N x) (to_N y)), (N.ltb_spec (to_N y) (to_N x));
    try reflexivity; try lia. apply IH.
Qed.

Lemma bytes_Compare_trans (a b c : list byte) :
  bytes_Compare a b <= 0 -> bytes_Compare b c <= 0 ->
  bytes_Compare a c <= 0
  /\ (bytes_Compare a b < 0 \/ bytes_Compare b c < 0 -> bytes_Compare a c < 0).
Proof.
  revert b c; induction a as [|x a IH]; intros [|y b] [|z c] Hab Hbc;
    simpl in *; try lia.
  destruct (N.ltb_spec (to_N x) (to_N y)), (N.ltb_spec (to_N y) (to_N x)),
    (N.ltb_spec (to_N y) (to_N z)), (N.ltb_spec (to_N z) (to_N y)),
    (N.ltb_spec (to_N x) (to_N z)), (N.ltb_spec (to_N z) (to_N x));
    try lia.
  by apply (IH b c).
Qed.

(** X10: [Less] is a strict total order on channel IDs: it is irreflexive,
    asymmetric and transitive, and of two different channel IDs one is less
    than the other. *)
Theorem Less_strict_total_order :
  (forall a, Less a a = false)
  /\ (forall a b, Less a b = true -> Less b a = false)
  /\ (forall a b c, Less a b = true -> Less b c = true -> Less a c = true)
  /\ (forall a b, a <> b -> Less a b = true \/ Less b a = true).
Proof.
  unfold Less. split_and!.
  - intros a. rewrite bytes_Compare_refl. reflexivity.
  - intros a b H. rewrite bytes_Compare_swap. lia.
  - intros a b c Hab Hbc.
    destruct (bytes_Compare_trans a b c) as [_ H]; lia.
  - intros a b Hne.
    destruct (Z.lt_trichotomy (bytes_Compare a b) 0) as [H|[H|H]].
    + left. lia.
    + by apply bytes_Compare_eq in H.
    + right. rewrite bytes_Compare_swap. lia.
Qed.

Lemma bytes_le_Compare (a b : list byte) :
  bytes_le a b <-> bytes_Compare a b <= 0.
Proof.
  unfold bytes_le, Less. rewrite Z.ltb_ge, (bytes_Compare_swap a b). lia.
Qed.

#[global] Instance bytes_le_total : Total bytes_le.
Proof.
  intros a b. rewrite !bytes_le_Compare, (bytes_Compare_swap a b). lia.
Qed.

#[global] Instance bytes_le_trans : Transitive bytes_le.
Proof.
  intros a b c. rewrite !bytes_le_Compare. intros Hab Hbc.
  by destruct (bytes_Compare_trans a b c).
Qed.

#[global] Instance bytes_le_antisymm : AntiSymm eq bytes_le.
Proof.
  intros a b Hab Hba. apply bytes_Compare_eq.
  apply bytes_le_Compare in Hab. apply bytes_le_Compare in Hba.
  rewrite bytes_Compare_swap in Hba. lia.
Qed.

Lemma sorted_lookup (l : ia) (i j : nat) (a b : list byte) :
  StronglySorted bytes_le l -> (i < j)%nat ->
  l !! i = Some a -> l !! j = Some b -> Less b a = false.
Proof.
  intros Hs Hij Ha Hb.
  rewrite <- (take_drop j l) in Hs.
  apply (StronglySorted_app_1_elem_of bytes_le _ _ a b Hs).
  - apply list_elem_of_lookup. exists i. by rewrite lookup_take_lt.
  - apply list_elem_of_lookup. exists 0%nat.
    by rewrite lookup_drop, Nat.add_0_r.
Qed.

(** ** Hex strings *)

Lemma digit_table :
  forallb (fun n =>
             forallb (fun m =>
                        implb (Ascii.eqb (gohex.digit n) (gohex.digit m))
                              (N.eqb n m))
                     (N.of_nat <$> seq 0 16))
          (N.of_nat <$> seq 0 16) = true.
Proof. vm_compute. reflexivity. Qed.

Lemma elem_of_digits (n : N) : (n < 16)%N -> In n (N.of_nat <$> seq 0 16).
Proof.
  intros Hn. apply list_elem_of_In, list_elem_of_fmap.
  exists (N.to_nat n). split; [by rewrite N2Nat.id|].
  apply elem_of_seq. lia.
Qed.

Lemma digit_inj (n m : N) :
  (n < 16)%N -> (m < 16)%N -> gohex.digit n = gohex.digit m -> n = m.
Proof.
  intros Hn Hm Heq. pose proof digit_table as H.
  rewrite forallb_forall in H. specialize (H n (elem_of_digits n Hn)).
  rewrite forallb_forall in H. specialize (H m (elem_of_digits m Hm)).
  apply Ascii.eqb_eq in Heq. rewrite Heq in H. by apply N.eqb_eq.
Qed.

Lemma hex_injective (l1 l2 : list byte) :
  gohex.EncodeToString l1 = gohex.EncodeToString l2 -> l1 = l2.
Proof.
  revert l2; induction l1 as [|a l1 IH]; intros [|b l2] H;
    cbn [gohex.EncodeToString] in H; try discriminate; [reflexivity|].
  apply String_eq_inv in H as [H1 H].
  apply String_eq_inv in H as [H2 H].
  pose proof (byte_to_N_bound a) as Ba. pose proof (byte_to_N_bound b) as Bb.
  apply digit_inj in H1; [|by apply byte_quot_bound..].
  apply digit_inj in H2; [|by apply N.mod_upper_bound..].
  f_equal; [|by apply IH].
  apply byte_to_N_inj. by apply (rebuild _ _ 16).
Qed.

(** ** The operations one after another *)

Lemma client_Delete_untroubled (key : string) (w : world) :
  untroubled w ->
  exists w',
    client_Delete key w
    = (Normal (if bool_decide (is_Some (items w !! key)) then None
               else Some (McError "NOT FOUND")), w')
    /\ items w' = delete key (items w)
    /\ now w' = now w /\ calls w' = calls w /\ untroubled w'.
Proof.
  intros Hw. destruct w as [it t acq fl cs]. destruct Hw as [Ha Hf].
  simpl in *. subst. unfold client_Delete, next_failure. simpl.
  destruct (it !! key) as [v|] eqn:Hk.
  - rewrite bool_decide_eq_true_2 by eauto. eexists. split; [reflexivity|].
    simpl. repeat split.
  - rewrite bool_decide_eq_false_2 by (intros [? ?]; discriminate).
    eexists. split; [reflexivity|]. simpl.
    split; [by rewrite delete_id | repeat split].
Qed.

Lemma client_Get_string_untroubled (key : string) (w : world) :
  untroubled w ->
  client_Get_string key w =
    (Normal match items w !! key with
            | Some (Vstring str) => (str, None)
            | None => (EmptyString, Some (McError "NOT FOUND"))
            | Some _ => (EmptyString, Some (McError gob_mismatch))
            end, w).
Proof.
  intros Hw. destruct w as [it t acq fl cs]. destruct Hw as [Ha Hf].
  simpl in *. subst. unfold client_Get_string, next_failure. simpl.
  destruct (it !! key) as [[rec|arr|str]|]; reflexivity.
Qed.

Lemma client_Set_untroubled (key : string) (val : value) (ttl : Z) (w : world) :
  untroubled w ->
  exists w',
    client_Set key val ttl w = (Normal None, w')
    /\ items w' = <[key := val]> (items w)
    /\ now w' = now w /\ untroubled w'.
Proof.
  intros Hw. destruct w as [it t acq fl cs]. destruct Hw as [Ha Hf].
  simpl in *. subst. eexists. split; [reflexivity|]. simpl. repeat split.
Qed.

Lemma getClient_untroubled' (w : world) :
  untroubled w ->
  exists w',
    getClient w = (Normal None, w')
    /\ items w' = items w /\ now w' = now w /\ untroubled w'.
Proof.
  intros Hw. rewrite getClient_untroubled by assumption.
  eexists. split; [reflexivity|]. repeat split; apply Hw.
Qed.

Lemma stored_chids_lookup (w : world) (uaid : list byte) (chids : ia) :
  stored_chids w uaid = Some chids ->
  items w !! encodeKey uaid = Some (Via chids)
  \/ (items w !! encodeKey uaid = None /\ chids = []).
Proof.
  unfold stored_chids.
  destruct (items w !! encodeKey uaid) as [[rec|arr|str]|]; intros H;
    simplify_eq; eauto.
Qed.

Section Composition.

Variable txt : sperror -> string.
Variable s : EmceeStore.
Variable names : EmceeNames.

Lemma fetchAppIDArray_untroubled_list
    (uaid : list byte) (chids : ia) (w : world) :
  uaid <> [] -> untroubled w ->
  stored_chids w uaid = Some chids -> NoDup chids ->
  fetchAppIDArray txt uaid w
  = (Normal (chids, None),
     record (CallGetIa (encodeKey uaid)) (record CallAcquire w)).
Proof.
  intros Hu Hw Hchids Hnd.
  rewrite fetchAppIDArray_untroubled by assumption.
  destruct (stored_chids_lookup w uaid chids Hchids) as [->|[-> ->]];
    [|reflexivity].
  by rewrite bool_decide_eq_true_2.
Qed.

Lemma Register_untroubled_items
    (uaid chid : list byte) (version : Z) (chids : ia) (w : world) :
  uaid <> [] -> untroubled w ->
  stored_chids w uaid = Some chids -> NoDup chids ->
  exists w',
    Register txt s uaid chid version w = (Normal None, w')
    /\ untroubled w' /\ now w' = now w
    /\ items w' =
       <[encodeKey (toBinaryKey uaid chid).1 :=
           Vcr (if version =? 0 then cr.mk REGISTERED 0 (now w)
                else cr.mk LIVE (uint64 version) (now w))]>
         (if bool_decide (chid ∈ chids) then items w
          else <[encodeKey uaid := Via (sort_Sort (chids ++ [chid]))]> (items w)).
Proof.
  intros Hu Hw Hchids Hnd.
  assert (Hpk : (toBinaryKey uaid chid).1 <> []).
  { intros E. pose proof (toBinaryKey_length uaid chid) as H. by rewrite E in H. }
  unfold Register.
  rewrite length_zero_iff, bool_decide_eq_false_2 by assumption.
  unfold bind at 1.
  rewrite (fetchAppIDArray_untroubled_list uaid chids) by assumption.
  set (w1 := record _ (record _ w)).
  assert (Hw1 : untroubled w1) by exact Hw.
  cbn beta iota. unfold bind at 1.
  assert (Hstep : exists w2,
    (if IndexOf chids chid <? 0
     then storeAppIDArray uaid (chids ++ [chid])
     else ret None) w1 = (Normal None, w2)
    /\ now w2 = now w /\ untroubled w2
    /\ items w2 = if bool_decide (chid ∈ chids) then items w
                  else <[encodeKey uaid := Via (sort_Sort (chids ++ [chid]))]>
                         (items w)).
  { destruct (decide (chid ∈ chids)) as [Hin|Hnin].
    - rewrite bool_decide_eq_true_2 by assumption.
      destruct (IndexOf_present chids chid Hin) as (j & -> & _).
      rewrite (proj2 (Z.ltb_ge _ _)) by lia. by exists w1.
    - rewrite bool_decide_eq_false_2 by assumption.
      replace (IndexOf chids chid <? 0) with true
        by (symmetry; apply Z.ltb_lt; by apply IndexOf_absent).
      destruct (storeAppIDArray_untroubled uaid (chids ++ [chid]) w1)
        as (w2 & -> & Hit & Hn2 & Hw2); [assumption | assumption |].
      by exists w2. }
  destruct Hstep as (w2 & -> & Hn2 & Hw2 & Hit2). cbn beta iota.
  unfold bind at 1, time_Now_Unix. rewrite toBinaryKey_pair.
  rewrite bind_return_error.
  set (rec := if negb (version =? 0) then _ else _).
  destruct (storeRec_untroubled s (toBinaryKey uaid chid).1 rec w2)
    as (w3 & -> & Hit3 & Hn3 & Hw3); [assumption | assumption |].
  exists w3. split; [reflexivity|]. split; [assumption|].
  split; [congruence|]. rewrite Hit3, Hit2. f_equal.
  subst rec. rewrite Hn2. by destruct (version =? 0).
Qed.

Lemma FetchAll_untroubled
    (uaid : list byte) (since : Z) (chids : ia) (w : world) :
  uaid <> [] -> untroubled w ->
  stored_chids w uaid = Some chids -> NoDup chids ->
  exists w',
    FetchAll txt uaid since w
    = (Normal (omap (reported_update w uaid since) chids,
               omap (reported_expired w uaid since) chids, None), w')
    /\ items w' = items w.
Proof.
  intros Hu Hw Hchids Hnd. unfold FetchAll. unfold bind at 1.
  rewrite (fetchAppIDArray_untroubled_list uaid chids) by assumption.
  set (w1 := record _ (record _ w)). cbn beta iota.
  unfold bind at 1. rewrite getClient_untroubled by exact Hw.
  set (w2 := record CallAcquire w1).
  destruct (FetchAll_records_untroubled uaid since chids chids 0 [] [] w2)
    as (w' & Hrun & Hit & _); [exact Hw | reflexivity |].
  exists w'. split; [|exact Hit].
  unfold bind. rewrite Hrun. reflexivity.
Qed.

Lemma record_key_not_list_key (uaid uaid' chid' : list byte) :
  length uaid <> 32%nat ->
  encodeKey (toBinaryKey uaid' chid').1 <> encodeKey uaid.
Proof.
  intros Hlen Heq. apply base64_injective in Heq.
  apply Hlen. rewrite <- Heq. apply toBinaryKey_length.
Qed.

Lemma Unregister_retry_mismatch (attempts : nat) (pk : list byte) (w : world) :
  pk <> [] -> untroubled w ->
  (exists v, items w !! encodeKey pk = Some v /\ forall rec, v <> Vcr rec) ->
  exists w',
    Unregister_retry txt s attempts pk w = (Normal tt, w')
    /\ items w' = items w /\ now w' = now w /\ untroubled w'.
Proof.
  intros Hpk. revert w. induction attempts as [|n IH]; intros w Hw Hv.
  - by exists w.
  - cbn [Unregister_retry]. unfold bind.
    rewrite fetchRec_untroubled by assumption.
    destruct Hv as (v & Hv & Hnot). rewrite Hv.
    destruct v as [rec|arr|str]; [by destruct (Hnot rec)| |].
    + destruct (IH (record (CallGetCr (encodeKey pk)) (record CallAcquire w)))
        as (w' & Hrun & Hit & Hn & Hw'); [exact Hw | by exists (Via arr) |].
      exists w'. split; [exact Hrun | done].
    + destruct (IH (record (CallGetCr (encodeKey pk)) (record CallAcquire w)))
        as (w' & Hrun & Hit & Hn & Hw'); [exact Hw | by exists (Vstring str) |].
      exists w'. split; [exact Hrun | done].
Qed.

Lemma Unregister_untroubled_items
    (uaid chid : list byte) (chids : ia) (w : world) :
  uaid <> [] -> length uaid <> 32%nat -> untroubled w ->
  stored_chids w uaid = Some chids -> NoDup chids -> chid ∈ chids ->
  exists w' l,
    Unregister txt s uaid chid w = (Normal None, w')
    /\ untroubled w' /\ now w' = now w
    /\ NoDup l /\ (forall c, c ∈ l <-> c ∈ chids /\ c <> chid)
    /\ items w' =
       match items w !! encodeKey (toBinaryKey uaid chid).1 with
       | Some (Vcr rec) =>
           <[encodeKey (toBinaryKey uaid chid).1 :=
               Vcr (cr.mk DELETED (cr.V rec) (now w))]>
       | None =>
           <[encodeKey (toBinaryKey uaid chid).1 :=
               Vcr (cr.mk DELETED 0 (now w))]>
       | Some _ => fun m => m
       end (<[encodeKey uaid := Via l]> (items w)).
Proof.
  intros Hu Hlen Hw Hchids Hnd Hin.
  set (pk := (toBinaryKey uaid chid).1).
  assert (Hpk : pk <> []).
  { intros E. pose proof (toBinaryKey_length uaid chid) as H.
    fold pk in H. by rewrite E in H. }
  assert (Hkeys : encodeKey pk <> encodeKey uaid)
    by by apply record_key_not_list_key.
  destruct (IndexOf_present chids chid Hin) as (j & Hj & Hl).
  destruct (remove_elems chids j (lookup_lt_Some _ _ _ Hl))
    as (removed & Hrm & Hel).
  set (l := sort_Sort (elems removed)).
  assert (Hperm : l ≡ₚ elems removed) by apply merge_sort_Permutation.
  assert (Hmem : forall c, c ∈ l <-> c ∈ chids /\ c <> chid).
  { intros c. rewrite Hperm, Hel. by apply elem_of_removed. }
  assert (Hndl : NoDup l).
  { rewrite Hperm, Hel.
    rewrite <- (take_drop_middle chids j chid Hl) in Hnd.
    apply NoDup_app in Hnd as (Hn1 & Hn2 & Hn3).
    apply NoDup_cons in Hn3 as [_ Hn3].
    apply NoDup_app. split_and!; [done | | done].
    intros x Hx Hx'. apply (Hn2 x Hx). by right. }
  unfold Unregister. unfold bind at 1.
  rewrite (fetchAppIDArray_untroubled_list uaid chids) by assumption.
  set (w1 := record _ (record _ w)). cbn beta iota.
  rewrite Hj. rewrite (proj2 (Z.ltb_ge _ _)) by lia.
  rewrite toBinaryKey_pair, Hrm. fold pk. unfold bind at 1.
  destruct (storeAppIDArray_untroubled uaid (elems removed) w1)
    as (w2 & -> & Hit2 & Hn2 & Hw2); [assumption | exact Hw |].
  fold l in Hit2. cbn beta iota.
  assert (Hlook : items w2 !! encodeKey pk = items w !! encodeKey pk).
  { rewrite Hit2. by rewrite lookup_insert_ne. }
  assert (Hitw : items w1 = items w) by reflexivity.
  rewrite Hitw in Hit2.
  assert (Hnw : now w2 = now w) by (rewrite Hn2; reflexivity).
  destruct (items w !! encodeKey pk) as [[rec|arr|str]|] eqn:Hrec.
  - cbn [Unregister_retry]. unfold bind at 1 2.
    rewrite fetchRec_untroubled by assumption. rewrite Hlook.
    cbn beta iota. unfold bind at 1.
    destruct (storeRec_untroubled s pk (cr.mk DELETED (cr.V rec) (cr.L rec))
                (record (CallGetCr (encodeKey pk)) (record CallAcquire w2)))
      as (w3 & -> & Hit3 & Hn3 & Hw3); [assumption | exact Hw2 |].
    change (items (record _ (record _ w2))) with (items w2) in Hit3.
    change (now (record _ (record _ w2))) with (now w2) in Hit3, Hn3.
    exists w3, l. split; [reflexivity|].
    split_and!; try done; [congruence|].
    rewrite Hit3, Hit2. cbn [cr.S cr.V]. by rewrite Hnw.
  - destruct (Unregister_retry_mismatch 3 pk w2) as (w3 & Hrun & Hit3 & Hn3 & Hw3);
      [assumption | assumption | exists (Via arr); by rewrite Hlook |].
    unfold bind. rewrite Hrun. exists w3, l. split; [reflexivity|].
    split_and!; try done; congruence.
  - destruct (Unregister_retry_mismatch 3 pk w2) as (w3 & Hrun & Hit3 & Hn3 & Hw3);
      [assumption | assumption | exists (Vstring str); by rewrite Hlook |].
    unfold bind. rewrite Hrun. exists w3, l. split; [reflexivity|].
    split_and!; try done; congruence.
  - cbn [Unregister_retry]. unfold bind at 1 2.
    rewrite fetchRec_untroubled by assumption. rewrite Hlook.
    cbn beta iota. unfold bind at 1.
    destruct (storeRec_untroubled s pk (cr.mk DELETED (cr.V cr.zero) (cr.L cr.zero))
                (record (CallGetCr (encodeKey pk)) (record CallAcquire w2)))
      as (w3 & -> & Hit3 & Hn3 & Hw3); [assumption | exact Hw2 |].
    change (items (record _ (record _ w2))) with (items w2) in Hit3.
    change (now (record _ (record _ w2))) with (now w2) in Hit3, Hn3.
    exists w3, l. split; [reflexivity|].
    split_and!; try done; [congruence|].
    rewrite Hit3, Hit2. cbn [cr.S cr.V cr.zero]. by rewrite Hnw.
Qed.

Lemma stored_chids_insert_list (uaid : list byte) (l : ia) (m : gmap string value)
    (w : world) :
  items w = <[encodeKey uaid := Via l]> m -> stored_chids w uaid = Some l.
Proof. intros H. unfold stored_chids. by rewrite H, lookup_insert_eq. Qed.

Lemma stored_chids_insert_record (uaid pk : list byte) (v : value)
    (m : gmap string value) (w : world) :
  encodeKey pk <> encodeKey uaid ->
  items w = <[encodeKey pk := v]> m ->
  stored_chids w uaid
  = match m !! encodeKey uaid with
    | Some (Via arr) => Some arr
    | None => Some []
    | Some _ => None
    end.
Proof.
  intros Hne H. unfold stored_chids. by rewrite H, lookup_insert_ne.
Qed.

Lemma stored_record_insert (uaid chid : list byte) (rec : cr.t)
    (m : gmap string value) (w : world) :
  items w = <[encodeKey (toBinaryKey uaid chid).1 := Vcr rec]> m ->
  stored_record w uaid chid = Some rec.
Proof. intros H. unfold stored_record. by rewrite H, lookup_insert_eq. Qed.

(** X11: in a world without failures, [Register] on a device whose ID is
    not 32 bytes long returns nil, leaves the device's list holding the
    channel IDs it held and the new one, without repetition, and stores the
    record of the channel: REGISTERED with version 0 for a version of 0,
    LIVE with the version otherwise, both touched now. *)
Theorem Register_adds_channel
    (uaid chid : list byte) (version : Z) (chids : ia) (w : world) :
  uaid <> [] -> length uaid <> 32%nat -> untroubled w ->
  stored_chids w uaid = Some chids -> NoDup chids ->
  exists w' l,
    Register txt s uaid chid version w = (Normal None, w')
    /\ stored_chids w' uaid = Some l
    /\ NoDup l
    /\ (forall c, c ∈ l <-> c ∈ chids \/ c = chid)
    /\ (chid ∈ chids -> l = chids)
    /\ stored_record w' uaid chid
       = Some (if version =? 0 then cr.mk REGISTERED 0 (now w)
               else cr.mk LIVE (uint64 version) (now w)).
Proof.
  intros Hu Hlen Hw Hchids Hnd.
  destruct (Register_untroubled_items uaid chid version chids w)
    as (w' & Hrun & Hw' & Hnow & Hit); try assumption.
  assert (Hkeys : encodeKey (toBinaryKey uaid chid).1 <> encodeKey uaid)
    by by apply record_key_not_list_key.
  destruct (decide (chid ∈ chids)) as [Hin|Hin].
  - rewrite bool_decide_eq_true_2 in Hit by assumption.
    exists w', chids. split_and!; try done.
    + rewrite (stored_chids_insert_record _ _ _ _ _ Hkeys Hit). exact Hchids.
    + intros c. split; [by left|]. intros [H| ->]; assumption.
    + by apply (stored_record_insert _ _ _ _ _ Hit).
  - rewrite bool_decide_eq_false_2 in Hit by assumption.
    set (l := sort_Sort (chids ++ [chid])) in *.
    assert (Hperm : l ≡ₚ chids ++ [chid]) by apply merge_sort_Permutation.
    exists w', l. split_and!; try done.
    + rewrite (stored_chids_insert_record _ _ _ _ _ Hkeys Hit).
      by rewrite lookup_insert_eq.
    + rewrite Hperm. apply NoDup_app. split_and!; [done | | apply NoDup_singleton].
      intros x Hx Hx'. apply list_elem_of_singleton in Hx'. by subst.
    + intros c. rewrite Hperm, elem_of_app, list_elem_of_singleton. tauto.
    + by apply (stored_record_insert _ _ _ _ _ Hit).
Qed.

Lemma Update_untroubled_overwrite
    (uaid chid : list byte) (version : Z) (rec : cr.t) (w : world) :
  uaid <> [] -> chid <> [] -> untroubled w ->
  stored_record w uaid chid = Some rec -> cr.S rec <> DELETED ->
  exists w',
    Update txt s uaid chid version w = (Normal None, w')
    /\ untroubled w' /\ now w' = now w
    /\ items w' = <[encodeKey (toBinaryKey uaid chid).1 :=
                      Vcr (cr.mk LIVE (uint64 version) (now w))]> (items w).
Proof.
  intros Hu Hc Hw Hrec Hlive.
  rewrite Update_untroubled by assumption. cbv zeta.
  unfold stored_record in Hrec.
  destruct (items w !! encodeKey (toBinaryKey uaid chid).1) as [[r| |]|];
    try discriminate.
  injection Hrec as ->.
  rewrite (proj2 (Z.eqb_neq _ _) Hlive).
  set (pk := (toBinaryKey uaid chid).1).
  assert (Hpk : pk <> []).
  { intros E. pose proof (toBinaryKey_length uaid chid) as H.
    fold pk in H. by rewrite E in H. }
  destruct (storeRec_untroubled s pk (cr.mk LIVE (uint64 version) (now w))
              (record (CallGetCr (encodeKey pk)) (record CallAcquire w)))
    as (w' & Hrun & Hit & Hn & Hw'); [assumption | exact Hw |].
  exists w'. by split_and!.
Qed.

(** [Update] does not compare versions. On a record that is not
    DELETED two updates one after the other leave the version of the
    second, reduced modulo 2^64, whether it is larger than the first or
    not. *)
Lemma Update_keeps_last_version
    (uaid chid : list byte) (v1 v2 : Z) (rec : cr.t) (w : world) :
  uaid <> [] -> chid <> [] -> untroubled w ->
  stored_record w uaid chid = Some rec -> cr.S rec <> DELETED ->
  exists w1 w2,
    Update txt s uaid chid v1 w = (Normal None, w1)
    /\ Update txt s uaid chid v2 w1 = (Normal None, w2)
    /\ stored_record w2 uaid chid = Some (cr.mk LIVE (v2 mod 2 ^ 64) (now w)).
Proof.
  intros Hu Hc Hw Hrec Hlive.
  destruct (Update_untroubled_overwrite uaid chid v1 rec w)
    as (w1 & Hrun1 & Hw1 & Hn1 & Hit1); try assumption.
  destruct (Update_untroubled_overwrite uaid chid v2
              (cr.mk LIVE (uint64 v1) (now w)) w1)
    as (w2 & Hrun2 & Hw2 & Hn2 & Hit2); try assumption.
  { by apply (stored_record_insert _ _ _ _ _ Hit1). }
  { done. }
  exists w1, w2. split_and!; try done.
  rewrite Hn1 in Hit2. by apply (stored_record_insert _ _ _ _ _ Hit2).
Qed.

(** X12: a channel registered without a version and then updated is
    reported by [FetchAll]. Before the update the channel is REGISTERED and
    [FetchAll] leaves it out; after it the updates hold the channel with
    the version, for every cutoff up to the current time. *)
Theorem registered_updated_channel_is_reported
    (uaid chid : list byte) (version since : Z) (chids : ia) (w : world) :
  uaid <> [] -> chid <> [] -> length uaid <> 32%nat -> untroubled w ->
  stored_chids w uaid = Some chids -> NoDup chids ->
  since <= now w -> uint64 version <> 0 ->
  exists w1 w2 before updates expired,
    Register txt s uaid chid 0 w = (Normal None, w1)
    /\ (FetchAll txt uaid since w1).1 = Normal (before, expired, None)
    /\ (forall u, u ∈ before -> ChannelID u <> gohex.EncodeToString chid)
    /\ Update txt s uaid chid version w1 = (Normal None, w2)
    /\ (FetchAll txt uaid since w2).1 = Normal (updates, expired, None)
    /\ Build_storage_Update (gohex.EncodeToString chid) (uint64 version)
         ∈ updates.
Proof.
  intros Hu Hc Hlen Hw Hchids Hnd Hsince Hv.
  assert (Hkeys : encodeKey (toBinaryKey uaid chid).1 <> encodeKey uaid)
    by by apply record_key_not_list_key.
  destruct (Register_untroubled_items uaid chid 0 chids w)
    as (w1 & Hrun1 & Hw1 & Hn1 & Hit1); try assumption.
  change (0 =? 0) with true in Hit1. cbv iota in Hit1.
  set (l := if bool_decide (chid ∈ chids) then chids
            else sort_Sort (chids ++ [chid])).
  assert (Hl1 : stored_chids w1 uaid = Some l).
  { rewrite (stored_chids_insert_record _ _ _ _ _ Hkeys Hit1). unfold l.
    case_bool_decide; [exact Hchids | by rewrite lookup_insert_eq]. }
  assert (Hperm : sort_Sort (chids ++ [chid]) ≡ₚ chids ++ [chid])
    by apply merge_sort_Permutation.
  assert (Hin : chid ∈ l).
  { unfold l. case_bool_decide; [assumption|].
    rewrite Hperm.
    apply elem_of_app. right. by apply list_elem_of_singleton. }
  assert (Hndl : NoDup l).
  { unfold l. case_bool_decide; [assumption|].
    rewrite Hperm.
    apply NoDup_app. split_and!; [done | | apply NoDup_singleton].
    intros x Hx Hx'. apply list_elem_of_singleton in Hx'. by subst. }
  assert (Hrec1 : stored_record w1 uaid chid = Some (cr.mk REGISTERED 0 (now w)))
    by by apply (stored_record_insert _ _ _ _ _ Hit1).
  destruct (Update_untroubled_overwrite uaid chid version
              (cr.mk REGISTERED 0 (now w)) w1)
    as (w2 & Hrun2 & Hw2 & Hn2 & Hit2); try assumption; [done|].
  assert (Hl2 : stored_chids w2 uaid = Some l).
  { rewrite (stored_chids_insert_record _ _ _ _ _ Hkeys Hit2). exact Hl1. }
  assert (Hrec2 : stored_record w2 uaid chid
                  = Some (cr.mk LIVE (uint64 version) (now w))).
  { rewrite Hn1 in Hit2. by apply (stored_record_insert _ _ _ _ _ Hit2). }
  destruct (FetchAll_untroubled uaid since l w1) as (w1' & Hf1 & _);
    try assumption.
  destruct (FetchAll_untroubled uaid since l w2) as (w2' & Hf2 & _);
    try assumption.
  assert (Hexp : omap (reported_expired w2 uaid since) l
                 = omap (reported_expired w1 uaid since) l).
  { apply list_omap_ext. apply Forall_Forall2_diag, Forall_forall. intros c _.
    unfold reported_expired, stored_record. rewrite Hit2.
    destruct (decide (encodeKey (toBinaryKey uaid c).1
                      = encodeKey (toBinaryKey uaid chid).1)) as [E|E].
    - rewrite E, lookup_insert_eq. fold (stored_record w1 uaid chid).
      rewrite Hrec1. cbn [cr.S cr.L].
      change (REGISTERED =? DELETED) with false.
      change (LIVE =? DELETED) with false.
      by rewrite !andb_false_r.
    - by rewrite lookup_insert_ne. }
  exists w1, w2, (omap (reported_update w1 uaid since) l),
    (omap (reported_update w2 uaid since) l),
    (omap (reported_expired w1 uaid since) l).
  split_and!.
  - exact Hrun1.
  - by rewrite Hf1.
  - intros u Hu' Heq. apply list_elem_of_omap in Hu' as (c & Hcl & Hup).
    unfold reported_update in Hup.
    destruct (stored_record w1 uaid c) as [r|] eqn:Hr; [|discriminate].
    destruct ((since <=? cr.L r) && (cr.S r =? LIVE)) eqn:Hb; [|discriminate].
    injection Hup as <-. cbn [ChannelID] in Heq.
    apply hex_injective in Heq. subst c.
    rewrite Hrec1 in Hr. injection Hr as <-.
    cbn [cr.S] in Hb. change (REGISTERED =? LIVE) with false in Hb.
    by rewrite andb_false_r in Hb.
  - exact Hrun2.
  - rewrite Hf2. by rewrite Hexp.
  - apply list_elem_of_omap. exists chid. split; [exact Hin|].
    unfold reported_update. rewrite Hrec2. cbn [cr.S cr.L cr.V].
    rewrite (proj2 (Z.leb_le _ _) Hsince).
    change (LIVE =? LIVE) with true. cbn [andb].
    by rewrite (proj2 (Z.eqb_neq _ _) Hv).
Qed.

(** X13: in a world without failures, [Unregister] of a listed channel
    returns nil, takes the channel ID off the device's list and marks its
    record DELETED, keeping the version. [FetchAll] walks the list, so
    afterwards it reports the channel neither as an update nor as
    expired. *)
Theorem unregistered_channel_is_not_reported
    (uaid chid : list byte) (since : Z) (chids : ia) (rec : cr.t) (w : world) :
  uaid <> [] -> length uaid <> 32%nat -> untroubled w ->
  stored_chids w uaid = Some chids -> NoDup chids -> chid ∈ chids ->
  stored_record w uaid chid = Some rec ->
  exists w' l updates expired,
    Unregister txt s uaid chid w = (Normal None, w')
    /\ stored_chids w' uaid = Some l
    /\ (forall c, c ∈ l <-> c ∈ chids /\ c <> chid)
    /\ stored_record w' uaid chid = Some (cr.mk DELETED (cr.V rec) (now w))
    /\ (FetchAll txt uaid since w').1 = Normal (updates, expired, None)
    /\ (chid ∉ expired)
    /\ (forall u, u ∈ updates -> ChannelID u <> gohex.EncodeToString chid).
Proof.
  intros Hu Hlen Hw Hchids Hnd Hin Hrec.
  assert (Hkeys : encodeKey (toBinaryKey uaid chid).1 <> encodeKey uaid)
    by by apply record_key_not_list_key.
  destruct (Unregister_untroubled_items uaid chid chids w)
    as (w' & l & Hrun & Hw' & Hn & Hndl & Hmem & Hit); try assumption.
  unfold stored_record in Hrec.
  destruct (items w !! encodeKey (toBinaryKey uaid chid).1) as [[r| |]|];
    try discriminate.
  injection Hrec as ->.
  assert (Hl : stored_chids w' uaid = Some l).
  { rewrite (stored_chids_insert_record _ _ _ _ _ Hkeys Hit).
    by rewrite lookup_insert_eq. }
  destruct (FetchAll_untroubled uaid since l w') as (w'' & Hf & _);
    try assumption.
  exists w', l, (omap (reported_update w' uaid since) l),
    (omap (reported_expired w' uaid since) l).
  split_and!; try done.
  - by apply (stored_record_insert _ _ _ _ _ Hit).
  - by rewrite Hf.
  - intros Hex. apply list_elem_of_omap in Hex as (c & Hcl & Hex).
    unfold reported_expired in Hex.
    destruct (stored_record w' uaid c); [|discriminate].
    destruct (andb _ _); [|discriminate].
    injection Hex as ->. by apply Hmem in Hcl as [_ Hne].
  - intros u Hu' Heq. apply list_elem_of_omap in Hu' as (c & Hcl & Hup).
    unfold reported_update in Hup.
    destruct (stored_record w' uaid c); [|discriminate].
    destruct (andb _ _); [|discriminate].
    injection Hup as <-. cbn [ChannelID] in Heq.
    apply hex_injective in Heq. subst c. by apply Hmem in Hcl as [_ Hne].
Qed.

(** X14: a list of channel IDs that [storeAppIDArray] has written is
    stored in ascending order of [bytes.Compare]: it holds the channel IDs
    given, as often as given, and no channel ID is [Less] than one before
    it. The stored list depends on the channel IDs only, not on the order
    they came in. *)
Theorem storeAppIDArray_stores_sorted
    (uaid : list byte) (arr : ia) (w w' : world) :
  storeAppIDArray uaid arr w = (Normal None, w') ->
  exists l,
    stored_chids w' uaid = Some l
    /\ l ≡ₚ arr
    /\ (forall i j a b, (i < j)%nat -> l !! i = Some a -> l !! j = Some b ->
          Less b a = false)
    /\ (forall arr' w1 w1',
          arr' ≡ₚ arr ->
          storeAppIDArray uaid arr' w1 = (Normal None, w1') ->
          stored_chids w1' uaid = Some l).
Proof.
  intros Hrun.
  destruct (storeAppIDArray_result uaid arr w) as (e & w0 & Hrun' & _ & Hit).
  rewrite Hrun in Hrun'. injection Hrun' as <- <-.
  specialize (Hit eq_refl).
  exists (sort_Sort arr). split_and!.
  - by apply (stored_chids_insert_list _ _ _ _ Hit).
  - apply merge_sort_Permutation.
  - intros i j a b. apply sorted_lookup.
    apply (StronglySorted_merge_sort bytes_le).
  - intros arr' w1 w1' Hperm Hrun1.
    destruct (storeAppIDArray_result uaid arr' w1)
      as (e & w0 & Hrun' & _ & Hit').
    rewrite Hrun1 in Hrun'. injection Hrun' as <- <-.
    specialize (Hit' eq_refl).
    rewrite (stored_chids_insert_list _ _ _ _ Hit'). f_equal.
    apply (StronglySorted_unique bytes_le).
    + apply (StronglySorted_merge_sort bytes_le).
    + apply (StronglySorted_merge_sort bytes_le).
    + unfold sort_Sort. by rewrite !merge_sort_Permutation.
Qed.

(** X15: a record written by [storeRec] is read back by [fetchRec] with
    its state and version; its time of last touch is the time of the
    write, whatever the record passed in says. *)
Theorem storeRec_fetchRec_round_trip (pk : list byte) (rec : cr.t) (w : world) :
  pk <> [] -> untroubled w ->
  exists w1 w2,
    storeRec s pk (Some rec) w = (Normal None, w1)
    /\ fetchRec txt pk w1
       = (Normal (Some (cr.mk (cr.S rec) (cr.V rec) (now w)), None), w2)
    /\ items w2 = items w1.
Proof.
  intros Hpk Hw.
  destruct (storeRec_untroubled s pk rec w) as (w1 & Hrun & Hit & Hn & Hw1);
    try assumption.
  exists w1, (record (CallGetCr (encodeKey pk)) (record CallAcquire w1)).
  split_and!; [exact Hrun | | reflexivity].
  rewrite fetchRec_untroubled by assumption.
  by rewrite Hit, lookup_insert_eq.
Qed.

Lemma storeRec_failed_set
    (pk : list byte) (rec : cr.t) (msg : string) (rest : list (option string))
    (w : world) :
  pk <> [] -> acquisitions w = [] -> failures w = Some msg :: rest ->
  exists w',
    storeRec s pk (Some rec) w = (Normal None, w')
    /\ items w' = items w /\ failures w' = rest.
Proof.
  intros Hpk Hacq Hfail. unfold storeRec.
  rewrite length_zero_iff, bool_decide_eq_false_2 by assumption.
  destruct w as [it t acq fl cs]. simpl in *. subst.
  eexists. split; [reflexivity|]. by split.
Qed.

(** X16: [storeRec] returns the error of the pool and no other. When the
    pool hands out a client and [client.Set] fails, [storeRec] returns nil
    and memcached holds what it held. *)
Theorem storeRec_hides_failed_write (pk : list byte) (rec : cr.t) (w : world) :
  pk <> [] ->
  exists e w',
    storeRec s pk (Some rec) w = (Normal e, w')
    /\ (e = None \/ e = Some io_EOF \/ e = Some ErrPoolSaturated)
    /\ (forall msg rest,
          acquisitions w = [] -> failures w = Some msg :: rest ->
          e = None /\ items w' = items w).
Proof.
  intros Hpk.
  destruct (storeRec_effect s pk rec w Hpk) as (e & w' & added & Hrun & _).
  exists e, w'. split; [exact Hrun|].
  split.
  - revert Hrun. unfold storeRec.
    rewrite length_zero_iff, bool_decide_eq_false_2 by assumption.
    unfold bind at 1. unfold time_Now_Unix at 1. unfold bind at 1.
    destruct (getClient_effect w) as (e0 & w1 & Hget & _ & _ & _ & He).
    rewrite Hget. destruct e0 as [e0|].
    + intros [= <- <-]. destruct He as [?|[?|?]]; simplify_eq; auto.
    + unfold bind. destruct (client_Set _ _ _ w1) as [[e1|] w2];
        intros [= <- <-]; by left.
  - intros msg rest Hacq Hfail.
    destruct (storeRec_failed_set pk rec msg rest w) as (w0 & Hrun' & Hit & _);
      try assumption.
    rewrite Hrun in Hrun'. by injection Hrun' as -> ->.
Qed.

(** X17: [Register] reports success when the write of the record failed.
    For a channel the device's list holds already, with the pool handing
    out clients and the read of the list going through, a failing
    [client.Set] leaves memcached as it was and [Register] returns nil. *)
Theorem Register_succeeds_on_failed_write
    (uaid chid : list byte) (version : Z) (chids : ia) (msg : string)
    (rest : list (option string)) (w : world) :
  uaid <> [] -> acquisitions w = [] -> failures w = None :: Some msg :: rest ->
  items w !! encodeKey uaid = Some (Via chids) -> NoDup chids -> chid ∈ chids ->
  exists w',
    Register txt s uaid chid version w = (Normal None, w')
    /\ items w' = items w.
Proof.
  intros Hu Hacq Hfail Hlist Hnd Hin.
  set (w1 := World (items w) (now w) [] (Some msg :: rest)
               (CallGetIa (encodeKey uaid) :: CallAcquire :: calls w)).
  assert (Hfetch : fetchAppIDArray txt uaid w = (Normal (chids, None), w1)).
  { unfold fetchAppIDArray.
    rewrite length_zero_iff, bool_decide_eq_false_2 by assumption.
    subst w1. destruct w as [it t acq fl cs]. simpl in *. subst.
    unfold bind, getClient, client_Get_ia, next_failure. simpl.
    rewrite Hlist, pare_result, bool_decide_eq_true_2 by assumption.
    unfold elems, slice_of; simpl. by rewrite firstn_all. }
  unfold Register.
  rewrite length_zero_iff, bool_decide_eq_false_2 by assumption.
  unfold bind at 1. rewrite Hfetch. cbn beta iota.
  destruct (IndexOf_present chids chid Hin) as (j & -> & _).
  rewrite (proj2 (Z.ltb_ge _ _)) by lia.
  unfold bind at 1. unfold ret at 1. cbn beta iota.
  unfold bind at 1. unfold time_Now_Unix at 1. cbn beta iota.
  rewrite toBinaryKey_pair.
  set (pk := (toBinaryKey uaid chid).1).
  assert (Hpk : pk <> []).
  { intros E. pose proof (toBinaryKey_length uaid chid) as H.
    fold pk in H. by rewrite E in H. }
  destruct (storeRec_failed_set pk
              (if negb (version =? 0)
               then cr.mk LIVE (uint64 version) (cr.L (cr.mk REGISTERED 0 (now w1)))
               else cr.mk REGISTERED 0 (now w1)) msg rest w1)
    as (w' & Hrun & Hit & _); [assumption | reflexivity | reflexivity |].
  exists w'. unfold bind. rewrite Hrun. by split.
Qed.

Lemma isMissing_not_found : isMissing txt (McError "NOT FOUND") = true.
Proof. reflexivity. Qed.

Lemma isMissing_pool_errors :
  isMissing txt io_EOF = false /\ isMissing txt ErrPoolSaturated = false.
Proof. split; reflexivity. Qed.

(** X18: [Drop] deletes the record of the channel and nothing else: the
    channel ID stays on the device's list. A record that is not there is
    no error, and in no world does [Drop] return a missing-key error. *)
Theorem Drop_deletes_record_only (uaid chid : list byte) (w : world) :
  (exists e w',
     Drop txt uaid chid w = (Normal e, w')
     /\ forall err, e = Some err -> isMissing txt err = false)
  /\ (untroubled w ->
      exists w',
        Drop txt uaid chid w = (Normal None, w')
        /\ items w' = delete (encodeKey (toBinaryKey uaid chid).1) (items w)
        /\ stored_record w' uaid chid = None).
Proof.
  split.
  - unfold Drop. unfold bind at 1.
    destruct (getClient_effect w) as (e & w1 & Hget & _ & _ & _ & He).
    rewrite Hget. destruct e as [e|].
    + exists (Some e), w1. split; [reflexivity|]. intros err [= <-].
      destruct He as [?|[?|?]]; simplify_eq; reflexivity.
    + rewrite toBinaryKey_pair. unfold bind.
      destruct (client_Delete _ w1) as [[[e|]|] w2] eqn:Hdel.
      * destruct (isMissing txt e) eqn:Hm.
        -- exists None, w2. split; [reflexivity|]. discriminate.
        -- exists (Some e), w2. split; [reflexivity|]. by intros err [= <-].
      * exists None, w2. split; [reflexivity|]. discriminate.
      * unfold client_Delete in Hdel. repeat case_match; discriminate.
  - intros Hw. unfold Drop. unfold bind at 1.
    rewrite getClient_untroubled by assumption.
    rewrite toBinaryKey_pair. unfold bind.
    destruct (client_Delete_untroubled (encodeKey (toBinaryKey uaid chid).1)
                (record CallAcquire w)) as (w' & -> & Hit & _); [exact Hw|].
    exists w'. case_bool_decide.
    + split; [reflexivity|]. split; [exact Hit|].
      unfold stored_record. by rewrite Hit, lookup_delete_eq.
    + rewrite isMissing_not_found. split; [reflexivity|]. split; [exact Hit|].
      unfold stored_record. by rewrite Hit, lookup_delete_eq.
Qed.

Lemma DropAll_records_untroubled (uaid : list byte) (chids : ia) (w : world) :
  untroubled w ->
  exists w',
    DropAll_records uaid chids w = (Normal None, w')
    /\ untroubled w' /\ now w' = now w
    /\ (forall c, c ∈ chids ->
          items w' !! encodeKey (toBinaryKey uaid c).1 = None)
    /\ (forall k, (forall c, c ∈ chids -> k <> encodeKey (toBinaryKey uaid c).1) ->
          items w' !! k = items w !! k)
    /\ (forall k, items w !! k = None -> items w' !! k = None).
Proof.
  revert w. induction chids as [|chid chids IH]; intros w Hw.
  - exists w. split_and!; try done. intros c Hc. by apply elem_of_nil in Hc.
  - cbn [DropAll_records]. rewrite toBinaryKey_pair. unfold bind.
    destruct (client_Delete_untroubled (encodeKey (toBinaryKey uaid chid).1) w)
      as (w1 & -> & Hit1 & Hn1 & _ & Hw1); [exact Hw|].
    destruct (IH w1 Hw1) as (w' & Hrun & Hw' & Hn & Hgone & Hkept & Hnone).
    exists w'. split_and!; try done; [congruence | | |].
    + intros c Hc. apply elem_of_cons in Hc as [->|Hc]; [|by apply Hgone].
      apply Hnone. by rewrite Hit1, lookup_delete_eq.
    + intros k Hk. rewrite Hkept.
      * rewrite Hit1. apply lookup_delete_ne. intros E.
        apply (Hk chid); [by left | done].
      * intros c Hc. apply Hk. by right.
    + intros k Hk. apply Hnone. rewrite Hit1.
      destruct (decide (encodeKey (toBinaryKey uaid chid).1 = k)) as [<-|E];
        [by rewrite lookup_delete_eq | by rewrite lookup_delete_ne].
Qed.

(** X19: in a world without failures, [DropAll] returns nil and deletes
    the records of the channels on the device's list, the list and the
    host entry of the device. Every other item stays, the records of
    channels that are off the list among them. Afterwards [FetchAll]
    reports nothing for the device. *)
Theorem DropAll_deletes_listed_records
    (uaid : list byte) (since : Z) (chids : ia) (w : world) :
  uaid <> [] -> untroubled w ->
  stored_chids w uaid = Some chids -> NoDup chids ->
  exists w',
    DropAll txt names uaid w = (Normal None, w')
    /\ (forall c, c ∈ chids -> stored_record w' uaid c = None)
    /\ items w' !! encodeKey uaid = None
    /\ items w' !! (HostPrefix names +:+ gohex.EncodeToString uaid) = None
    /\ (forall k,
          k <> encodeKey uaid ->
          k <> HostPrefix names +:+ gohex.EncodeToString uaid ->
          (forall c, c ∈ chids -> k <> encodeKey (toBinaryKey uaid c).1) ->
          items w' !! k = items w !! k)
    /\ (FetchAll txt uaid since w').1 = Normal ([], [], None).
Proof.
  intros Hu Hw Hchids Hnd. unfold DropAll. unfold bind at 1.
  rewrite (fetchAppIDArray_untroubled_list uaid chids) by assumption.
  set (w1 := record _ (record _ w)). cbn beta iota.
  unfold bind at 1. rewrite getClient_untroubled by exact Hw.
  set (w2 := record CallAcquire w1).
  destruct (DropAll_records_untroubled uaid chids w2 Hw)
    as (w3 & Hrun & Hw3 & Hn3 & Hgone & Hkept & Hnone).
  unfold bind at 1. rewrite Hrun. cbn beta iota.
  destruct (client_Delete_untroubled (encodeKey uaid) w3 Hw3)
    as (w4 & Hdel4 & Hit4 & Hn4 & _ & Hw4).
  destruct (client_Delete_untroubled
              (HostPrefix names +:+ gohex.EncodeToString uaid) w4 Hw4)
    as (w5 & Hdel5 & Hit5 & Hn5 & _ & Hw5).
  assert (Hres : (do err <- client_Delete (encodeKey uaid);
                  let failed :=
                    match err with
                    | Some err => negb (isMissing txt err)
                    | None => false
                    end in
                  if failed then ret err
                  else
                    do err <- client_Delete
                                (HostPrefix names +:+ gohex.EncodeToString uaid);
                    let failed :=
                      match err with
                      | Some err => negb (isMissing txt err)
                      | None => false
                      end in
                    if failed then ret err else ret None) w3
                 = (Normal None, w5)).
  { unfold bind at 1. rewrite Hdel4.
    assert (Hok : (let failed :=
                     match (if bool_decide (is_Some (items w3 !! encodeKey uaid))
                            then None else Some (McError "NOT FOUND")) with
                     | Some err => negb (isMissing txt err)
                     | None => false
                     end in failed) = false)
      by (destruct (bool_decide _); reflexivity).
    cbv zeta in Hok. rewrite Hok. unfold bind. rewrite Hdel5.
    destruct (bool_decide (is_Some (items w4 !! _))); reflexivity. }
  exists w5. split; [exact Hres|].
  assert (Hlist : items w5 !! encodeKey uaid = None).
  { rewrite Hit5.
    destruct (decide (HostPrefix names +:+ gohex.EncodeToString uaid
                      = encodeKey uaid)) as [->|E];
      [by rewrite lookup_delete_eq|].
    rewrite lookup_delete_ne by done. by rewrite Hit4, lookup_delete_eq. }
  split_and!.
  - intros c Hc. unfold stored_record.
    assert (items w5 !! encodeKey (toBinaryKey uaid c).1 = None) as ->; [|done].
    rewrite Hit5.
    destruct (decide (HostPrefix names +:+ gohex.EncodeToString uaid
                      = encodeKey (toBinaryKey uaid c).1)) as [->|E];
      [by rewrite lookup_delete_eq|].
    rewrite lookup_delete_ne by done. rewrite Hit4.
    destruct (decide (encodeKey uaid = encodeKey (toBinaryKey uaid c).1))
      as [->|E']; [by rewrite lookup_delete_eq|].
    rewrite lookup_delete_ne by done. by apply Hgone.
  - exact Hlist.
  - by rewrite Hit5, lookup_delete_eq.
  - intros k Hk1 Hk2 Hk3.
    rewrite Hit5, lookup_delete_ne by done.
    rewrite Hit4, lookup_delete_ne by done.
    by rewrite Hkept.
  - destruct (FetchAll_untroubled uaid since [] w5) as (w6 & Hf & _);
      try assumption.
    + unfold stored_chids. by rewrite Hlist.
    + apply NoDup_nil_2.
    + by rewrite Hf.
Qed.

Lemma storeHost_untroubled (uaid host : string) (w : world) :
  untroubled w ->
  exists w',
    storeHost txt s names uaid host w = (Normal None, w')
    /\ items w' = <[HostPrefix names +:+ uaid := Vstring host]> (items w)
    /\ now w' = now w /\ untroubled w'.
Proof.
  intros Hw. unfold storeHost, bind.
  destruct (client_Set_untroubled (HostPrefix names +:+ uaid) (Vstring host)
              (ChannelTimeout (config s)) w Hw) as (w' & -> & Hit & Hn & Hw').
  by exists w'.
Qed.

(** X20: a host name put with [PutHost] is the one [FetchHost] returns;
    for the empty host name both take the host of the configuration.
    [FetchHost] writes the entry again, with the value it holds. *)
Theorem PutHost_FetchHost_round_trip
    (uaid : list byte) (host : string) (w : world) :
  untroubled w ->
  let stored := if (String.length host =? 0)%nat then Host names else host in
  exists w1 w2,
    PutHost txt s names uaid host w = (Normal None, w1)
    /\ FetchHost txt s names uaid w1 = (Normal (stored, None), w2)
    /\ items w1
       = <[HostPrefix names +:+ gohex.EncodeToString uaid := Vstring stored]>
           (items w)
    /\ items w2 = items w1.
Proof.
  intros Hw stored. unfold PutHost. fold stored. unfold bind at 1.
  rewrite getClient_untroubled by assumption.
  destruct (storeHost_untroubled (gohex.EncodeToString uaid) stored
              (record CallAcquire w) Hw) as (w1 & Hrun1 & Hit1 & Hn1 & Hw1).
  change (items (record CallAcquire w)) with (items w) in Hit1.
  unfold FetchHost. 
  destruct (storeHost_untroubled (gohex.EncodeToString uaid) stored
              (record CallAcquire w1) Hw1) as (w2 & Hrun2 & Hit2 & Hn2 & Hw2).
  change (items (record CallAcquire w1)) with (items w1) in Hit2.
  exists w1, w2. split; [exact Hrun1|]. split_and!; [|exact Hit1|].
  - unfold bind at 1. rewrite getClient_untroubled by assumption.
    unfold bind at 1.
    rewrite client_Get_string_untroubled by exact Hw1.
    change (items (record CallAcquire w1)) with (items w1).
    rewrite Hit1, lookup_insert_eq. cbn beta iota.
    assert (Hst : (if (String.length stored =? 0)%nat then Host names else stored)
                  = stored).
    { unfold stored. destruct (String.length host =? 0)%nat eqn:E; [|by rewrite E].
      by destruct (String.length (Host names) =? 0)%nat. }
    rewrite Hst. unfold bind. by rewrite Hrun2.
  - rewrite Hit2, Hit1. by rewrite insert_insert_eq.
Qed.

(** X21: [DropHost] returns nil whether the device has a host entry or
    not, and after it [FetchHost] returns the host of the configuration
    with [ErrUnknownUAID], writing nothing. *)
Theorem DropHost_then_FetchHost_unknown (uaid : list byte) (w : world) :
  untroubled w ->
  exists w1 w2,
    DropHost txt names uaid w = (Normal None, w1)
    /\ items w1
       = delete (HostPrefix names +:+ gohex.EncodeToString uaid) (items w)
    /\ FetchHost txt s names uaid w1
       = (Normal (Host names, Some ErrUnknownUAID), w2)
    /\ items w2 = items w1.
Proof.
  intros Hw. unfold DropHost. unfold bind at 1.
  rewrite getClient_untroubled by assumption. unfold bind.
  destruct (client_Delete_untroubled
              (HostPrefix names +:+ gohex.EncodeToString uaid)
              (record CallAcquire w) Hw) as (w1 & -> & Hit1 & Hn1 & _ & Hw1).
  change (items (record CallAcquire w)) with (items w) in *.
  exists w1, (record CallAcquire w1).
  split_and!.
  - case_bool_decide; [reflexivity | by rewrite isMissing_not_found].
  - exact Hit1.
  - unfold FetchHost. unfold bind at 1.
    rewrite getClient_untroubled by assumption. unfold bind at 1.
    rewrite client_Get_string_untroubled by exact Hw1.
    change (items (record CallAcquire w1)) with (items w1).
    rewrite Hit1, lookup_delete_eq. cbn beta iota.
    by rewrite isMissing_not_found.
  - reflexivity.
Qed.

(** X22: whatever fails, [FetchHost] returns normally, and the host it
    returns is the host of the configuration or, with a nil error, a host
    name that is not empty; with an error it is always the host of the
    configuration. *)
Theorem FetchHost_host_or_default (uaid : list byte) (w : world) :
  exists host e w',
    FetchHost txt s names uaid w = (Normal (host, e), w')
    /\ (e <> None -> host = Host names)
    /\ (host = Host names \/ host <> EmptyString).
Proof.
  unfold FetchHost. unfold bind at 1.
  destruct (getClient_effect w) as (e & w1 & -> & _).
  destruct e as [e|].
  { exists (Host names), (Some e), w1. split_and!; [reflexivity | done | by left]. }
  unfold bind at 1.
  destruct (client_Get_string _ w1) as [[[host e]|] w2] eqn:Hget;
    [|unfold client_Get_string in Hget; repeat case_match; discriminate].
  destruct e as [e|].
  { destruct (isMissing txt e);
      eexists _, _, _; (split_and!; [reflexivity | done | by left]). }
  cbn beta iota. unfold bind.
  destruct (storeHost _ _ _ _ _ w2) as [[e|] w3] eqn:Hst.
  - eexists _, _, _. split_and!; [reflexivity | done |].
    destruct host; [by left | by right].
  - unfold storeHost, bind in Hst.
    destruct (client_Set_effect (HostPrefix names +:+ gohex.EncodeToString uaid)
                (Vstring (if (String.length host =? 0)%nat
                          then Host names else host))
                (ChannelTimeout (config s)) w2) as (e' & w' & Hset & _).
    rewrite Hset in Hst. repeat case_match; discriminate.
Qed.

(** X23: the ping operations hand the results of memcached through. What
    [PutPing] stored is what [FetchPing] returns, the empty string as
    well; once dropped, [FetchPing] and a second [DropPing] return the
    missing-key error of memcached. *)
Theorem PutPing_FetchPing_round_trip
    (uaid : list byte) (connect : string) (w : world) :
  untroubled w ->
  exists w1 w2 w3 w4 w5,
    PutPing names uaid connect w = (Normal None, w1)
    /\ FetchPing names uaid w1 = (Normal (connect, None), w2)
    /\ DropPing names uaid w2 = (Normal None, w3)
    /\ FetchPing names uaid w3
       = (Normal (EmptyString, Some (McError "NOT FOUND")), w4)
    /\ DropPing names uaid w4 = (Normal (Some (McError "NOT FOUND")), w5)
    /\ items w5
       = delete (PingPrefix names +:+ gohex.EncodeToString uaid) (items w).
Proof.
  intros Hw.
  set (key := PingPrefix names +:+ gohex.EncodeToString uaid).
  unfold PutPing. fold key. unfold bind at 1.
  rewrite getClient_untroubled by assumption.
  destruct (client_Set_untroubled key (Vstring connect) 0
              (record CallAcquire w) Hw) as (w1 & Hrun1 & Hit1 & Hn1 & Hw1).
  change (items (record CallAcquire w)) with (items w) in *.
  destruct (client_Delete_untroubled key (record CallAcquire (record CallAcquire w1))
              Hw1) as (w3 & Hrun3 & Hit3 & Hn3 & _ & Hw3).
  change (items (record CallAcquire (record CallAcquire w1))) with (items w1) in *.
  destruct (client_Delete_untroubled key (record CallAcquire (record CallAcquire w3))
              Hw3) as (w5 & Hrun5 & Hit5 & Hn5 & _ & Hw5).
  change (items (record CallAcquire (record CallAcquire w3))) with (items w3) in *.
  exists w1, (record CallAcquire w1), w3, (record CallAcquire w3), w5.
  split_and!.
  - exact Hrun1.
  - unfold FetchPing. fold key. unfold bind.
    rewrite getClient_untroubled by assumption.
    rewrite client_Get_string_untroubled by exact Hw1.
    change (items (record CallAcquire w1)) with (items w1).
    by rewrite Hit1, lookup_insert_eq.
  - unfold DropPing. fold key. unfold bind.
    rewrite getClient_untroubled by exact Hw1.
    rewrite Hrun3. rewrite Hit1, lookup_insert_eq.
    by rewrite bool_decide_eq_true_2 by eauto.
  - unfold FetchPing. fold key. unfold bind.
    rewrite getClient_untroubled by assumption.
    rewrite client_Get_string_untroubled by exact Hw3.
    change (items (record CallAcquire w3)) with (items w3).
    by rewrite Hit3, lookup_delete_eq.
  - unfold DropPing. fold key. unfold bind.
    rewrite getClient_untroubled by exact Hw3.
    rewrite Hrun5. rewrite Hit3, lookup_delete_eq.
    by rewrite bool_decide_eq_false_2 by (intros [? ?]; discriminate).
  - rewrite Hit5, Hit3, Hit1.
    rewrite delete_insert_eq. by rewrite delete_delete_eq.
Qed.

(** X24: [Status] returns true with a nil error or false with an error,
    whatever fails. In a world without failures it returns true and
    leaves no status item behind. *)
Theorem Status_true_or_error (fakeID : string) (w : world) :
  (exists ok e w',
     Status fakeID w = (Normal (ok, e), w') /\ (ok = true <-> e = None))
  /\ (untroubled w ->
      exists w',
        Status fakeID w = (Normal (true, None), w')
        /\ items w' = delete ("status_" +:+ fakeID) (items w)).
Proof.
  split.
  - unfold Status. unfold bind at 1.
    destruct (getClient_effect w) as (e & w1 & -> & _).
    destruct e as [e|].
    { eexists _, _, _. split; [reflexivity|]. split; discriminate. }
    unfold bind at 1.
    destruct (client_Set_effect ("status_" +:+ fakeID) (Vstring "test")
                (6 * 10 ^ 9) w1) as (e & w2 & -> & _).
    destruct e as [e|].
    { eexists _, _, _. split; [reflexivity|]. split; discriminate. }
    unfold bind at 1.
    destruct (client_Get_string _ w2) as [[[val e]|] w3] eqn:Hget;
      [|unfold client_Get_string in Hget; repeat case_match; discriminate].
    destruct (bool_decide (e <> None) || negb (String.eqb val "test")).
    { eexists _, _, _. split; [reflexivity|]. split; discriminate. }
    unfold bind.
    destruct (client_Delete _ w3) as [[e'|] w4] eqn:Hdel;
      [|unfold client_Delete in Hdel; repeat case_match; discriminate].
    eexists _, _, _. split; [reflexivity|]. done.
  - intros Hw. unfold Status. unfold bind at 1.
    rewrite getClient_untroubled by assumption. unfold bind at 1.
    set (key := "status_" +:+ fakeID).
    destruct (client_Set_untroubled key (Vstring "test") (6 * 10 ^ 9)
                (record CallAcquire w) Hw) as (w1 & -> & Hit1 & _ & Hw1).
    change (items (record CallAcquire w)) with (items w) in Hit1.
    unfold bind at 1. rewrite client_Get_string_untroubled by assumption.
    rewrite Hit1, lookup_insert_eq. cbn beta iota.
    rewrite bool_decide_eq_false_2 by (intros H; by apply H).
    change (String.eqb "test" "test") with true. cbn [negb orb].
    unfold bind.
    destruct (client_Delete_untroubled key w1 Hw1) as (w2 & -> & Hit2 & _).
    exists w2. split; [reflexivity|].
    rewrite Hit2, Hit1. by rewrite delete_insert_eq.
Qed.

(** X25: the empty device ID is refused before memcached or the pool is
    touched, by each operation with an error of its own: [Register] with
    [NoChannelError], [Update] with [InvalidPrimaryKeyError], [Unregister]
    with [InvalidChannelError]; [Exists] returns true for it. [Update]
    refuses the empty channel ID as well. *)
Theorem empty_device_id_is_refused
    (uaid chid : list byte) (version : Z) (w : world) :
  Register txt s [] chid version w = (Normal (Some (Sperror NoChannelError)), w)
  /\ Update txt s [] chid version w
     = (Normal (Some (Sperror InvalidPrimaryKeyError)), w)
  /\ Update txt s uaid [] version w
     = (Normal (Some (Sperror InvalidPrimaryKeyError)), w)
  /\ Unregister txt s [] chid w
     = (Normal (Some (Sperror InvalidChannelError)), w)
  /\ Exists txt [] w = (Normal true, w).
Proof.
  split_and!; try reflexivity.
  unfold Update. cbn [length Nat.eqb]. by rewrite orb_true_r.
Qed.

Lemma FetchAll_records_reads_only
    (uaid : list byte) (since : Z) (chids rest : ia) (index : nat)
    (updates : list storage_Update) (expired : ia) (w : world) :
  drop index chids = rest ->
  exists updates' expired' w',
    FetchAll_records chids since index
      (map (fun chid => encodeKey (toBinaryKey uaid chid).1) rest)
      updates expired w
    = (Normal (updates ++ updates', expired ++ expired'), w')
    /\ items w' = items w
    /\ (forall u, u ∈ updates' ->
          exists c, c ∈ rest /\ ChannelID u = gohex.EncodeToString c)
    /\ (forall c, c ∈ expired' -> c ∈ rest).
Proof.
  revert index updates expired w.
  induction rest as [|chid rest IH]; intros index updates expired w Hdrop.
  - exists [], [], w. rewrite !app_nil_r.
    split_and!; try done; intros x Hx; by apply elem_of_nil in Hx.
  - assert (Hhere : chids !! index = Some chid).
    { pose proof (lookup_drop chids index 0) as H.
      rewrite Hdrop, Nat.add_0_r in H. by rewrite <- H. }
    assert (Hnext : drop (index + 1) chids = rest).
    { rewrite <- drop_drop, Hdrop. reflexivity. }
    assert (Hstep : forall ups exps w0,
              exists updates' expired' w',
                FetchAll_records chids since (index + 1)
                  (map (fun chid => encodeKey (toBinaryKey uaid chid).1) rest)
                  (updates ++ ups) (expired ++ exps) w0
                = (Normal (updates ++ ups ++ updates',
                           expired ++ exps ++ expired'), w')
                /\ items w' = items w0
                /\ (forall u, u ∈ updates' ->
                      exists c, c ∈ rest /\ ChannelID u = gohex.EncodeToString c)
                /\ (forall c, c ∈ expired' -> c ∈ rest)).
    { intros ups exps w0.
      destruct (IH (index + 1)%nat (updates ++ ups) (expired ++ exps) w0 Hnext)
        as (u' & e' & w' & Hrun & Hit & Hu & He).
      exists u', e', w'. rewrite <- !app_assoc in Hrun. by split_and!. }
    cbn [map FetchAll_records]. unfold bind at 1.
    destruct (client_Get_cr_effect
                (encodeKey (toBinaryKey uaid chid).1) w)
      as ([channel err] & w1 & -> & Hit1 & _).
    cbn beta iota.
    destruct err as [err|].
    { destruct (Hstep [] [] w1) as (u' & e' & w' & Hrun & Hit & Hu & He).
      rewrite !app_nil_r in Hrun. cbn [app] in Hrun.
      exists u', e', w'. split_and!; [exact Hrun | congruence | |].
      - intros u Hin. destruct (Hu u Hin) as (c & Hc & E).
        exists c. split; [by right | done].
      - intros c Hc. right. by apply He. }
    rewrite Hhere.
    destruct (cr.L channel <? since).
    { destruct (Hstep [] [] w1) as (u' & e' & w' & Hrun & Hit & Hu & He).
      rewrite !app_nil_r in Hrun. cbn [app] in Hrun.
      exists u', e', w'. split_and!; [exact Hrun | congruence | |].
      - intros u Hin. destruct (Hu u Hin) as (c & Hc & E).
        exists c. split; [by right | done].
      - intros c Hc. right. by apply He. }
    destruct (cr.S channel =? LIVE).
    { set (version := if cr.V channel =? 0 then uint64 (now w1) else cr.V channel).
      destruct (Hstep [Build_storage_Update (gohex.EncodeToString chid) version]
                  [] w1) as (u' & e' & w' & Hrun & Hit & Hu & He).
      rewrite !app_nil_r in Hrun. cbn [app] in Hrun.
      exists (Build_storage_Update (gohex.EncodeToString chid) version :: u'),
        e', w'.
      split_and!.
      - unfold bind at 1. subst version.
        destruct (cr.V channel =? 0); exact Hrun.
      - congruence.
      - intros u Hin. apply elem_of_cons in Hin as [->|Hin].
        + exists chid. split; [by left | done].
        + destruct (Hu u Hin) as (c & Hc & E). exists c. split; [by right | done].
      - intros c Hc. right. by apply He. }
    destruct (cr.S channel =? DELETED).
    { destruct (Hstep [] [chid] w1) as (u' & e' & w' & Hrun & Hit & Hu & He).
      rewrite !app_nil_r in Hrun. cbn [app] in Hrun.
      exists u', (chid :: e'), w'. split_and!; [exact Hrun | congruence | |].
      - intros u Hin. destruct (Hu u Hin) as (c & Hc & E).
        exists c. split; [by right | done].
      - intros c Hc. apply elem_of_cons in Hc as [->|Hc];
          [by left | right; by apply He]. }
    destruct (Hstep [] [] w1) as (u' & e' & w' & Hrun & Hit & Hu & He).
    rewrite !app_nil_r in Hrun. cbn [app] in Hrun.
    exists u', e', w'. split_and!; [exact Hrun | congruence | |].
    + intros u Hin. destruct (Hu u Hin) as (c & Hc & E).
      exists c. split; [by right | done].
    + intros c Hc. right. by apply He.
Qed.

(** X26: [FetchAll] reads and never writes, whatever fails. With a nil
    error it reports channels of the list [fetchAppIDArray] returned and
    no others, a channel whose record cannot be read being left out
    without an error; with an error it reports nothing. *)
Theorem FetchAll_reads_only (uaid : list byte) (since : Z) (w : world) :
  exists r w',
    FetchAll txt uaid since w = (r, w')
    /\ items w' = items w
    /\ match r with
       | Normal (updates, expired, None) =>
           exists chids w1,
             fetchAppIDArray txt uaid w = (Normal (chids, None), w1)
             /\ (forall u, u ∈ updates ->
                   exists c, c ∈ chids /\ ChannelID u = gohex.EncodeToString c)
             /\ (forall c, c ∈ expired -> c ∈ chids)
       | Normal (updates, expired, Some e) => updates = [] /\ expired = []
       | Panic => (fetchAppIDArray txt uaid w).1 = Panic
       end.
Proof.
  unfold FetchAll. unfold bind at 1.
  destruct (fetchAppIDArray_result txt uaid w) as (r & w1 & Hfetch & Hit1 & _).
  rewrite Hfetch. destruct r as [[chids [e|]]|].
  - exists (Normal ([], [], Some e)), w1. by split_and!.
  - unfold bind at 1.
    destruct (getClient_effect w1) as (e & w2 & -> & Hit2 & _).
    destruct e as [e|].
    { exists (Normal ([], [], Some e)), w2.
      split; [done|]. split; [congruence | done]. }
    destruct (FetchAll_records_reads_only uaid since chids chids 0 [] [] w2 eq_refl)
      as (u' & e' & w' & Hrun & Hit & Hu & He).
    unfold bind. rewrite Hrun. cbn [app].
    exists (Normal (u', e', None)), w'.
    split_and!; [done | congruence |].
    exists chids, w1. by split_and!.
  - exists Panic, w1. by split_and!.
Qed.

(** ** The retry loop of [Unregister] *)

Lemma fetchRec_failed_get
    (pk : list byte) (msg : string) (rest : list (option string)) (w : world) :
  pk <> [] -> acquisitions w = [] -> failures w = Some msg :: rest ->
  isMissing txt (McError msg) = false ->
  exists w',
    fetchRec txt pk w = (Normal (None, Some (McError msg)), w')
    /\ items w' = items w /\ now w' = now w
    /\ acquisitions w' = [] /\ failures w' = rest.
Proof.
  intros Hpk Hacq Hfail Hmiss. unfold fetchRec.
  rewrite length_zero_iff, bool_decide_eq_false_2 by assumption.
  destruct w as [it t acq fl cs]. simpl in *. subst.
  unfold bind, getClient, client_Get_cr, next_failure. simpl.
  rewrite Hmiss. simpl. eexists. split; [reflexivity|]. by split_and!.
Qed.

Lemma fetchRec_answered
    (pk : list byte) (rest : list (option string)) (w : world) :
  pk <> [] -> acquisitions w = [] -> failures w = None :: rest ->
  exists w',
    fetchRec txt pk w
    = (Normal match items w !! encodeKey pk with
              | Some (Vcr rec) => (Some rec, None)
              | None => (Some cr.zero, None)
              | Some _ => (None, Some (McError gob_mismatch))
              end, w')
    /\ items w' = items w /\ now w' = now w
    /\ acquisitions w' = [] /\ failures w' = rest.
Proof.
  intros Hpk Hacq Hfail. unfold fetchRec.
  rewrite length_zero_iff, bool_decide_eq_false_2 by assumption.
  destruct w as [it t acq fl cs]. simpl in *. subst.
  unfold bind, getClient, client_Get_cr, next_failure. simpl.
  destruct (it !! encodeKey pk) as [[rec|arr|str]|];
    (eexists; split; [reflexivity|]; by split_and!).
Qed.

Lemma Unregister_retry_failing
    (pk : list byte) (attempts : nat) (msgs : list string) (w : world) :
  pk <> [] -> acquisitions w = [] -> failures w = map Some msgs ->
  Forall (fun msg => isMissing txt (McError msg) = false) msgs ->
  exists w',
    Unregister_retry txt s attempts pk w = (Normal tt, w')
    /\ now w' = now w
    /\ items w' =
       if (length msgs <? attempts)%nat then
         match items w !! encodeKey pk with
         | Some (Vcr rec) =>
             <[encodeKey pk := Vcr (cr.mk DELETED (cr.V rec) (now w))]> (items w)
         | None =>
             <[encodeKey pk := Vcr (cr.mk DELETED 0 (now w))]> (items w)
         | Some _ => items w
         end
       else items w.
Proof.
  intros Hpk. revert msgs w.
  induction attempts as [|n IH]; intros msgs w Hacq Hfail Hall.
  { exists w. by split_and!. }
  destruct msgs as [|msg msgs].
  - assert (Hw : untroubled w) by by split.
    change (length (@nil string) <? Datatypes.S n)%nat with true. cbv iota.
    destruct (items w !! encodeKey pk) as [[rec|arr|str]|] eqn:Hrec.
    + cbn [Unregister_retry]. unfold bind at 1.
      rewrite fetchRec_untroubled by assumption. rewrite Hrec.
      cbn beta iota. unfold bind at 1.
      destruct (storeRec_untroubled s pk (cr.mk DELETED (cr.V rec) (cr.L rec))
                  (record (CallGetCr (encodeKey pk)) (record CallAcquire w)))
        as (w' & -> & Hit & Hn & _); [assumption | exact Hw |].
      exists w'. split_and!; [reflexivity | exact Hn | exact Hit].
    + destruct (Unregister_retry_mismatch (Datatypes.S n) pk w)
        as (w' & Hrun & Hit & Hn & _);
        [assumption | assumption | exists (Via arr); by rewrite Hrec |].
      exists w'. by split_and!.
    + destruct (Unregister_retry_mismatch (Datatypes.S n) pk w)
        as (w' & Hrun & Hit & Hn & _);
        [assumption | assumption | exists (Vstring str); by rewrite Hrec |].
      exists w'. by split_and!.
    + cbn [Unregister_retry]. unfold bind at 1.
      rewrite fetchRec_untroubled by assumption. rewrite Hrec.
      cbn beta iota. unfold bind at 1.
      destruct (storeRec_untroubled s pk
                  (cr.mk DELETED (cr.V cr.zero) (cr.L cr.zero))
                  (record (CallGetCr (encodeKey pk)) (record CallAcquire w)))
        as (w' & -> & Hit & Hn & _); [assumption | exact Hw |].
      exists w'. split_and!; [reflexivity | exact Hn | exact Hit].
  - apply Forall_cons in Hall as [Hmiss Hall].
    destruct (fetchRec_failed_get pk msg (map Some msgs) w)
      as (w1 & Hf & Hit1 & Hn1 & Hacq1 & Hfail1); try assumption.
    destruct (IH msgs w1 Hacq1 Hfail1 Hall) as (w' & Hrun & Hn & Hit).
    exists w'. cbn [Unregister_retry]. unfold bind. rewrite Hf.
    split_and!; [exact Hrun | congruence |].
    change (length (msg :: msgs) <? Datatypes.S n)%nat
      with (length msgs <? n)%nat.
    by rewrite Hit, Hit1, Hn1.
Qed.

Lemma Unregister_retry_failed_store
    (pk : list byte) (attempts : nat) (msg : string)
    (rest : list (option string)) (rec : cr.t) (w : world) :
  pk <> [] -> acquisitions w = [] -> failures w = None :: Some msg :: rest ->
  items w !! encodeKey pk = Some (Vcr rec) ->
  exists w',
    Unregister_retry txt s (Datatypes.S attempts) pk w = (Normal tt, w')
    /\ items w' = items w /\ failures w' = rest.
Proof.
  intros Hpk Hacq Hfail Hrec.
  destruct (fetchRec_answered pk (Some msg :: rest) w)
    as (w1 & Hf & Hit1 & Hn1 & Hacq1 & Hfail1); try assumption.
  rewrite Hrec in Hf.
  destruct (storeRec_failed_set pk (cr.mk DELETED (cr.V rec) (cr.L rec)) msg rest w1)
    as (w' & Hst & Hit & Hfl); try assumption.
  exists w'. cbn [Unregister_retry]. unfold bind. rewrite Hf, Hst.
  split_and!; [reflexivity | congruence | exact Hfl].
Qed.

(** C6: [Unregister] returns the invalid-channel error exactly when the
    list of channel IDs it reads for the device lacks [chid]. When the list
    holds [chid] and the list without it is written back, [Unregister]
    returns nil whatever becomes of the fetches and of the store of the
    record; the stored list no longer holds [chid]; and from there on at
    most 3 records are fetched and at most one is stored, marked DELETED
    under the key of [(uaid, chid)]. The record is fetched and rewritten:
    with the pool handing out clients and fewer than 3 fetches failing
    before memcached answers, the record of the channel is left DELETED
    with the version it had (version 0 where there was none) and the
    current time, and nothing else is touched; with 3 fetches failing
    memcached is left as it was after the list was written; and when the
    store of the fetched record fails, memcached is left as it was and no
    other call is made. *)
Theorem Unregister_removes_and_marks_deleted
    (uaid chid : list byte) (w : world) :
  ((Unregister txt s uaid chid w).1 = Normal (Some (Sperror InvalidChannelError))
   <-> exists chids,
         (fetchAppIDArray txt uaid w).1 = Normal (chids, None) /\ chid ∉ chids)
  /\ forall chids w1,
      fetchAppIDArray txt uaid w = (Normal (chids, None), w1) ->
      chid ∈ chids ->
      exists removed,
        remove (slice_of chids) (IndexOf chids chid) = Normal removed
        /\ (forall c, c ∈ elems removed <-> c ∈ chids /\ c <> chid)
        /\ forall w2,
            storeAppIDArray uaid (elems removed) w1 = (Normal None, w2) ->
            let pk := (toBinaryKey uaid chid).1 in
            stored_chids w2 uaid = Some (sort_Sort (elems removed))
            /\ (chid ∉ sort_Sort (elems removed))
            /\ exists w3 added,
                Unregister txt s uaid chid w = (Normal None, w3)
                /\ calls w3 = added ++ calls w2
                /\ (count is_GetCr added <= 3)%nat
                /\ (count is_Acquire added <= 4)%nat
                /\ (count is_Set added <= 1)%nat
                /\ (forall k v t, CallSet k v t ∈ added ->
                      k = encodeKey pk
                      /\ exists rec, v = Vcr rec /\ cr.S rec = DELETED)
                /\ ((length uaid <= 16)%nat ->
                    stored_chids w3 uaid = Some (sort_Sort (elems removed)))
                /\ (forall msgs,
                      acquisitions w2 = [] -> failures w2 = map Some msgs ->
                      Forall (fun msg => isMissing txt (McError msg) = false)
                        msgs ->
                      ((length msgs < 3)%nat ->
                       (forall rec,
                          stored_record w2 uaid chid = Some rec ->
                          stored_record w3 uaid chid
                          = Some (cr.mk DELETED (cr.V rec) (now w2)))
                       /\ (items w2 !! encodeKey pk = None ->
                           stored_record w3 uaid chid
                           = Some (cr.mk DELETED 0 (now w2)))
                       /\ (forall k, k <> encodeKey pk ->
                             items w3 !! k = items w2 !! k))
                      /\ ((3 <= length msgs)%nat -> items w3 = items w2))
                /\ (forall msg rest rec,
                      acquisitions w2 = [] ->
                      failures w2 = None :: Some msg :: rest ->
                      stored_record w2 uaid chid = Some rec ->
                      items w3 = items w2 /\ failures w3 = rest).
Proof.
  assert (Hpk : (toBinaryKey uaid chid).1 <> []).
  { intros E. pose proof (toBinaryKey_length uaid chid) as H. by rewrite E in H. }
  destruct (fetchAppIDArray_result txt uaid w) as (r & w1 & Hf & Hi & Hr).
  split.
  - unfold Unregister, bind, ret. rewrite Hf.
    destruct r as [[chids [e|]]|]; cbn [fst]; cbn in Hr.
    + split; [intros H; by simplify_eq | intros (chids' & H & _); discriminate].
    + destruct (Z.ltb_spec (IndexOf chids chid) 0) as [Hneg|Hpos].
      * split; [intros _ | reflexivity].
        exists chids. split; [reflexivity | by apply IndexOf_absent].
      * assert (Hin : chid ∈ chids).
        { destruct (decide (chid ∈ chids)) as [|Hn]; [assumption|].
          apply IndexOf_absent in Hn. lia. }
        split; [|intros (chids' & H & Hn); by simplify_eq].
        intros H. exfalso. rewrite toBinaryKey_pair in H.
        destruct (IndexOf_present chids chid Hin) as (j & Hj & Hl).
        destruct (remove_elems chids j (lookup_lt_Some _ _ _ Hl))
          as (removed & Hrm & _).
        rewrite Hj, Hrm in H.
        destruct (storeAppIDArray_result uaid (elems removed) w1)
          as (e & w2 & Hst & He & _).
        rewrite Hst in H. destruct e as [e|]; cbn [fst] in H.
        -- by simplify_eq.
        -- destruct (Unregister_retry_effect txt s 3 _ w2 Hpk)
             as (w3 & added & Hrun & _).
           rewrite Hrun in H. discriminate.
    + split; [discriminate | intros (chids' & H & _); discriminate].
  - intros chids w1' Hf' Hin. rewrite Hf' in Hf. simplify_eq. cbn in Hr.
    destruct (IndexOf_present chids chid Hin) as (j & Hj & Hl).
    destruct (remove_elems chids j (lookup_lt_Some _ _ _ Hl))
      as (removed & Hrm & Hel).
    exists removed. rewrite Hj. split; [exact Hrm|].
    assert (Hmem : forall c, c ∈ elems removed <-> c ∈ chids /\ c <> chid).
    { intros c. rewrite Hel. by apply elem_of_removed. }
    split; [exact Hmem|]. intros w2 Hst pk.
    destruct (storeAppIDArray_result uaid (elems removed) w1)
      as (e & w2' & Hst' & _ & Hit).
    rewrite Hst in Hst'. injection Hst' as <- <-. specialize (Hit eq_refl).
    assert (Hset : stored_chids w2 uaid = Some (sort_Sort (elems removed))).
    { unfold stored_chids. by rewrite Hit, lookup_insert_eq. }
    split; [exact Hset|]. split.
    { unfold sort_Sort. rewrite merge_sort_Permutation, Hmem. tauto. }
    destruct (Unregister_retry_effect txt s 3 pk w2 Hpk)
      as (w3 & added & Hrun & Hc & Ha & Hg & Hs & Hsets & Hother).
    exists w3, added.
    split.
    { unfold Unregister, bind, ret. rewrite Hf'. cbn beta iota.
      replace (IndexOf chids chid <? 0) with false by lia.
      rewrite toBinaryKey_pair, Hj, Hrm, Hst. fold pk. by rewrite Hrun. }
    split; [exact Hc|]. split; [lia|]. split; [lia|]. split; [lia|].
    split; [exact Hsets|]. split.
    { intros Hlen. unfold stored_chids.
      rewrite Hother by (symmetry; by apply record_key_is_not_list_key).
      exact Hset. }
    split.
    + intros msgs Hacq Hfail Hall.
      destruct (Unregister_retry_failing pk 3 msgs w2 Hpk Hacq Hfail Hall)
        as (w3' & Hrun' & Hn' & Hit').
      rewrite Hrun in Hrun'. injection Hrun' as <-.
      split.
      * intros Hlt.
        rewrite (proj2 (Nat.ltb_lt _ _) Hlt) in Hit'.
        split_and!.
        -- intros rec Hrec. unfold stored_record in *. fold pk in Hrec |- *.
           destruct (items w2 !! encodeKey pk) as [[r| |]|]; try discriminate.
           injection Hrec as ->. by rewrite Hit', lookup_insert_eq.
        -- intros Hnone. unfold stored_record. fold pk.
           rewrite Hnone in Hit'. by rewrite Hit', lookup_insert_eq.
        -- intros k Hk. by apply Hother.
      * intros Hge.
        by rewrite (proj2 (Nat.ltb_ge _ _) Hge) in Hit'.
    + intros msg rest rec Hacq Hfail Hrec.
      unfold stored_record in Hrec. fold pk in Hrec.
      destruct (items w2 !! encodeKey pk) as [[r| |]|] eqn:Hlook;
        try discriminate.
      destruct (Unregister_retry_failed_store pk 2 msg rest r w2)
        as (w3' & Hrun' & Hit' & Hfl'); try assumption.
      rewrite Hrun in Hrun'. by injection Hrun' as <-.
Qed.

End Composition.

(** ** The operations at the sample device *)

Lemma Unregister_removes_and_marks_deleted_witness :
  exists w3,
    Unregister sample_text sample_store sample_uaid sample_chid retrying_world
    = (Normal None, w3)
    /\ stored_record w3 sample_uaid sample_chid = Some (cr.mk DELETED 0 2000).
Proof.
  destruct (Unregister_removes_and_marks_deleted sample_text sample_store
              sample_uaid sample_chid retrying_world) as [_ H].
  destruct (H [sample_chid]
              (fetchAppIDArray sample_text sample_uaid retrying_world).2)
    as (removed & Hrm & _ & H2).
  - vm_compute. reflexivity.
  - by left.
  - vm_compute in Hrm. injection Hrm as <-.
    destruct (H2 (storeAppIDArray sample_uaid []
                    (fetchAppIDArray sample_text sample_uaid retrying_world).2).2)
      as (_ & _ & w3 & added & Hun & _ & _ & _ & _ & _ & _ & Hmark & _).
    + vm_compute. reflexivity.
    + exists w3. split; [exact Hun|].
      destruct (Hmark ["SERVER ERROR"; "A TIMEOUT OCCURRED"]%string)
        as [Hlt _]; [reflexivity | reflexivity | |].
      * repeat constructor.
      * destruct Hlt as (Hrec & _); [simpl; lia|].
        apply (Hrec (cr.mk REGISTERED 0 1000)). vm_compute. reflexivity.
Defined.

Lemma storeAppIDArray_stores_sorted_witness :
  exists l,
    stored_chids (storeAppIDArray sample_uaid [[x02]; [x01]] (quiet ∅ 1000)).2
      sample_uaid = Some l
    /\ l ≡ₚ [[x02]; [x01]]
    /\ l !! 0%nat = Some [x01].
Proof.
  destruct (storeAppIDArray_stores_sorted sample_uaid [[x02]; [x01]]
              (quiet ∅ 1000)
              (storeAppIDArray sample_uaid [[x02]; [x01]] (quiet ∅ 1000)).2)
    as (l & H1 & H2 & H3 & H4); [vm_compute; reflexivity|].
  exists l. split_and!; [exact H1 | exact H2 |].
  assert (E : Some l = Some [[x01]; [x02]])
    by (rewrite <- H1; vm_compute; reflexivity).
  injection E as ->. reflexivity.
Defined.

Lemma storeRec_fetchRec_round_trip_witness :
  exists w1 w2,
    storeRec sample_store [x01] (Some (cr.mk LIVE 7 5)) (quiet ∅ 1000)
    = (Normal None, w1)
    /\ fetchRec sample_text [x01] w1
       = (Normal (Some (cr.mk LIVE 7 1000), None), w2).
Proof.
  destruct (storeRec_fetchRec_round_trip sample_text sample_store [x01]
              (cr.mk LIVE 7 5) (quiet ∅ 1000))
    as (w1 & w2 & H1 & H2 & _); [discriminate | split; reflexivity |].
  exists w1, w2. split; [exact H1 | exact H2].
Defined.

Lemma storeRec_hides_failed_write_witness :
  exists w',
    storeRec sample_store [x01] (Some (cr.mk LIVE 7 5))
      (World ∅ 1000 [] [Some "SERVER ERROR"%string] [])
    = (Normal None, w')
    /\ items w' = ∅.
Proof.
  destruct (storeRec_hides_failed_write sample_store [x01] (cr.mk LIVE 7 5)
              (World ∅ 1000 [] [Some "SERVER ERROR"%string] []))
    as (e & w' & H1 & _ & H3); [discriminate|].
  destruct (H3 "SERVER ERROR"%string [] eq_refl eq_refl) as [He Hit].
  exists w'. split; [by rewrite <- He | exact Hit].
Defined.

Lemma Register_adds_channel_witness :
  exists w' l,
    Register sample_text sample_store sample_uaid sample_chid 7 (quiet ∅ 1000)
    = (Normal None, w')
    /\ stored_chids w' sample_uaid = Some l
    /\ sample_chid ∈ l
    /\ stored_record w' sample_uaid sample_chid = Some (cr.mk LIVE 7 1000).
Proof.
  destruct (Register_adds_channel sample_text sample_store sample_uaid
              sample_chid 7 [] (quiet ∅ 1000))
    as (w' & l & H1 & H2 & H3 & H4 & H5 & H6);
    [discriminate | simpl; lia | split; reflexivity | reflexivity
    | apply NoDup_nil_2 |].
  exists w', l. split_and!; [exact H1 | exact H2 | apply H4; by right | exact H6].
Defined.

Lemma Register_succeeds_on_failed_write_witness :
  exists w',
    Register sample_text sample_store sample_uaid sample_chid 7
      (World (items registered_world) 2000 []
             [None; Some "SERVER ERROR"%string] [])
    = (Normal None, w')
    /\ items w' = items registered_world.
Proof.
  apply (Register_succeeds_on_failed_write sample_text sample_store sample_uaid
           sample_chid 7 [sample_chid] "SERVER ERROR" []
           (World (items registered_world) 2000 []
                  [None; Some "SERVER ERROR"%string] []));
    [discriminate | reflexivity | reflexivity | vm_compute; reflexivity
    | apply NoDup_singleton | by left].
Defined.

Lemma registered_updated_channel_is_reported_witness :
  exists w1 w2 updates expired,
    Register sample_text sample_store sample_uaid sample_chid 0 (quiet ∅ 1000)
    = (Normal None, w1)
    /\ Update sample_text sample_store sample_uaid sample_chid 7 w1
       = (Normal None, w2)
    /\ (FetchAll sample_text sample_uaid 1000 w2).1
       = Normal (updates, expired, None)
    /\ Build_storage_Update (gohex.EncodeToString sample_chid) 7 ∈ updates.
Proof.
  destruct (registered_updated_channel_is_reported sample_text sample_store
              sample_uaid sample_chid 7 1000 [] (quiet ∅ 1000))
    as (w1 & w2 & before & updates & expired & H1 & H2 & H3 & H4 & H5 & H6);
    [discriminate | discriminate | simpl; lia | split; reflexivity
    | reflexivity | apply NoDup_nil_2 | simpl; lia | discriminate |].
  exists w1, w2, updates, expired.
  split_and!; [exact H1 | exact H4 | exact H5 | exact H6].
Defined.

Lemma unregistered_channel_is_not_reported_witness :
  exists w' l updates expired,
    Unregister sample_text sample_store sample_uaid sample_chid registered_world
    = (Normal None, w')
    /\ stored_chids w' sample_uaid = Some l
    /\ (sample_chid ∉ l)
    /\ stored_record w' sample_uaid sample_chid = Some (cr.mk DELETED 0 1000)
    /\ (FetchAll sample_text sample_uaid 0 w').1
       = Normal (updates, expired, None)
    /\ (sample_chid ∉ expired).
Proof.
  destruct (unregistered_channel_is_not_reported sample_text sample_store
              sample_uaid sample_chid 0 [sample_chid]
              (cr.mk REGISTERED 0 1000) registered_world)
    as (w' & l & updates & expired & H1 & H2 & H3 & H4 & H5 & H6 & H7);
    [discriminate | simpl; lia | split; vm_compute; reflexivity
    | vm_compute; reflexivity | apply NoDup_singleton | by left
    | vm_compute; reflexivity |].
  exists w', l, updates, expired.
  split_and!; [exact H1 | exact H2 | | exact H4 | exact H5 | exact H6].
  intros Hin. by apply H3 in Hin as [_ Hne].
Defined.

Lemma DropAll_deletes_listed_records_witness :
  exists w',
    DropAll sample_text ConfigStruct_names sample_uaid registered_world
    = (Normal None, w')
    /\ stored_record w' sample_uaid sample_chid = None
    /\ items w' !! encodeKey sample_uaid = None
    /\ (FetchAll sample_text sample_uaid 0 w').1 = Normal ([], [], None).
Proof.
  destruct (DropAll_deletes_listed_records sample_text ConfigStruct_names
              sample_uaid 0 [sample_chid] registered_world)
    as (w' & H1 & H2 & H3 & H4 & H5 & H6);
    [discriminate | split; vm_compute; reflexivity | vm_compute; reflexivity
    | apply NoDup_singleton |].
  exists w'. split_and!; [exact H1 | apply H2; by left | exact H3 | exact H6].
Defined.

Lemma PutHost_FetchHost_round_trip_witness :
  exists w1 w2,
    PutHost sample_text sample_store ConfigStruct_names sample_uaid EmptyString
      (quiet ∅ 1000)
    = (Normal None, w1)
    /\ FetchHost sample_text sample_store ConfigStruct_names sample_uaid w1
       = (Normal ("localhost"%string, None), w2).
Proof.
  pose proof (PutHost_FetchHost_round_trip sample_text sample_store
                ConfigStruct_names sample_uaid EmptyString (quiet ∅ 1000)) as H.
  destruct H as (w1 & w2 & H1 & H2 & _); [split; reflexivity|].
  exists w1, w2. split; [exact H1 | exact H2].
Defined.

Lemma DropHost_then_FetchHost_unknown_witness :
  exists w1 w2,
    DropHost sample_text ConfigStruct_names sample_uaid (quiet ∅ 1000)
    = (Normal None, w1)
    /\ FetchHost sample_text sample_store ConfigStruct_names sample_uaid w1
       = (Normal ("localhost"%string, Some ErrUnknownUAID), w2).
Proof.
  destruct (DropHost_then_FetchHost_unknown sample_text sample_store
              ConfigStruct_names sample_uaid (quiet ∅ 1000))
    as (w1 & w2 & H1 & _ & H3 & _); [split; reflexivity|].
  exists w1, w2. split; [exact H1 | exact H3].
Defined.

Lemma PutPing_FetchPing_round_trip_witness :
  exists w1 w2,
    PutPing ConfigStruct_names sample_uaid "ping" (quiet ∅ 1000)
    = (Normal None, w1)
    /\ FetchPing ConfigStruct_names sample_uaid w1
       = (Normal ("ping"%string, None), w2).
Proof.
  destruct (PutPing_FetchPing_round_trip ConfigStruct_names sample_uaid "ping"
              (quiet ∅ 1000))
    as (w1 & w2 & w3 & w4 & w5 & H1 & H2 & _); [split; reflexivity|].
  exists w1, w2. split; [exact H1 | exact H2].
Defined.

(** ** The pool *)

Lemma loop_seed (cfg : EmceeConfig) (conn : nat -> Pool.conn) (m : nat) :
  forall (i c k : nat) (cl : list Pool.conn),
    k = Nat.min m (Z.to_nat (MaxConns cfg) - c) ->
    Pool.loop cfg (Pool.State cl (Z.of_nat c) true)
      (map (fun j => Pool.NewClient (conn j)) (seq i m))
    = (Pool.State (cl ++ map conn (seq i k)) (Z.of_nat (c + k)) true,
       map (fun j => Pool.Close (conn j)) (seq (i + k) (m - k))).
Proof.
  induction m as [|m IH]; intros i c k cl Hk.
  - subst k. cbn. by rewrite app_nil_r, Nat.add_0_r.
  - cbn [seq map Pool.loop Pool.ok]. unfold Pool.step.
    cbn [Pool.capacity Pool.clients Pool.ok].
    destruct (Z.of_nat c >=? MaxConns cfg) eqn:Hcap.
    + assert (Hk0 : k = 0%nat) by lia. subst k. rewrite Hk0.
      rewrite (IH (Datatypes.S i) c 0%nat cl) by lia.
      cbn [seq map app]. rewrite !app_nil_r, !Nat.add_0_r, !Nat.sub_0_r.
      reflexivity.
    + destruct k as [|k']; [lia|].
      replace (Z.of_nat c + 1) with (Z.of_nat (Datatypes.S c)) by lia.
      rewrite (IH (Datatypes.S i) (Datatypes.S c) k' (cl ++ [conn i])) by lia.
      cbn [app seq map]. rewrite <- app_assoc. cbn [app].
      replace (Datatypes.S i + k')%nat with (i + Datatypes.S k')%nat by lia.
      replace (Datatypes.S c + k')%nat with (c + Datatypes.S k')%nat by lia.
      reflexivity.
Qed.

(** X27: [Init] with connections that all open sends [MinConns] of them to
    the run loop and returns nil. The run loop takes the first [MaxConns]
    of them into the idle list, counting them, and closes each one past
    that. *)
Theorem Init_seeds_pool
    (cfg : EmceeConfig) (newClient : nat -> error + Pool.conn)
    (conn : nat -> Pool.conn) :
  (forall i, newClient i = inr (conn i)) ->
  let n := Z.to_nat (MinConns cfg) in
  let k := Nat.min n (Z.to_nat (MaxConns cfg)) in
  exists evs,
    Lifecycle.Init cfg newClient Lifecycle.fresh
    = Normal (Lifecycle.fresh, evs, None)
    /\ length evs = n
    /\ Pool.run cfg evs
       = (Pool.State (map conn (seq 0 k)) (Z.of_nat k) true,
          map (fun j => Pool.Close (conn j)) (seq k (n - k))).
Proof.
  intros Hnew n k.
  assert (Hinit : forall cnt index c,
            Lifecycle.Init_from cnt index newClient c
            = Normal (c, map (fun j => Pool.NewClient (conn j)) (seq index cnt),
                      None)).
  { induction cnt as [|cnt IH]; intros index c; [reflexivity|].
    cbn [Lifecycle.Init_from seq map]. by rewrite Hnew, IH. }
  exists (map (fun j => Pool.NewClient (conn j)) (seq 0 n)).
  split_and!.
  - apply Hinit.
  - by rewrite length_map, length_seq.
  - unfold Pool.run, Pool.initial.
    pose proof (loop_seed cfg conn n 0 0 k [])  as H.
    rewrite Nat.sub_0_r in H. cbn [app Nat.add] in H. by apply H.
Qed.

Lemma Init_seeds_pool_witness :
  exists evs,
    Lifecycle.Init (Build_EmceeConfig 3 2 0 0 0) (fun i => inr i) Lifecycle.fresh
    = Normal (Lifecycle.fresh, evs, None)
    /\ Pool.run (Build_EmceeConfig 3 2 0 0 0) evs
       = (Pool.State [0; 1]%nat 2 true, [Pool.Close 2%nat]).
Proof.
  pose proof (Init_seeds_pool (Build_EmceeConfig 3 2 0 0 0) (fun i => inr i)
                (fun i => i) (fun i => eq_refl)) as H.
  destruct H as (evs & H1 & _ & H3).
  exists evs. split; [exact H1 | exact H3].
Defined.

(** X28: when [s.newClient()] fails, [Init] returns its error after the
    clients opened before it were sent, and the store is left closing with
    that error as the last one: a [Close] that follows returns the error
    without waiting for the run loop. *)
Theorem Init_failure_closes_store
    (cfg : EmceeConfig) (newClient : nat -> error + Pool.conn)
    (conn : nat -> Pool.conn) (failing : nat) (err : error) :
  (forall i, (i < failing)%nat -> newClient i = inr (conn i)) ->
  newClient failing = inl err ->
  (failing < Z.to_nat (MinConns cfg))%nat ->
  exists c,
    Lifecycle.Init cfg newClient Lifecycle.fresh
    = Normal (c, map (fun j => Pool.NewClient (conn j)) (seq 0 failing), Some err)
    /\ Lifecycle.isClosing c = true
    /\ Lifecycle.Close c = Normal (c, (Some err, false)).
Proof.
  intros Hnew Hfail Hlt.
  set (c := Lifecycle.Closing true (Some err) true).
  assert (Hinit : forall before cnt index,
            index = (failing - before)%nat -> (before <= failing)%nat ->
            (before < cnt)%nat ->
            Lifecycle.Init_from cnt index newClient Lifecycle.fresh
            = Normal (c, map (fun j => Pool.NewClient (conn j)) (seq index before),
                      Some err)).
  { induction before as [|before IH]; intros cnt index Hi Hle Hc.
    - destruct cnt as [|cnt]; [lia|].
      rewrite Nat.sub_0_r in Hi. subst index.
      cbn [Lifecycle.Init_from]. by rewrite Hfail.
    - destruct cnt as [|cnt]; [lia|].
      cbn [Lifecycle.Init_from seq map].
      rewrite Hnew by lia.
      rewrite (IH cnt (Datatypes.S index)) by lia. reflexivity. }
  exists c. split_and!; [|reflexivity|reflexivity].
  unfold Lifecycle.Init.
  rewrite (Hinit failing (Z.to_nat (MinConns cfg)) 0%nat) by lia.
  reflexivity.
Qed.

Lemma Init_failure_closes_store_witness :
  exists c,
    Lifecycle.Init (Build_EmceeConfig 3 2 0 0 0)
      (fun i => if (i =? 1)%nat then inl io_EOF else inr i) Lifecycle.fresh
    = Normal (c, [Pool.NewClient 0%nat], Some io_EOF)
    /\ Lifecycle.Close c = Normal (c, (Some io_EOF, false)).
Proof.
  destruct (Init_failure_closes_store (Build_EmceeConfig 3 2 0 0 0)
              (fun i => if (i =? 1)%nat then inl io_EOF else inr i)
              (fun i => i) 1%nat io_EOF)
    as (c & H1 & _ & H3);
    [intros [|i] Hi; [reflexivity | lia] | reflexivity | simpl; lia |].
  exists c. split; [exact H1 | exact H3].
Defined.

Lemma loop_at_capacity (cfg : EmceeConfig) (evs : list Pool.event) :
  forall st,
    MaxConns cfg <= Pool.capacity st ->
    (length (List.filter is_Send (Pool.loop cfg st evs).2) <= length (Pool.clients st))%nat
    /\ (length (Pool.clients (Pool.loop cfg st evs).1)
        <= length (Pool.clients st))%nat
    /\ Pool.capacity (Pool.loop cfg st evs).1 = Pool.capacity st.
Proof.
  induction evs as [|ev evs IH]; intros st Hcap.
  - cbn [Pool.loop]. destruct (Pool.ok st); cbn [fst snd]; [cbn; lia|].
    split_and!; [|lia|reflexivity].
    induction (Pool.clients st); cbn; lia.
  - cbn [Pool.loop]. destruct (Pool.ok st) eqn:Hok; cbn [fst snd].
    2:{ split_and!; [|lia|reflexivity].
        induction (Pool.clients st); cbn; lia. }
    destruct (Pool.step cfg st ev) as [st' out] eqn:Hstep.
    assert (Hst : Pool.capacity st' = Pool.capacity st
                  /\ (length (List.filter is_Send out) + length (Pool.clients st')
                      <= length (Pool.clients st))%nat).
    { unfold Pool.step in Hstep. destruct ev as [ok'|client|client|fresh].
      - injection Hstep as <- <-. cbn. split; [reflexivity | lia].
      - rewrite (proj2 (Z.geb_le _ _)) in Hstep by lia.
        injection Hstep as <- <-. cbn. split; [reflexivity | lia].
      - rewrite (proj2 (Z.geb_le _ _)) in Hstep by lia.
        injection Hstep as <- <-. cbn. split; [reflexivity | lia].
      - destruct (Pool.clients st) as [|client rest] eqn:Hcl.
        + rewrite (proj2 (Z.ltb_ge _ _)) in Hstep by lia.
          injection Hstep as <- <-. rewrite Hcl. cbn. split; [reflexivity | lia].
        + injection Hstep as <- <-. cbn. split; [reflexivity | lia]. }
    destruct Hst as [Hc' Hlen].
    destruct (IH st') as (Hs & Hl & Hc); [lia|].
    destruct (Pool.loop cfg st' evs) as [st'' out'] eqn:Hloop.
    cbn [fst snd] in *. split_and!; [|lia|congruence].
    rewrite List.filter_app, length_app. lia.
Qed.

(** X29: the capacity counter is never taken down. Once it has reached
    [MaxConns], a released connection is closed and none is opened, so the
    run loop hands out each idle connection at most once more: it sends no
    more connections than the idle list holds, and with an empty idle list
    none at all, whatever is released or acquired. *)
Theorem pool_at_capacity_drains
    (cfg : EmceeConfig) (st : Pool.state) (evs : list Pool.event) :
  MaxConns cfg <= Pool.capacity st ->
  (length (List.filter is_Send (Pool.loop cfg st evs).2)
   <= length (Pool.clients st))%nat
  /\ (Pool.clients st = [] ->
      forall client, Pool.Send client ∉ (Pool.loop cfg st evs).2).
Proof.
  intros Hcap.
  destruct (loop_at_capacity cfg evs st Hcap) as (Hs & _).
  split; [exact Hs|].
  intros Hcl client Hin. rewrite Hcl in Hs. cbn in Hs.
  assert (Hf : Pool.Send client ∈ List.filter is_Send (Pool.loop cfg st evs).2).
  { apply list_elem_of_In, List.filter_In. split; [by apply list_elem_of_In | done]. }
  destruct (List.filter is_Send (Pool.loop cfg st evs).2); [|cbn in Hs; lia].
  by apply elem_of_nil in Hf.
Qed.

Lemma pool_at_capacity_drains_witness :
  Pool.Send 1%nat
  ∉ (Pool.loop (Build_EmceeConfig 0 1 0 0 0) (Pool.State [] 1 true)
       [Pool.Release 0%nat; Pool.Acquisition (Some 1%nat)]).2.
Proof.
  apply (pool_at_capacity_drains (Build_EmceeConfig 0 1 0 0 0)
           (Pool.State [] 1 true)
           [Pool.Release 0%nat; Pool.Acquisition (Some 1%nat)]);
    [simpl; lia | reflexivity].
Defined.

(** X30: [Close] and [fatal] never panic, in whatever order they are
    called on a new store: the close signal is closed once. A [Close]
    returns the error of the first [fatal] before it, if there was one,
    and waits for the run loop only when it is the first call of all. *)
Theorem Close_returns_first_fatal_error
    (before after : list Lifecycle.op) :
  exists c rs,
    Lifecycle.calls_of Lifecycle.fresh (before ++ Lifecycle.OpClose :: after)
    = Normal (c, rs)
    /\ Lifecycle.isClosing c = true
    /\ Lifecycle.lastErr c
       = Lifecycle.first_fatal (before ++ Lifecycle.OpClose :: after)
    /\ rs !! length (List.filter (fun o => match o with
                                        | Lifecycle.OpClose => true
                                        | _ => false
                                        end) before)
       = Some (Lifecycle.first_fatal before, bool_decide (before = [])).
Proof.
  assert (Hclosing : forall ops e,
            exists rs,
              Lifecycle.calls_of (Lifecycle.Closing true e true) ops
              = Normal (Lifecycle.Closing true
                          (match e with
                           | Some _ => e
                           | None => Lifecycle.first_fatal ops
                           end) true, rs)).
  { induction ops as [|[|err] ops IH]; intros e.
    - exists []. by destruct e.
    - destruct (IH e) as (rs & Hrs). cbn. rewrite Hrs. by eexists.
    - cbn. destruct e as [e|].
      + destruct (IH (Some e)) as (rs & Hrs). cbn in Hrs. rewrite Hrs. by eexists.
      + destruct (IH (Some err)) as (rs & Hrs). cbn in Hrs. rewrite Hrs.
        by eexists. }
  assert (Hmid : forall ops e after',
            exists c rs,
              Lifecycle.calls_of (Lifecycle.Closing true e true)
                (ops ++ Lifecycle.OpClose :: after')
              = Normal (c, rs)
              /\ Lifecycle.isClosing c = true
              /\ Lifecycle.lastErr c
                 = match e with
                   | Some _ => e
                   | None => Lifecycle.first_fatal
                               (ops ++ Lifecycle.OpClose :: after')
                   end
              /\ rs !! length (List.filter (fun o => match o with
                                                  | Lifecycle.OpClose => true
                                                  | _ => false
                                                  end) ops)
                 = Some (match e with
                         | Some _ => e
                         | None => Lifecycle.first_fatal ops
                         end, false)).
  { induction ops as [|[|err] ops IH]; intros e after'.
    - cbn [app Lifecycle.calls_of].
      destruct (Hclosing after' e) as (rs & Hrs).
      cbn. rewrite Hrs. eexists _, _. split; [reflexivity|].
      split_and!; [reflexivity | by destruct e | by destruct e].
    - destruct (IH e after') as (c & rs & Hrun & Hc & He & Hrs).
      cbn [app Lifecycle.calls_of]. cbn. cbn in Hrun. rewrite Hrun.
      eexists _, _. split; [reflexivity|]. split_and!; [done | done |].
      exact Hrs.
    - cbn [app Lifecycle.calls_of]. cbn. destruct e as [e|].
      + destruct (IH (Some e) after') as (c & rs & Hrun & Hc & He & Hrs).
        cbn in Hrun. rewrite Hrun. by eexists _, _.
      + destruct (IH (Some err) after') as (c & rs & Hrun & Hc & He & Hrs).
        cbn in Hrun. rewrite Hrun. by eexists _, _. }
  destruct before as [|[|err] before].
  - cbn [app Lifecycle.calls_of]. cbn.
    destruct (Hclosing after None) as (rs & Hrs). rewrite Hrs.
    eexists _, _. split; [reflexivity|]. by split_and!.
  - destruct (Hmid before None after) as (c & rs & Hrun & Hc & He & Hrs).
    cbn [app Lifecycle.calls_of]. cbn. rewrite Hrun.
    eexists _, _. split; [reflexivity|]. split_and!; [done | done |].
    exact Hrs.
  - destruct (Hmid before (Some err) after) as (c & rs & Hrun & Hc & He & Hrs).
    cbn [app Lifecycle.calls_of]. cbn. rewrite Hrun.
    eexists _, _. split; [reflexivity|]. by split_and!.
Qed.
